(** * Wave-equation steppers (wave_pack/wave_class.py)

    A shallow embedding of the two finite-difference steppers [Wave1D] and
    [Wave2D] and of the part of [initial_func.py] they default to, and
    of the script [wave_project.py] that offers them through menus on a
    terminal.

    numpy arrays are lists (a 2-D array is the list of its rows, axis 0
    first).  Every arithmetic operation of the source is kept, in the order
    Python evaluates it, over an interface [Scalar] of the array element
    type; the interface has two instances: [float], IEEE binary64, which is
    what the program computes with, and [Qc], exact rationals, which is the
    arithmetic the formulas are written in.  Theorems that hold for every
    [Scalar] use no law of arithmetic at all, so they hold bit for bit for
    the binary64 program.

    A Python exception is a value of [error]; a computation that may raise
    has type [result].

    What the model takes for granted:
    - the initial-condition functions are pure and return a new array of
      the element type, as every function of [initial_func.py] does, so no
      array is shared between instances and arrays are kept by value;
    - two arrays are added only when they have the same shape: a
      mismatch is [ValueError], also where numpy could broadcast a
      one-sample operand;
    - [x**2] is [x*x] (where that product overflows binary64, Python's
      float power raises OverflowError; here [alpha2] is then infinite
      and the configuration is refused), and [np.arange] follows its
      documentation: [ceil((stop - start)/step)] samples
      [start + i*step]. *)

From Stdlib Require Import ZArith QArith Qcanon Qround Floats Lqa Ascii.
From stdpp Require Import base tactics option list numbers strings pretty gmap.

Set Warnings "-inexact-float".

(** ** Exceptions *)

Inductive error : Type :=
| UnstableConfiguration  (* sys.exit() behind the alpha2 test *)
| ZeroDivisionError      (* a zero step given to np.arange *)
| OverflowError          (* np.arange cannot compute a length *)
| IndexError             (* grid[0] or grid[-1] on an empty axis *)
| ValueError.            (* operands could not be broadcast together *)

Inductive result (A : Type) : Type :=
| Ok (a : A)
| Raise (e : error).
Arguments Ok {A} a.
Arguments Raise {A} e.

Definition bind {A B : Type} (m : result A) (k : A → result B) : result B :=
  match m with
  | Ok a => k a
  | Raise e => Raise e
  end.

Notation "'let*' a ':=' m 'in' k" := (bind m (λ a, k))
  (at level 10, a name, m at level 100, k at level 200).

(** ** Loops and generators *)

Section control.
Context {St Out : Type}.

(** [for _ in range(n): body], on the state [body] updates. *)
Fixpoint for_range (n : nat) (body : St → result St) (self : St) : result St :=
  match n with
  | O => Ok self
  | S n' => let* self := body self in for_range n' body self
  end.

(** The first [n] values pulled from a generator, [resume] being one
    resumption of it; the state the generator is left in comes first. *)
Fixpoint pulls (resume : St → result (St * Out)) (n : nat) (self : St)
  : result (St * list Out) :=
  match n with
  | O => Ok (self, [])
  | S n' =>
      let* r := resume self in
      let* rs := pulls resume n' r.1 in
      Ok (rs.1, r.2 :: rs.2)
  end.
End control.

(** ** Objects

    A Python object lives in the store under its own identity; a method
    reads and assigns the attributes of [self] only.  The arrays an
    instance of the steppers holds are the result of a numpy expression,
    of [copy()] or of the initial-position function, a new array each
    time, so they are kept by value inside the instance. *)

Section objects.
Context {St Out : Type}.




End objects.

(** ** The element type of the arrays *)

Class Scalar (T : Type) : Type := {
  of_int : Z → T;          (* a Python int met in float arithmetic *)
  half : T;                (* the literal 0.5 *)
  neg : T → T;
  add : T → T → T;
  sub : T → T → T;
  mul : T → T → T;
  div : T → T → T;
  gtb : T → T → bool;      (* a > b *)
  geb : T → T → bool;      (* a >= b *)
  leb : T → T → bool;      (* a <= b *)
  is_zero : T → bool;      (* a == 0 *)
  ceil : T → option Z;     (* numpy's ceiling to an index; None when not finite *)
}.

Declare Scope scalar_scope.
Delimit Scope scalar_scope with sc.
Notation "0" := (of_int 0%Z) : scalar_scope.
Notation "1" := (of_int 1%Z) : scalar_scope.
Notation "2" := (of_int 2%Z) : scalar_scope.
Notation "4" := (of_int 4%Z) : scalar_scope.
Notation "10" := (of_int 10%Z) : scalar_scope.
Infix "+" := add : scalar_scope.
Infix "-" := sub : scalar_scope.
Infix "*" := mul : scalar_scope.
Infix "/" := div : scalar_scope.
Notation "- a" := (neg a) : scalar_scope.

(** ** numpy *)

Module np.
Section np.
Context {T : Type} `{Scalar T}.

(** [np.zeros(n)] *)
Definition zeros (n : nat) : list T := replicate n 0%sc.

(** [np.arange(start, stop, step)]: [ceil((stop - start)/step)] samples
    [start + i*step]; no sample when that length is not positive.  A
    quotient without a ceiling (infinite or not a number) is one error
    here; numpy tells the two apart. *)
Definition arange (start stop step : T) : result (list T) :=
  if is_zero step then Raise ZeroDivisionError
  else match ceil ((stop - start) / step)%sc with
       | None => Raise OverflowError
       | Some n =>
           Ok ((λ i : nat, (start + of_int (Z.of_nat i) * step)%sc)
                 <$> seq 0 (Z.to_nat n))
       end.

(** [np.roll(a, shift)]: the element at index [i] moves to index
    [(i + shift) mod len(a)]. *)
Definition roll {A : Type} (a : list A) (shift : Z) : list A :=
  rotate (Z.to_nat ((- shift) `mod` Z.of_nat (length a))) a.

(** [np.roll(a, shift, axis=0)] and [np.roll(a, shift, axis=1)]. *)
Definition roll0 (a : list (list T)) (shift : Z) : list (list T) :=
  roll a shift.
Definition roll1 (a : list (list T)) (shift : Z) : list (list T) :=
  (λ row, roll row shift) <$> a.

(** [k * a] and [-a] for a scalar [k] and an array [a]. *)
Definition scale (k : T) (a : list T) : list T := mul k <$> a.
Definition negate (a : list T) : list T := neg <$> a.

(** [a + b] for two arrays: same shape, or ValueError (numpy would also
    accept an operand it can broadcast, which no grid-shaped array is). *)
Definition plus (a b : list T) : result (list T) :=
  if decide (length a = length b) then Ok (zip_with add a b)
  else Raise ValueError.

(** The same on 2-D arrays; the shape is the list of the row lengths. *)
Definition shape2 (a : list (list T)) : list nat := length <$> a.
Definition zeros2 (n m : nat) : list (list T) := replicate n (zeros m).
Definition scale2 (k : T) (a : list (list T)) : list (list T) :=
  scale k <$> a.
Definition negate2 (a : list (list T)) : list (list T) := negate <$> a.
Definition plus2 (a b : list (list T)) : result (list (list T)) :=
  if decide (shape2 a = shape2 b) then Ok (zip_with (zip_with add) a b)
  else Raise ValueError.
End np.
End np.

(** ** initial_func.py *)

Section initial_func.
Context {T : Type} `{Scalar T}.

(** [pulse_square1d(x, L)] *)
Definition pulse_square1d (x : list T) (L : T) : list T :=
  (λ i, if geb i (L / 2 - L / 10)%sc && leb i (L / 2 + L / 10)%sc
        then 1%sc else 0%sc) <$> x.

(** [init_vel1d(x)] *)
Definition init_vel1d (x : list T) : list T := np.zeros (length x).

(** [wave_polynomial2d(x, y, Lx, Ly)]; [np.meshgrid(y, x)] puts [x]
    along axis 0 and [y] along axis 1. *)
Definition wave_polynomial2d (x y : list T) (Lx Ly : T) : list (list T) :=
  (λ xi, (λ yj, (4 * (xi * xi) * yj * (1 - xi) * (1 - yj))%sc) <$> y) <$> x.

(** [init_vel2d(x, y)] *)
Definition init_vel2d (x y : list T) : list (list T) :=
  np.zeros2 (length x) (length y).
End initial_func.

(** ** class Wave1D *)

Module Wave1D.
Section Wave1D.
Context {T : Type} `{Scalar T}.

Record t : Type := mk {
  x : list T;
  alpha2 : T;
  time : T;
  dt : T;
  u_tim1 : list T;
  u_ti : list T;
  u_tip1 : list T;
}.

(** [self.time += self.dt] *)
Definition time_update (self : t) : t :=
  mk (x self) (alpha2 self) (time self + dt self)%sc (dt self)
     (u_tim1 self) (u_ti self) (u_tip1 self).

(** [grid[0] = 0; grid[-1] = 0], the array after the two stores. *)
Definition bound_standing (grid : list T) : result (list T) :=
  if decide (length grid = 0%nat) then Raise IndexError
  else Ok (<[(length grid - 1)%nat := 0%sc]> (<[0%nat := 0%sc]> grid)).

(** The right-hand side of the "first time" assignment. *)
Definition first_time (dt alpha2 : T) (v u_tim1 : list T)
  : result (list T) :=
  let* s := np.plus (np.scale dt v) (np.scale (1 - alpha2)%sc u_tim1) in
  let* nb := np.plus (np.roll u_tim1 1) (np.roll u_tim1 (-1)) in
  np.plus s (np.scale (half * alpha2)%sc nb).

(** [__init__]; [u_tip1] is allocated before the clock is advanced, the
    two do not depend on each other. *)
Definition init (u_x0 : list T → T → list T) (ut_x0 : list T → list T)
  (dt L dx c : T) : result t :=
  let* x := np.arange 0%sc (L + dx)%sc dx in
  let r := (c * dt / dx)%sc in
  let alpha2 := (r * r)%sc in
  if gtb alpha2 1%sc then Raise UnstableConfiguration
  else
    let* u0 := bound_standing (u_x0 x L) in
    let* e := first_time dt alpha2 (ut_x0 x) u0 in
    let* u1 := bound_standing e in
    Ok (time_update (mk x alpha2 0%sc dt u0 u1 (np.zeros (length u1)))).

(** [ux_init] *)
Definition ux_init (self : t) : list T * list T := (u_tim1 self, x self).

(** The right-hand side of the assignment to [u_tip1] in [iteration]. *)
Definition next_time (alpha2 : T) (u_tim1 u_ti : list T)
  : result (list T) :=
  let* s := np.plus (np.negate u_tim1)
                    (np.scale (2 * (1 - alpha2))%sc u_ti) in
  let* nb := np.plus (np.roll u_ti 1) (np.roll u_ti (-1)) in
  np.plus s (np.scale alpha2 nb).

(** The body of [for _ in range(steps)]. *)
Definition sub_step (self : t) : result t :=
  let* e := next_time (alpha2 self) (u_tim1 self) (u_ti self) in
  let* e := bound_standing e in
  let self := time_update (mk (x self) (alpha2 self) (time self) (dt self)
                              (u_tim1 self) (u_ti self) e) in
  Ok (mk (x self) (alpha2 self) (time self) (dt self)
         (u_ti self) (u_tip1 self) (u_tip1 self)).

(** One resumption of the generator [iteration(steps)], from where it
    was suspended to its [yield]: the state it leaves and the pair it
    yields. *)
Definition iteration (steps : Z) (self : t) : result (t * (list T * T)) :=
  let* self := for_range (Z.to_nat steps) sub_step self in
  Ok (self, (u_ti self, time self)).
End Wave1D.
Arguments t T : clear implicits.
End Wave1D.

(** ** class Wave2D *)

Module Wave2D.
Section Wave2D.
Context {T : Type} `{Scalar T}.

Record t : Type := mk {
  x : list T;
  y : list T;
  alpha2 : T;
  time : T;
  dt : T;
  u_tim1 : list (list T);
  u_ti : list (list T);
  u_tip1 : list (list T);
}.

(** [self.time += self.dt] *)
Definition time_update (self : t) : t :=
  mk (x self) (y self) (alpha2 self) (time self + dt self)%sc (dt self)
     (u_tim1 self) (u_ti self) (u_tip1 self).

(** [grid.shape[1]] *)
Definition ncols (grid : list (list T)) : nat :=
  length (default [] (list.head grid)).

(** [grid[0, :] = 0; grid[:, 0] = 0; grid[-1, :] = 0; grid[:, -1] = 0],
    the array after the four stores. *)
Definition bound_standing (grid : list (list T))
  : result (list (list T)) :=
  let n := length grid in
  let m := ncols grid in
  if decide (n = 0%nat) then Raise IndexError
  else
    let grid := <[0%nat := np.zeros m]> grid in
    if decide (m = 0%nat) then Raise IndexError
    else
      let grid := (λ row, <[0%nat := 0%sc]> row) <$> grid in
      let grid := <[(n - 1)%nat := np.zeros m]> grid in
      Ok ((λ row, <[(m - 1)%nat := 0%sc]> row) <$> grid).

(** The sum of the four rolled copies, in the order of the source. *)
Definition neighbours (u : list (list T)) : result (list (list T)) :=
  let* s := np.plus2 (np.roll0 u 1) (np.roll0 u (-1)) in
  let* s := np.plus2 s (np.roll1 u 1) in
  np.plus2 s (np.roll1 u (-1)).

(** The right-hand side of the "first time step" assignment. *)
Definition first_time (dt alpha2 : T) (v u_tim1 : list (list T))
  : result (list (list T)) :=
  let* s := np.plus2 (np.scale2 dt v)
                     (np.scale2 (1 - 2 * alpha2)%sc u_tim1) in
  let* nb := neighbours u_tim1 in
  np.plus2 s (np.scale2 (half * alpha2)%sc nb).

(** [__init__]; [u_tip1] is allocated before the clock is advanced, the
    two do not depend on each other. *)
Definition init (u_xy0 : list T → list T → T → T → list (list T))
  (ut_xy0 : list T → list T → list (list T))
  (Lx Ly dt dxy c : T) : result t :=
  let* x := np.arange 0%sc (Lx + dxy)%sc dxy in
  let* y := np.arange 0%sc (Ly + dxy)%sc dxy in
  let r := (c * dt / dxy)%sc in
  let alpha2 := (r * r)%sc in
  if gtb alpha2 half then Raise UnstableConfiguration
  else
    let* u0 := bound_standing (u_xy0 x y Lx Ly) in
    let* e := first_time dt alpha2 (ut_xy0 x y) u0 in
    let* u1 := bound_standing e in
    Ok (time_update
          (mk x y alpha2 0%sc dt u0 u1
              (np.zeros2 (length u1) (ncols u1)))).


(** The right-hand side of the assignment to [u_tip1] in [iteration]. *)
Definition next_time (alpha2 : T) (u_tim1 u_ti : list (list T))
  : result (list (list T)) :=
  let* s := np.plus2 (np.negate2 u_tim1)
                     (np.scale2 (2 * (1 - 2 * alpha2))%sc u_ti) in
  let* nb := neighbours u_ti in
  np.plus2 s (np.scale2 alpha2 nb).

(** The body of [for _ in range(steps)]. *)
Definition sub_step (self : t) : result t :=
  let* e := next_time (alpha2 self) (u_tim1 self) (u_ti self) in
  let* e := bound_standing e in
  let self := time_update (mk (x self) (y self) (alpha2 self) (time self)
                              (dt self) (u_tim1 self) (u_ti self) e) in
  Ok (mk (x self) (y self) (alpha2 self) (time self) (dt self)
         (u_ti self) (u_tip1 self) (u_tip1 self)).

(** One resumption of the generator [iteration(steps)]. *)
Definition iteration (steps : Z) (self : t)
  : result (t * (list (list T) * T)) :=
  let* self := for_range (Z.to_nat steps) sub_step self in
  Ok (self, (u_ti self, time self)).
End Wave2D.
Arguments t T : clear implicits.
End Wave2D.

(** ** The steppers with zero-padded neighbours

    The variant the specification compares the steppers with: every
    [np.roll] is replaced by a shift that brings in 0 for a neighbour
    outside the domain; nothing else is changed. *)

Module Padded.
Section Padded.
Context {T : Type} `{Scalar T}.

(** [a[i]], or [d] when index [i] is outside the array. *)
Definition get {A : Type} (d : A) (a : list A) (i : Z) : A :=
  if decide (0 ≤ i < Z.of_nat (length a))%Z then default d (a !! Z.to_nat i)
  else d.

(** The array whose sample [i] is [a[i - shift]]. *)
Definition shift {A : Type} (d : A) (a : list A) (s : Z) : list A :=
  (λ i : nat, get d a (Z.of_nat i - s)) <$> seq 0 (length a).

Definition shift0 (a : list (list T)) (s : Z) : list (list T) :=
  shift (np.zeros (Wave2D.ncols a)) a s.
Definition shift1 (a : list (list T)) (s : Z) : list (list T) :=
  (λ row, shift 0%sc row s) <$> a.

Definition first_time (dt alpha2 : T) (v u_tim1 : list T)
  : result (list T) :=
  let* s := np.plus (np.scale dt v) (np.scale (1 - alpha2)%sc u_tim1) in
  let* nb := np.plus (shift 0%sc u_tim1 1) (shift 0%sc u_tim1 (-1)) in
  np.plus s (np.scale (half * alpha2)%sc nb).

Definition init (u_x0 : list T → T → list T) (ut_x0 : list T → list T)
  (dt L dx c : T) : result (Wave1D.t T) :=
  let* x := np.arange 0%sc (L + dx)%sc dx in
  let r := (c * dt / dx)%sc in
  let alpha2 := (r * r)%sc in
  if gtb alpha2 1%sc then Raise UnstableConfiguration
  else
    let* u0 := Wave1D.bound_standing (u_x0 x L) in
    let* e := first_time dt alpha2 (ut_x0 x) u0 in
    let* u1 := Wave1D.bound_standing e in
    Ok (Wave1D.time_update
          (Wave1D.mk x alpha2 0%sc dt u0 u1 (np.zeros (length u1)))).

Definition next_time (alpha2 : T) (u_tim1 u_ti : list T)
  : result (list T) :=
  let* s := np.plus (np.negate u_tim1)
                    (np.scale (2 * (1 - alpha2))%sc u_ti) in
  let* nb := np.plus (shift 0%sc u_ti 1) (shift 0%sc u_ti (-1)) in
  np.plus s (np.scale alpha2 nb).

Definition sub_step (self : Wave1D.t T) : result (Wave1D.t T) :=
  let* e := next_time (Wave1D.alpha2 self) (Wave1D.u_tim1 self)
              (Wave1D.u_ti self) in
  let* e := Wave1D.bound_standing e in
  let self :=
    Wave1D.time_update
      (Wave1D.mk (Wave1D.x self) (Wave1D.alpha2 self) (Wave1D.time self)
         (Wave1D.dt self) (Wave1D.u_tim1 self) (Wave1D.u_ti self) e) in
  Ok (Wave1D.mk (Wave1D.x self) (Wave1D.alpha2 self) (Wave1D.time self)
        (Wave1D.dt self) (Wave1D.u_ti self) (Wave1D.u_tip1 self)
        (Wave1D.u_tip1 self)).

Definition neighbours (u : list (list T)) : result (list (list T)) :=
  let* s := np.plus2 (shift0 u 1) (shift0 u (-1)) in
  let* s := np.plus2 s (shift1 u 1) in
  np.plus2 s (shift1 u (-1)).

Definition first_time2 (dt alpha2 : T) (v u_tim1 : list (list T))
  : result (list (list T)) :=
  let* s := np.plus2 (np.scale2 dt v)
                     (np.scale2 (1 - 2 * alpha2)%sc u_tim1) in
  let* nb := neighbours u_tim1 in
  np.plus2 s (np.scale2 (half * alpha2)%sc nb).

Definition init2 (u_xy0 : list T → list T → T → T → list (list T))
  (ut_xy0 : list T → list T → list (list T))
  (Lx Ly dt dxy c : T) : result (Wave2D.t T) :=
  let* x := np.arange 0%sc (Lx + dxy)%sc dxy in
  let* y := np.arange 0%sc (Ly + dxy)%sc dxy in
  let r := (c * dt / dxy)%sc in
  let alpha2 := (r * r)%sc in
  if gtb alpha2 half then Raise UnstableConfiguration
  else
    let* u0 := Wave2D.bound_standing (u_xy0 x y Lx Ly) in
    let* e := first_time2 dt alpha2 (ut_xy0 x y) u0 in
    let* u1 := Wave2D.bound_standing e in
    Ok (Wave2D.time_update
          (Wave2D.mk x y alpha2 0%sc dt u0 u1
             (np.zeros2 (length u1) (Wave2D.ncols u1)))).

Definition next_time2 (alpha2 : T) (u_tim1 u_ti : list (list T))
  : result (list (list T)) :=
  let* s := np.plus2 (np.negate2 u_tim1)
                     (np.scale2 (2 * (1 - 2 * alpha2))%sc u_ti) in
  let* nb := neighbours u_ti in
  np.plus2 s (np.scale2 alpha2 nb).

Definition sub_step2 (self : Wave2D.t T) : result (Wave2D.t T) :=
  let* e := next_time2 (Wave2D.alpha2 self) (Wave2D.u_tim1 self)
              (Wave2D.u_ti self) in
  let* e := Wave2D.bound_standing e in
  let self :=
    Wave2D.time_update
      (Wave2D.mk (Wave2D.x self) (Wave2D.y self) (Wave2D.alpha2 self)
         (Wave2D.time self) (Wave2D.dt self) (Wave2D.u_tim1 self)
         (Wave2D.u_ti self) e) in
  Ok (Wave2D.mk (Wave2D.x self) (Wave2D.y self) (Wave2D.alpha2 self)
        (Wave2D.time self) (Wave2D.dt self) (Wave2D.u_ti self)
        (Wave2D.u_tip1 self) (Wave2D.u_tip1 self)).
End Padded.
End Padded.

(** ** The two arithmetics *)

(** Python's conversion of an int to a float: the nearest binary64. *)
Definition float_of_int (z : Z) : float :=
SF2Prim (binary_normalize prec emax z 0 false).

(** The ceiling of a finite binary64 value [(-1)^s * m * 2^e]. *)
Definition float_ceil (f : float) : option Z :=
match Prim2SF f with
| S754_zero _ => Some 0%Z
| S754_finite s m e =>
    Some (match e with
          | Zneg p => if s then (- (Zpos m / 2 ^ Zpos p))%Z
                      else (- (Zneg m / 2 ^ Zpos p))%Z
          | _ => if s then (Zneg m * 2 ^ e)%Z else (Zpos m * 2 ^ e)%Z
          end)
| S754_infinity _ | S754_nan => None
end.

#[export] Instance float_scalar : Scalar float := {|
of_int := float_of_int;
half := 0.5%float;
neg := PrimFloat.opp;
add := PrimFloat.add;
sub := PrimFloat.sub;
mul := PrimFloat.mul;
div := PrimFloat.div;
gtb a b := PrimFloat.ltb b a;
geb a b := PrimFloat.leb b a;
leb a b := PrimFloat.leb a b;
is_zero a := PrimFloat.eqb a 0%float;
ceil := float_ceil;
|}.

#[export] Instance Qc_scalar : Scalar Qc := {|
of_int z := Q2Qc (inject_Z z);
half := Q2Qc (1 # 2);
neg := Qcopp;
add := Qcplus;
sub := Qcminus;
mul := Qcmult;
div := Qcdiv;
gtb a b := bool_decide (b < a)%Qc;
geb a b := bool_decide (b ≤ a)%Qc;
leb a b := bool_decide (a ≤ b)%Qc;
is_zero a := bool_decide (a = Q2Qc 0);
ceil a := Some (Qceiling a);
|}.


(** ** Vocabulary of the statements *)

(** The element of [l] at index [i mod len(l)]; [d] when [l] is empty. *)
Definition circ {A : Type} (d : A) (l : list A) (i : Z) : A :=
default d (l !! Z.to_nat (i `mod` Z.of_nat (length l))).

Section vocabulary.
Context {T : Type} `{Scalar T}.

(** [a[i]] with the circular index of [np.roll]: [i] is taken modulo
    [len(a)], so [item a (-1)] is the last sample and [item a (len a)]
    the first. *)
Definition item (a : list T) (i : Z) : T := circ 0%sc a i.

(** [a[i, j]], circular along both axes. *)
Definition item2 (a : list (list T)) (i j : Z) : T :=
  item (circ [] a i) j.

(** The first and the last sample of a 1-D snapshot are 0. *)
Definition pinned (a : list T) : Prop :=
  list.head a = Some 0%sc ∧ list.last a = Some 0%sc.

(** An array of [n] rows of [m] samples each. *)
Definition rect (n m : nat) (a : list (list T)) : Prop :=
  length a = n ∧ Forall (λ row, length row = m) a.

(** The first and last row and the first and last column of a 2-D
    snapshot are 0. *)
Definition pinned2 (a : list (list T)) : Prop :=
  (∃ r, list.head a = Some r ∧ Forall (λ v, v = 0%sc) r) ∧
  (∃ r, list.last a = Some r ∧ Forall (λ v, v = 0%sc) r) ∧
  Forall pinned a.

(** [r] is [e] with its first and last sample set to 0. *)
Definition reset (e r : list T) : Prop :=
  length r = length e ∧ pinned r ∧
  ∀ i : nat, 0 < i < length e - 1 → r !! i = e !! i.


(** [e] is the 1-D bootstrap formula applied to [u0]: at every index,
    neighbours taken with the circular index. *)
Definition bootstrap (dt α : T) (v u0 e : list T) : Prop :=
  length e = length u0 ∧
  ∀ i : Z,
    item e i
    = (dt * item v i + (1 - α) * item u0 i
       + half * α * (item u0 (i - 1) + item u0 (i + 1)))%sc.





(** A 1-D snapshot that is its own mirror image about the midpoint of the
    domain. *)
Definition symmetric (a : list T) : Prop := reverse a = a.

(** Two arrays of one shape that agree away from the boundary. *)
Definition inner_eq (e e' : list T) : Prop :=
  length e = length e' ∧ ∀ i : nat, 0 < i < length e - 1 → e !! i = e' !! i.

Definition inner_eq2 (n m : nat) (e e' : list (list T)) : Prop :=
  rect n m e ∧ rect n m e' ∧
  ∀ i j : nat, 0 < i < n - 1 → 0 < j < m - 1 →
    e !! i ≫= (.!! j) = e' !! i ≫= (.!! j).

(** What every state of a running 1-D stepper satisfies: the three
    levels have one non-empty shape and their ends are 0. *)
Definition shaped (w : Wave1D.t T) : Prop :=
  length (Wave1D.u_tim1 w) = length (Wave1D.u_ti w) ∧
  length (Wave1D.u_tip1 w) = length (Wave1D.u_ti w) ∧
  pinned (Wave1D.u_tim1 w) ∧ pinned (Wave1D.u_ti w) ∧
  pinned (Wave1D.u_tip1 w).

(** The array [Wave2D.bound_standing] leaves, for [n] rows of [m]
    samples: rows 0 and [n-1] are zero, the other rows have their two
    ends zeroed. *)
Definition pin2 (n m : nat) (a : list (list T)) : list (list T) :=
  imap (λ i row, if decide (i = 0 ∨ i = n - 1) then np.zeros m
                 else <[m - 1 := 0%sc]> (<[0 := 0%sc]> row)) a.

(** What every state of a running 2-D stepper satisfies. *)
Definition shaped2 (n m : nat) (w : Wave2D.t T) : Prop :=
  n ≠ 0 ∧ m ≠ 0 ∧
  rect n m (Wave2D.u_tim1 w) ∧ rect n m (Wave2D.u_ti w) ∧
  rect n m (Wave2D.u_tip1 w) ∧
  pinned2 (Wave2D.u_tim1 w) ∧ pinned2 (Wave2D.u_ti w) ∧
  pinned2 (Wave2D.u_tip1 w).
End vocabulary.


(** ** Vocabulary of the further statements *)

Section vocabulary_locality.
Context {T : Type} `{Scalar T}.


End vocabulary_locality.

Section vocabulary_turned.
Context {T : Type} `{Scalar T}.

End vocabulary_turned.

Section vocabulary_comb.
Context {T : Type} `{Scalar T}.


End vocabulary_comb.

(** ** initial_func.py, the other pulses *)

Section initial_func_more.
Context {T : Type} `{Scalar T}.



End initial_func_more.

(** ** Arrays as objects

    Python passes arrays by reference: [bound_standing] writes into the
    array it is given, the generator yields the array [self.u_ti]
    itself, and [ux_init] hands out [self.u_tim1] and [self.x].  Here the
    arrays live in a heap under their identities and [Wave1D] is read
    once more with the attributes holding identities; every numpy
    expression, [np.zeros] and [copy()] make a new array.  An
    initial-condition function is any function on the heap that returns
    the identity of an array.  An identity is a number. *)

Module Ref1D.
Section Ref1D.
Context {T : Type} `{Scalar T}.

(** The array with identity [l]. *)
Definition get (h : gmap nat (list T)) (l : nat) : list T :=
  default [] (h !! l).

(** A new array holding [a]. *)
Definition alloc (a : list T) (h : gmap nat (list T))
  : nat * gmap nat (list T) :=
  let l := fresh (dom h) in (l, <[l := a]> h).

Record t : Type := mk {
  x : nat;
  alpha2 : T;
  time : T;
  dt : T;
  u_tim1 : nat;
  u_ti : nat;
  u_tip1 : nat;
}.

(** [self.time += self.dt] *)
Definition time_update (self : t) : t :=
  mk (x self) (alpha2 self) (time self + dt self)%sc (dt self)
     (u_tim1 self) (u_ti self) (u_tip1 self).

(** [grid[0] = 0; grid[-1] = 0], in place. *)
Definition bound_standing (grid : nat) (h : gmap nat (list T))
  : result (gmap nat (list T)) :=
  let* a := Wave1D.bound_standing (get h grid) in
  Ok (<[grid := a]> h).

(** [__init__]; [u_tip1] is allocated before the clock is advanced, the
    two do not depend on each other. *)
Definition init
  (u_x0 : nat → T → gmap nat (list T) → nat * gmap nat (list T))
  (ut_x0 : nat → gmap nat (list T) → nat * gmap nat (list T))
  (dt L dx c : T) (h : gmap nat (list T))
  : result (t * gmap nat (list T)) :=
  let* xs := np.arange 0%sc (L + dx)%sc dx in
  let '(lx, h) := alloc xs h in
  let r := (c * dt / dx)%sc in
  let alpha2 := (r * r)%sc in
  if gtb alpha2 1%sc then Raise UnstableConfiguration
  else
    let '(l0, h) := u_x0 lx L h in
    let* h := bound_standing l0 h in
    let '(lv, h) := ut_x0 lx h in
    let* e := Wave1D.first_time dt alpha2 (get h lv) (get h l0) in
    let '(l1, h) := alloc e h in
    let* h := bound_standing l1 h in
    let '(l2, h) := alloc (np.zeros (length (get h l1))) h in
    Ok (time_update (mk lx alpha2 0%sc dt l0 l1 l2), h).

(** [ux_init]: the two arrays themselves. *)
Definition ux_init (self : t) : nat * nat := (u_tim1 self, x self).

(** The body of [for _ in range(steps)]. *)
Definition sub_step (s : t * gmap nat (list T))
  : result (t * gmap nat (list T)) :=
  let '(self, h) := s in
  let* e := Wave1D.next_time (alpha2 self) (get h (u_tim1 self))
              (get h (u_ti self)) in
  let '(l, h) := alloc e h in
  let* h := bound_standing l h in
  let self := time_update (mk (x self) (alpha2 self) (time self) (dt self)
                              (u_tim1 self) (u_ti self) l) in
  let '(l0, h) := alloc (get h (u_ti self)) h in
  let '(l1, h) := alloc (get h (u_tip1 self)) h in
  Ok (mk (x self) (alpha2 self) (time self) (dt self) l0 l1 (u_tip1 self),
      h).

(** One resumption of the generator [iteration(steps)]; it yields the
    identity of [self.u_ti] and the clock. *)
Definition iteration (steps : Z) (s : t * gmap nat (list T))
  : result ((t * gmap nat (list T)) * (nat * T)) :=
  let* s := for_range (Z.to_nat steps) sub_step s in
  Ok (s, (u_ti s.1, time s.1)).
End Ref1D.
Arguments t T : clear implicits.
End Ref1D.

Section vocabulary_ref.
Context {T : Type} `{Scalar T}.

(** The stepper as the arrays its attributes point to. *)
Definition view (h : gmap nat (list T)) (self : Ref1D.t T) : Wave1D.t T :=
  Wave1D.mk (Ref1D.get h (Ref1D.x self)) (Ref1D.alpha2 self)
    (Ref1D.time self) (Ref1D.dt self) (Ref1D.get h (Ref1D.u_tim1 self))
    (Ref1D.get h (Ref1D.u_ti self)) (Ref1D.get h (Ref1D.u_tip1 self)).

(** The four arrays of the stepper exist. *)
Definition alive (h : gmap nat (list T)) (self : Ref1D.t T) : Prop :=
  Ref1D.x self ∈ dom h ∧ Ref1D.u_tim1 self ∈ dom h ∧
  Ref1D.u_ti self ∈ dom h ∧ Ref1D.u_tip1 self ∈ dom h.

(** The three levels are three arrays, none of them the grid. *)
Definition apart (self : Ref1D.t T) : Prop :=
  NoDup [Ref1D.x self; Ref1D.u_tim1 self; Ref1D.u_ti self;
         Ref1D.u_tip1 self].

(** A by-reference result and a by-value result that are the same
    error, or the same stepper once the arrays are read from the heap. *)
Definition same (r : result (Ref1D.t T * gmap nat (list T)))
  (v : result (Wave1D.t T)) : Prop :=
  match r, v with
  | Ok (self, h), Ok w => view h self = w
  | Raise e, Raise e' => e = e'
  | _, _ => False
  end.

(** An initial-condition function that makes a new array holding [f]
    of the grid, and touches nothing else. *)
Definition makes (f : list T → list T)
  (u : nat → gmap nat (list T) → nat * gmap nat (list T)) : Prop :=
  ∀ lx h, lx ∈ dom h → u lx h = Ref1D.alloc (f (Ref1D.get h lx)) h.
End vocabulary_ref.

Section vocabulary_pulls.
Context {T : Type} `{Scalar T}.

(** The pairs a caller received, with each array read from the heap. *)
Definition contents (h : gmap nat (list T)) (outs : list (nat * T))
  : list (list T * T) :=
  (λ o, (Ref1D.get h o.1, o.2)) <$> outs.

(** Pulls by reference and pulls by value that end in the same error,
    or in the same stepper having yielded the same fields and times,
    the arrays being read when all pulls are done. *)
Definition same_pulls
  (r : result ((Ref1D.t T * gmap nat (list T)) * list (nat * T)))
  (v : result (Wave1D.t T * list (list T * T))) : Prop :=
  match r, v with
  | Ok ((self, h), outs), Ok (w, fields) =>
      view h self = w ∧ contents h outs = fields
  | Raise e, Raise e' => e = e'
  | _, _ => False
  end.
End vocabulary_pulls.

(** ** wave_project.py

    The script talks to a terminal.  [world] holds the lines still to be
    read from standard input and what has been written to standard
    output: [print(s)] writes a [Line], [input(prompt)] writes a
    [Prompt] and reads one line, raising EOFError when none is left.  A
    [while True] loop is run with fuel: [None] says the loop is still
    going round when the fuel is used up.  Every [except:] of the script
    is bare and catches whatever was raised, so a raise is a flag.
    Assertions are on, as they are unless Python is started with [-O].
    Text is ASCII, writing never fails, no signal arrives, and clearing
    the screen leaves no trace. *)

Module wave_project.

Inductive out : Type :=
  | Line (s : string)
  | Prompt (s : string).

Record world : Type := World {
  stdin : list string;
  stdout : list out;
}.

(** [print(s)] *)
Definition print (s : string) (w : world) : world :=
  World (stdin w) (stdout w ++ [Line s]).

(** [input(prompt)] *)
Definition input (prompt : string) (w : world) : option string * world :=
  match stdin w with
  | [] => (None, World [] (stdout w ++ [Prompt prompt]))
  | line :: rest => (Some line, World rest (stdout w ++ [Prompt prompt]))
  end.

(** One round of a [while True] loop ends in [break] or [return] with a
    value, or the loop goes round again. *)
Inductive flow (A : Type) : Type :=
  | Break (a : A)
  | Continue.
Arguments Break {A} a.
Arguments Continue {A}.

Fixpoint while_true {A : Type} (fuel : nat)
  (body : world → option (flow A * world)) (w : world)
  : option (A * world) :=
  match fuel with
  | O => None
  | S fuel =>
      match body w with
      | None => None
      | Some (Break a, w) => Some (a, w)
      | Some (Continue, w) => while_true fuel body w
      end
  end.

(** [c.lower()] for one ASCII character. *)
Definition lower (c : Ascii.ascii) : Ascii.ascii :=
  let n := Ascii.nat_of_ascii c in
  if bool_decide (65 ≤ n ≤ 90) then Ascii.ascii_of_nat (n + 32) else c.

Section script.
Context {F : Type}.

(** The global [func_list]: the functions of [initial_func] with their
    names, as [getmembers] lists them. *)
Variable func_list : list (string * F).

(** Python's [int] on a string; [None] when it raises ValueError. *)
Variable int : string → option Z.

(** [wave1d_ani] and [wave2d_ani] build the stepper and hand it to
    matplotlib.  They read nothing from standard input; what they do
    may depend on all that happened before.  The result tells whether
    the call returned ([true]) or raised, and the lines it printed. *)
Variable wave1d_ani : string * F → world → bool * list string.
Variable wave2d_ani : string * F → world → bool * list string.

Definition prints (lines : list string) (w : world) : world :=
  foldl (λ w line, print line w) w lines.

(** [{n: elem for n, elem in enumerate(funcs)}] *)
Definition enumerate (funcs : list (string * F)) : gmap Z (string * F) :=
  list_to_map (imap (λ n elem, (Z.of_nat n, elem)) funcs).

(** [for k, v in func_dict.items(): print("{}: {}".format(k, v[0]))];
    a dict lists its items in the order they were put in. *)
Definition show (funcs : list (string * F)) (w : world) : world :=
  prints (imap (λ k v, pretty k +:+ ": " +:+ v.1) funcs) w.

(** The [try] block of the loops that ask for a number, and their
    [except:]. *)
Definition choose (func_dict : gmap Z (string * F)) (w : world)
  : option (flow Z * world) :=
  let '(line, w) := input "
> " w in
  match line ≫= int with
  | Some pulse =>
      if bool_decide (pulse ∈ dom func_dict) then Some (Break pulse, w)
      else Some (Continue, print "Please enter a valid integer." w)
  | None => Some (Continue, print "Please enter a valid integer." w)
  end.

(** [user_1d]; the flag tells whether it returned or raised. *)
Definition user_1d (fuel : nat) (w : world) : option (bool * world) :=
  let funcs_1d :=
    filter (λ i, String.substring 0 5 i.1 = "pulse") func_list in
  let func_dict := enumerate funcs_1d in
  let w := print "So you chose to see one of our 1D demonstrations! Great!"
             w in
  let w := print "What initial pulse would you like to see in the animation:"
             w in
  let w := print "Enter the number corresponding to that pulse.
" w in
  let w := show funcs_1d w in
  match while_true fuel (choose func_dict) w with
  | None => None
  | Some (pulse, w) =>
      match func_dict !! pulse with
      | Some function =>
          let '(returned, lines) := wave1d_ani function w in
          Some (returned, prints lines w)
      | None => Some (false, w)
      end
  end.

(** [user_2d] *)
Definition user_2d (fuel : nat) (w : world) : option (bool * world) :=
  let funcs_2d :=
    filter (λ i, String.substring 0 4 i.1 = "wave") func_list in
  let func_dict := enumerate funcs_2d in
  let w := print "Moving into the interesting stuff, eh? Awesome!" w in
  let w := print "What initial wave would you like to see in the animation:"
             w in
  let w := print "Enter the number corresponding to that wave.
" w in
  let w := show funcs_2d w in
  match while_true fuel (choose func_dict) w with
  | None => None
  | Some (option, w) =>
      match func_dict !! option with
      | Some function =>
          let '(returned, lines) := wave2d_ani function w in
          Some (returned, prints lines w)
      | None => Some (false, w)
      end
  end.

(** The body of the loop of [main]: the two questions, the [try] block
    and its [except:]. *)
Definition main_round (fuel : nat) (w : world) : option (flow () * world) :=
  let w := print "Do you want to explore 1 or 2 dimensions?" w in
  let w := print "(Enter 'q' to exit the program.)" w in
  let '(line, w) := input "> " w in
  let except w :=
    Some (Continue,
          print "Please specify if you want '1' or '2' dimensions." w) in
  match line with
  | None => except w
  | Some answer =>
      match String.get 0 answer with
      | None => except w
      | Some c =>
          if bool_decide (lower c = "o"%char ∨ c = "1"%char) then
            match user_1d fuel w with
            | None => None
            | Some (true, w) => Some (Continue, w)
            | Some (false, w) => except w
            end
          else if bool_decide (lower c = "t"%char ∨ c = "2"%char) then
            match user_2d fuel w with
            | None => None
            | Some (true, w) => Some (Continue, w)
            | Some (false, w) => except w
            end
          else if bool_decide (lower c = "q"%char) then
            let w := print "Thank you for looking through our demonstrations!"
                       w in
            Some (Break (), print "Bye!" w)
          else
            Some (Continue,
                  print ("Sorry, '" +:+ answer +:+ "' is not an option.") w)
      end
  end.

(** [main] *)
Definition main (fuel : nat) (w : world) : option (() * world) :=
  while_true fuel (main_round fuel) w.

(** [start_message]: the greeting, then a line is awaited and thrown
    away; the flag tells whether it returned or raised. *)
Definition start_message (w : world) : bool * world :=
  let w := print "
Hello and welcome to our project. In this project we will show you some cool
waves in 1 and 2 dimensions.

These are solutions to the wave equation using the method of central
differences.

The animations in this demonstration have been formulated specifically for
a Raspberry Pi because of its specs.

Created by: Abel Flores Prieto and Sang Hun Chou." w in
  let '(line, w) := input "
Press <Enter> to continue..." w in
  (bool_decide (is_Some line), w).

(** The script run as a program: [start_message()], then [main()].
    [Some (true, _)] when it ends, [Some (false, _)] when it stops with
    a traceback. *)
Definition program (fuel : nat) (w : world) : option (bool * world) :=
  let '(returned, w) := start_message w in
  if returned then
    match main fuel w with
    | None => None
    | Some (_, w) => Some (true, w)
    end
  else Some (false, w).
End script.
End wave_project.

(** *** Inputs for the examples

    The names of the functions of initial_func.py, as [getmembers]
    sorts them; the functions themselves play no part in the menus. *)
Definition shipped : list (string * ()) :=
  (λ name, (name, ())) <$>
  ["init_vel1d"; "init_vel2d"; "pulse_sine1d"; "pulse_square1d";
   "pulse_trian1d"; "wave_gaussian2d"; "wave_poly_trig2d";
   "wave_polynomial2d"; "wave_trig2d"; "wave_trig_gauss2d"].

(** Python's [int] on a plain decimal numeral with an optional sign.
    Python reads more than that (blanks around the numeral, underscores
    between digits); on those this reader gives [None]. *)
Fixpoint numeral (acc : Z) (s : string) : option Z :=
  match s with
  | EmptyString => Some acc
  | String c s =>
      let n := Ascii.nat_of_ascii c in
      if bool_decide (48 ≤ n ≤ 57)
      then numeral (10 * acc + Z.of_nat (n - 48)) s
      else None
  end.

Definition int_plain (s : string) : option Z :=
  match s with
  | EmptyString => None
  | String c EmptyString => numeral 0 s
  | String c s' =>
      if bool_decide (c = "-"%char) then Z.opp <$> numeral 0 s'
      else if bool_decide (c = "+"%char) then numeral 0 s'
      else numeral 0 s
  end.

(** An animation that runs until its window is closed, and one that
    fails before it prints anything. *)
Definition animation_closed (function : string * ()) (w : wave_project.world)
  : bool * list string :=
  (true, ["To exit animation simply click the 'x' in the corner."]).

Definition animation_failed (function : string * ()) (w : wave_project.world)
  : bool * list string :=
  (false, []).

(** ** Vocabulary for the script *)
Section vocabulary_script.
Import wave_project.
Context {F : Type}.
Variable int : string → option Z.

(** A line picks entry [n] of a menu of [k] entries. *)
Definition picks (k : nat) (line : string) : option nat :=
  match int line with
  | Some z => if bool_decide (0 ≤ z < Z.of_nat k)%Z then Some (Z.to_nat z)
              else None
  | None => None
  end.

(** What the number loop writes for the lines it turns down. *)
Definition turned_down (bad : list string) : list out :=
  bad ≫= λ _, [Prompt "
> "; Line "Please enter a valid integer."].

(** The heading of a menu and its entries. *)
Definition menu (heading : list string) (funcs : list (string * F))
  : list out :=
  Line <$> (heading ++ imap (λ k v, pretty k +:+ ": " +:+ v.1) funcs).

(** The functions on offer: those whose name begins with [prefix]. *)
Definition offered (prefix : string) (func_list : list (string * F))
  : list (string * F) :=
  filter (λ i, String.substring 0 (String.length prefix) i.1 = prefix)
    func_list.

(** The first character of an answer, as [main] looks at it. *)
Definition first_is (p : Ascii.ascii → Prop) (answer : string) : Prop :=
  ∃ c, String.get 0 answer = Some c ∧ p c.

Definition quits (answer : string) : Prop :=
  first_is (λ c, lower c = "q"%char) answer.

(** An answer that opens no menu and does not quit, and the reply
    to it. *)
Definition idle (answer : string) : bool :=
  match String.get 0 answer with
  | None => true
  | Some c =>
      bool_decide (lower c ≠ "o"%char ∧ c ≠ "1"%char ∧ lower c ≠ "t"%char
                   ∧ c ≠ "2"%char ∧ lower c ≠ "q"%char)
  end.

Definition reply (answer : string) : string :=
  match String.get 0 answer with
  | None => "Please specify if you want '1' or '2' dimensions."
  | Some _ => "Sorry, '" +:+ answer +:+ "' is not an option."
  end.

Definition asked : list out :=
  [Line "Do you want to explore 1 or 2 dimensions?";
   Line "(Enter 'q' to exit the program.)"; Prompt "> "].
End vocabulary_script.

(** ** Vocabulary for the 2-D statements *)
Section vocabulary_sheet.
Context {T : Type} `{Scalar T}.

(** Two 2-D arrays hold the same samples in the rows [lo..hi], columns
    [lo'..hi']. *)
Definition agree2 (lo hi lo' hi' : Z) (u v : list (list T)) : Prop :=
  ∀ i j : nat, (lo ≤ Z.of_nat i ≤ hi)%Z → (lo' ≤ Z.of_nat j ≤ hi')%Z →
    u !! i ≫= (.!! j) = v !! i ≫= (.!! j).

(** The relation two 2-D steppers on [n] by [m] samples are in [k]
    sub-steps after they were built from data that agree in a window:
    the window of the older level has lost [k] samples on every side,
    the window of the current level one more. *)
Definition close2 (n m : nat) (lo hi lo' hi' : Z) (k : nat)
  (w w' : Wave2D.t T) : Prop :=
  Wave2D.alpha2 w = Wave2D.alpha2 w' ∧
  rect n m (Wave2D.u_tim1 w) ∧ rect n m (Wave2D.u_tim1 w') ∧
  rect n m (Wave2D.u_ti w) ∧ rect n m (Wave2D.u_ti w') ∧
  agree2 (lo + Z.of_nat k) (hi - Z.of_nat k) (lo' + Z.of_nat k)
    (hi' - Z.of_nat k) (Wave2D.u_tim1 w) (Wave2D.u_tim1 w') ∧
  agree2 (lo + 1 + Z.of_nat k) (hi - 1 - Z.of_nat k) (lo' + 1 + Z.of_nat k)
    (hi' - 1 - Z.of_nat k) (Wave2D.u_ti w) (Wave2D.u_ti w').




End vocabulary_sheet.

(** ** Vocabulary for the energy of the string *)
Section vocabulary_energy.
Context {T : Type} `{Scalar T}.



End vocabulary_energy.

(** ** The model on small inputs *)

Example roll_right : np.roll [1; 2; 3; 4]%float 1 = [4; 1; 2; 3]%float.
Proof. reflexivity. Qed.

Example roll_left : np.roll [1; 2; 3; 4]%float (-1) = [2; 3; 4; 1]%float.
Proof. reflexivity. Qed.

Example roll_rows :
  np.roll0 [[1; 2]; [3; 4]; [5; 6]]%float 1 = [[5; 6]; [1; 2]; [3; 4]]%float ∧
  np.roll1 [[1; 2; 3]; [4; 5; 6]]%float 1 = [[3; 1; 2]; [6; 4; 5]]%float.
Proof. split; reflexivity. Qed.

Example arange_half :
  np.arange 0%sc (1 + 0.5)%float 0.5%float = Ok [0; 0.5; 1]%float.
Proof. reflexivity. Qed.

Example arange_zero_step :
  np.arange 0%sc 1%float 0%float = Raise ZeroDivisionError.
Proof. reflexivity. Qed.

Example plus_shapes :
  np.plus [1; 2]%float [1; 2; 3]%float = Raise ValueError.
Proof. reflexivity. Qed.

Example bound_standing_1d :
  Wave1D.bound_standing [1; 2; 3; 4]%float = Ok [0; 2; 3; 0]%float ∧
  Wave1D.bound_standing (T:=float) [] = Raise IndexError.
Proof. split; reflexivity. Qed.

Example bound_standing_2d :
  Wave2D.bound_standing [[1; 2; 3]; [4; 5; 6]; [7; 8; 9]; [1; 1; 1]]%float
  = Ok [[0; 0; 0]; [0; 5; 0]; [0; 8; 0]; [0; 0; 0]]%float.
Proof. reflexivity. Qed.

(** The square pulse on five samples, in binary64 and in exact
    arithmetic: construction, then one pull with [steps = 1]. *)
Example square_pulse_binary64 :
  (let* w := Wave1D.init pulse_square1d init_vel1d 0.5%float 4%float
               1%float 1%float in
   pulls (Wave1D.iteration 1) 1 w)
  = Ok (Wave1D.mk [0; 1; 2; 3; 4]%float 0.25%float 1%float 0.5%float
          [0; 0.125; 0.75; 0.125; 0]%float
          [0; 0.375; 0.1875; 0.375; 0]%float
          [0; 0.375; 0.1875; 0.375; 0]%float,
        [([0; 0.375; 0.1875; 0.375; 0]%float, 1%float)]).
Proof. reflexivity. Qed.

Example square_pulse_exact :
  (let* w := Wave1D.init pulse_square1d init_vel1d (Q2Qc (1 # 2)) (Q2Qc 4)
               (Q2Qc 1) (Q2Qc 1) in
   let* r := pulls (Wave1D.iteration 1) 1 w in
   Ok ((λ o : list Qc * Qc, (this <$> o.1, this o.2)) <$> r.2))
  = Ok [([0; 3 # 8; 3 # 16; 3 # 8; 0]%Q, 1%Q)].
Proof. reflexivity. Qed.

(** Before the boundary reset, circular and zero-padded neighbours give
    different first and last samples. *)
Example wrap_differs_before_reset :
  Wave1D.first_time 0.5%float 0.25%float [0; 0; 0; 0]%float [1; 2; 3; 4]%float
  = Ok [1.5; 2; 3; 3.5]%float ∧
  Padded.first_time 0.5%float 0.25%float [0; 0; 0; 0]%float [1; 2; 3; 4]%float
  = Ok [1; 2; 3; 3.375]%float.
Proof. split; reflexivity. Qed.

(** ** Facts about loops and generators *)

Section control_facts.
Context {St Out : Type}.
Implicit Types (body : St → result St) (resume : St → result (St * Out)).

Lemma bind_Ok {A B : Type} (m : result A) (k : A → result B) (r : B) :
  bind m k = Ok r ↔ ∃ x, m = Ok x ∧ k x = Ok r.
Proof.
  destruct m as [x|e]; simpl; split.
  - eauto.
  - by intros (? & [= <-] & ?).
  - discriminate.
  - by intros (? & [=] & _).
Qed.

Lemma for_range_add n m body s :
  for_range (n + m) body s
  = let* s' := for_range n body s in for_range m body s'.
Proof.
  revert s. induction n as [|n IH]; intros s; simpl; [done|].
  destruct (body s); simpl; [apply IH|done].
Qed.

Lemma for_range_S n body s :
  for_range (S n) body s = let* s' := for_range n body s in body s'.
Proof.
  replace (S n) with (n + 1) by lia. rewrite for_range_add.
  destruct (for_range n body s) as [s1|]; simpl; [|done].
  by destruct (body s1).
Qed.

(** An invariant of the body holds after the loop. *)
Lemma for_range_invariant (P : St → Prop) body n s s' :
  (∀ s1 s2, P s1 → body s1 = Ok s2 → P s2) →
  P s → for_range n body s = Ok s' → P s'.
Proof.
  intros Hstep. revert s. induction n as [|n IH]; intros s Hs; simpl.
  - by intros [= <-].
  - intros (s1 & H1 & Hrest)%bind_Ok. eauto.
Qed.

(** A body that cannot raise under its invariant makes a loop that
    cannot raise. *)
Lemma for_range_total (P : St → Prop) body n s :
  (∀ s1, P s1 → ∃ s2, body s1 = Ok s2) →
  (∀ s1 s2, P s1 → body s1 = Ok s2 → P s2) →
  P s → ∃ s', for_range n body s = Ok s'.
Proof.
  intros Hprog Hstep. revert s.
  induction n as [|n IH]; intros s Hs; simpl; [eauto|].
  destruct (Hprog s Hs) as [s1 H1]. rewrite H1. simpl. eauto.
Qed.

Lemma pulls_total (P : St → Prop) resume n s :
  (∀ s1, P s1 → ∃ r, resume s1 = Ok r) →
  (∀ s1 r, P s1 → resume s1 = Ok r → P r.1) →
  P s → ∃ res, pulls resume n s = Ok res.
Proof.
  intros Hprog Hstep. revert s.
  induction n as [|n IH]; intros s Hs; simpl; [eauto|].
  destruct (Hprog s Hs) as [r Hr]. rewrite Hr. simpl.
  destruct (IH r.1) as [rs Hrs]; [eauto|]. rewrite Hrs. simpl. eauto.
Qed.

(** A generator that runs [k] rounds of [body] and yields [out] of its
    state: its [i]-th value is [out] after [(i+1) * k] rounds. *)
Lemma pulls_for_range body (out : St → Out) k resume n s s' outs :
  (∀ s1 r, resume s1 = Ok r ↔ for_range k body s1 = Ok r.1 ∧ r.2 = out r.1) →
  pulls resume n s = Ok (s', outs) ↔
  for_range (n * k) body s = Ok s' ∧
  length outs = n ∧
  ∀ i, i < n →
    ∃ si, for_range (S i * k) body s = Ok si ∧ outs !! i = Some (out si).
Proof.
  intros Hres. revert s s' outs. induction n as [|n IH]; intros s s' outs.
  - simpl. split.
    + intros [= <- <-]. split_and!; [done..|]. intros; lia.
    + intros ([= <-] & ->%nil_length_inv & _). done.
  - change (pulls resume (S n) s)
      with (let* r := resume s in
            let* rs := pulls resume n r.1 in
            Ok (rs.1, r.2 :: rs.2)).
    assert (∀ i s1, for_range k body s = Ok s1 →
      for_range (S i * k) body s = for_range (i * k) body s1) as Hsplit.
    { intros i s1 H1. rewrite Nat.mul_succ_l, Nat.add_comm, for_range_add.
      by rewrite H1. }
    split.
    + intros ([s1 o] & [H1 Ho]%Hres
              & ([s2 os] & H2 & [= <- <-])%bind_Ok)%bind_Ok.
      cbn [fst snd] in *. subst o. apply IH in H2 as (H2 & Hlen & Hk).
      rewrite (Hsplit _ _ H1). split_and!; [done|by rewrite <- Hlen|].
      intros [|i] Hlt.
      * exists s1. by rewrite (Hsplit _ _ H1).
      * destruct (Hk i) as (si & Hsi & Hoi); [lia|].
        exists si. by rewrite (Hsplit _ _ H1).
    + intros (Hs' & Hlen & Hk).
      destruct (Hk 0) as (s1 & H1 & Ho); [lia|].
      rewrite Nat.mul_1_l in H1.
      destruct outs as [|o os]; [done|].
      injection Ho as ->. injection Hlen as Hlen.
      rewrite (Hsplit _ _ H1) in Hs'.
      rewrite (proj2 (Hres s (s1, out s1))) by done. cbn [bind fst snd].
      rewrite (proj2 (IH s1 s' os)); [done|].
      split_and!; [done..|]. intros i Hlt.
      destruct (Hk (S i)) as (si & Hsi & Hoi); [lia|].
      exists si. by rewrite (Hsplit _ _ H1) in Hsi.
Qed.
End control_facts.

(** ** Facts about numpy expressions *)

Section facts.
Context {T : Type} `{Scalar T}.
Implicit Types a b u v : list T.

Lemma plus_Ok a b r :
  np.plus a b = Ok r ↔ length a = length b ∧ r = zip_with add a b.
Proof.
  unfold np.plus. case_decide; split.
  - by intros [= <-].
  - by intros [_ ->].
  - discriminate.
  - by intros [? _].
Qed.

Lemma plus_same_length a b :
  length a = length b → np.plus a b = Ok (zip_with add a b).
Proof. intros. by apply plus_Ok. Qed.

Lemma length_roll {A : Type} (l : list A) (s : Z) :
  length (np.roll l s) = length l.
Proof. apply length_rotate. Qed.

Lemma length_scale k a : length (np.scale k a) = length a.
Proof. apply length_fmap. Qed.

Lemma length_negate a : length (np.negate a) = length a.
Proof. apply length_fmap. Qed.

Lemma length_zeros n : length (np.zeros (T:=T) n) = n.
Proof. apply length_replicate. Qed.

(** The sample found at index [i] of a rolled array. *)
Lemma lookup_roll {A : Type} (l : list A) (s : Z) (i : nat) :
  i < length l →
  np.roll l s !! i
  = l !! Z.to_nat ((Z.of_nat i - s) `mod` Z.of_nat (length l)).
Proof.
  intros Hi. unfold np.roll. rewrite lookup_rotate_r by done.
  f_equal. unfold rotate_nat_add. f_equal.
  rewrite Z2Nat.id by (apply Z.mod_pos_bound; lia).
  rewrite Zplus_mod_idemp_l. f_equal. lia.
Qed.

Lemma index_in_range (n : nat) (i : Z) :
  n ≠ 0 → Z.to_nat (i `mod` Z.of_nat n) < n.
Proof.
  intros Hn. pose proof (Z.mod_pos_bound i (Z.of_nat n)). lia.
Qed.

Lemma circ_lookup {A : Type} (d : A) (l : list A) (i : nat) w :
  l !! i = Some w → circ d l (Z.of_nat i) = w.
Proof.
  intros Hi. unfold circ. pose proof (lookup_lt_Some _ _ _ Hi).
  rewrite Z.mod_small by lia. by rewrite Nat2Z.id, Hi.
Qed.

Lemma lookup_circ {A : Type} (d : A) (l : list A) (i : nat) :
  i < length l → l !! i = Some (circ d l (Z.of_nat i)).
Proof.
  intros Hi. destruct (lookup_lt_is_Some_2 l i Hi) as [w Hw].
  by rewrite (circ_lookup _ _ _ _ Hw).
Qed.

Lemma circ_fmap {A B : Type} (f : A → B) d d' (l : list A) (i : Z) :
  length l ≠ 0 → circ d' (f <$> l) i = f (circ d l i).
Proof.
  intros Ha. unfold circ. rewrite length_fmap, list_lookup_fmap.
  destruct (lookup_lt_is_Some_2 l (Z.to_nat (i `mod` Z.of_nat (length l))))
    as [w ->]; [|done].
  by apply index_in_range.
Qed.

Lemma circ_zip_with {A B C : Type} (f : A → B → C) da db dc
  (l : list A) (k : list B) (i : Z) :
  length l = length k → length l ≠ 0 →
  circ dc (zip_with f l k) i = f (circ da l i) (circ db k i).
Proof.
  intros Hab Ha. unfold circ.
  rewrite length_zip_with, <- Hab, Nat.min_id, lookup_zip_with.
  assert (Z.to_nat (i `mod` Z.of_nat (length l)) < length l) as Hi
    by by apply index_in_range.
  destruct (lookup_lt_is_Some_2 l _ Hi) as [w ->].
  destruct (lookup_lt_is_Some_2 k (Z.to_nat (i `mod` Z.of_nat (length l))))
    as [w' ->]; [lia|done].
Qed.

Lemma circ_roll {A : Type} (d : A) (l : list A) (s i : Z) :
  circ d (np.roll l s) i = circ d l (i - s).
Proof.
  destruct (decide (length l = 0)) as [Ha|Ha].
  { unfold circ.
    rewrite !lookup_ge_None_2; [done| |rewrite length_roll]; lia. }
  unfold circ. rewrite length_roll.
  rewrite lookup_roll by by apply index_in_range.
  rewrite Z2Nat.id by (apply Z.mod_pos_bound; lia).
  by rewrite Zminus_mod_idemp_l.
Qed.

Lemma item_lookup a (i : nat) w : a !! i = Some w → item a (Z.of_nat i) = w.
Proof. apply circ_lookup. Qed.

Lemma lookup_item a (i : nat) :
  i < length a → a !! i = Some (item a (Z.of_nat i)).
Proof. apply lookup_circ. Qed.

Lemma item_fmap (f : T → T) a (i : Z) :
  length a ≠ 0 → item (f <$> a) i = f (item a i).
Proof. apply circ_fmap. Qed.

Lemma item_zip_with (f : T → T → T) a b (i : Z) :
  length a = length b → length a ≠ 0 →
  item (zip_with f a b) i = f (item a i) (item b i).
Proof. apply circ_zip_with. Qed.

Lemma item_roll a (s i : Z) : item (np.roll a s) i = item a (i - s).
Proof. apply circ_roll. Qed.

Lemma item_scale k a (i : Z) :
  length a ≠ 0 → item (np.scale k a) i = (k * item a i)%sc.
Proof. apply item_fmap. Qed.

Lemma item_negate a (i : Z) :
  length a ≠ 0 → item (np.negate a) i = (- item a i)%sc.
Proof. apply item_fmap. Qed.
End facts.

(** Lengths of numpy expressions. *)
Ltac np_length :=
repeat first
  [ rewrite length_zip_with | rewrite length_scale | rewrite length_negate
  | rewrite length_roll | rewrite length_zeros | rewrite length_insert
  | rewrite length_fmap ];
lia.

(** ** Facts about Wave1D *)

Section wave1d_facts.
Context {T : Type} `{Scalar T}.
Implicit Types u v e r : list T.
Implicit Types w : Wave1D.t T.

Lemma bound_standing_Ok u r :
  Wave1D.bound_standing u = Ok r ↔
  length u ≠ 0 ∧ r = <[length u - 1 := 0%sc]> (<[0 := 0%sc]> u).
Proof.
  unfold Wave1D.bound_standing. case_decide; split.
  - discriminate.
  - by intros [? _].
  - by intros [= <-].
  - by intros [_ ->].
Qed.

Lemma bound_standing_length u r :
  Wave1D.bound_standing u = Ok r → length r = length u ∧ length r ≠ 0.
Proof.
  intros [Hn ->]%bound_standing_Ok. by rewrite !length_insert.
Qed.

Lemma bound_standing_pinned u r :
  Wave1D.bound_standing u = Ok r → pinned r.
Proof.
  intros [Hn ->]%bound_standing_Ok. split.
  - rewrite head_lookup.
    destruct (decide (length u - 1 = 0)) as [->|Hne].
    + apply list_lookup_insert_eq. rewrite length_insert. lia.
    + rewrite list_lookup_insert_ne by done.
      apply list_lookup_insert_eq. lia.
  - rewrite last_lookup, !length_insert.
    replace (Nat.pred (length u)) with (length u - 1) by lia.
    apply list_lookup_insert_eq. rewrite length_insert. lia.
Qed.

Lemma bound_standing_interior u r (i : nat) :
  Wave1D.bound_standing u = Ok r →
  0 < i < length u - 1 → r !! i = u !! i.
Proof.
  intros [Hn ->]%bound_standing_Ok Hi.
  rewrite !list_lookup_insert_ne by lia. done.
Qed.

(** Zeroing the ends of an array whose ends are zero changes nothing. *)
Lemma bound_standing_pinned_id u :
  pinned u → Wave1D.bound_standing u = Ok u.
Proof.
  intros [Hh Hl]. rewrite head_lookup in Hh. rewrite last_lookup in Hl.
  apply bound_standing_Ok. split.
  - apply lookup_lt_Some in Hh. lia.
  - rewrite (list_insert_id u 0) by done.
    rewrite list_insert_id; [done|].
    by replace (length u - 1) with (Nat.pred (length u)) by lia.
Qed.

Lemma pinned_item u :
  pinned u ↔
  length u ≠ 0 ∧ item u 0 = 0%sc ∧ item u (Z.of_nat (length u) - 1) = 0%sc.
Proof.
  unfold pinned. rewrite head_lookup, last_lookup. split.
  - intros [Hh Hl]. pose proof (lookup_lt_Some _ _ _ Hh).
    split; [lia|]. split.
    + by apply (item_lookup u 0).
    + replace (Z.of_nat (length u) - 1)%Z
        with (Z.of_nat (Nat.pred (length u))) by lia.
      by apply item_lookup.
  - intros (Hn & H0 & Hl). split.
    + rewrite (lookup_item u 0) by lia. by rewrite <- H0.
    + rewrite lookup_item by lia. f_equal. rewrite <- Hl. f_equal. lia.
Qed.

Lemma first_time_Ok dt a v u e :
  Wave1D.first_time dt a v u = Ok e ↔
  length v = length u ∧
  e = zip_with add
        (zip_with add (np.scale dt v) (np.scale (1 - a)%sc u))
        (np.scale (half * a)%sc
           (zip_with add (np.roll u 1) (np.roll u (-1)))).
Proof.
  unfold Wave1D.first_time. split.
  - intros (s & [Hs ->]%plus_Ok & (nb & [Hnb ->]%plus_Ok
              & [_ ->]%plus_Ok)%bind_Ok)%bind_Ok.
    by rewrite !length_scale in Hs.
  - intros [Hv ->].
    rewrite plus_same_length by np_length. simpl.
    rewrite plus_same_length by np_length. simpl.
    apply plus_same_length. np_length.
Qed.

Lemma first_time_length dt a v u e :
  Wave1D.first_time dt a v u = Ok e → length e = length u.
Proof. intros [Hv ->]%first_time_Ok. np_length. Qed.

(** The first-time formula, sample by sample, neighbours found with the
    circular index. *)
Lemma first_time_item dt a v u e (i : Z) :
  Wave1D.first_time dt a v u = Ok e → length u ≠ 0 →
  item e i
  = (dt * item v i + (1 - a) * item u i
     + half * a * (item u (i - 1) + item u (i + 1)))%sc.
Proof.
  intros [Hv ->]%first_time_Ok Hn.
  rewrite !item_zip_with, !item_scale, !item_zip_with, !item_roll
    by np_length.
  by replace (i - -1)%Z with (i + 1)%Z by lia.
Qed.

Lemma next_time_Ok a u0 u1 e :
  Wave1D.next_time a u0 u1 = Ok e ↔
  length u0 = length u1 ∧
  e = zip_with add
        (zip_with add (np.negate u0) (np.scale (2 * (1 - a))%sc u1))
        (np.scale a (zip_with add (np.roll u1 1) (np.roll u1 (-1)))).
Proof.
  unfold Wave1D.next_time. split.
  - intros (s & [Hs ->]%plus_Ok & (nb & [Hnb ->]%plus_Ok
              & [_ ->]%plus_Ok)%bind_Ok)%bind_Ok.
    by rewrite length_negate, length_scale in Hs.
  - intros [Hv ->].
    rewrite plus_same_length by np_length. simpl.
    rewrite plus_same_length by np_length. simpl.
    apply plus_same_length. np_length.
Qed.

Lemma next_time_length a u0 u1 e :
  Wave1D.next_time a u0 u1 = Ok e → length e = length u1.
Proof. intros [Hv ->]%next_time_Ok. np_length. Qed.

Lemma init_Ok u_x0 ut_x0 dt L dx c w :
  Wave1D.init u_x0 ut_x0 dt L dx c = Ok w ↔
  ∃ x u0 e u1,
    np.arange 0%sc (L + dx)%sc dx = Ok x ∧
    gtb (c * dt / dx * (c * dt / dx))%sc 1%sc = false ∧
    Wave1D.bound_standing (u_x0 x L) = Ok u0 ∧
    Wave1D.first_time dt (c * dt / dx * (c * dt / dx))%sc (ut_x0 x) u0
    = Ok e ∧
    Wave1D.bound_standing e = Ok u1 ∧
    w = Wave1D.mk x (c * dt / dx * (c * dt / dx))%sc (0 + dt)%sc dt
          u0 u1 (np.zeros (length u1)).
Proof.
  unfold Wave1D.init. split.
  - intros (x & Hx & Hrest)%bind_Ok. simpl in Hrest.
    destruct (gtb _ _) eqn:Hg; [discriminate|].
    apply bind_Ok in Hrest as (u0 & Hu0 & Hrest).
    apply bind_Ok in Hrest as (e & He & Hrest).
    apply bind_Ok in Hrest as (u1 & Hu1 & [= <-]).
    by exists x, u0, e, u1.
  - intros (x & u0 & e & u1 & -> & Hg & Hu0 & He & Hu1 & ->). simpl.
    by rewrite Hg, Hu0; simpl; rewrite He; simpl; rewrite Hu1.
Qed.

Lemma sub_step_Ok w w' :
  Wave1D.sub_step w = Ok w' ↔
  ∃ e r,
    Wave1D.next_time (Wave1D.alpha2 w) (Wave1D.u_tim1 w) (Wave1D.u_ti w)
    = Ok e ∧
    Wave1D.bound_standing e = Ok r ∧
    w' = Wave1D.mk (Wave1D.x w) (Wave1D.alpha2 w)
           (Wave1D.time w + Wave1D.dt w)%sc (Wave1D.dt w)
           (Wave1D.u_ti w) r r.
Proof.
  unfold Wave1D.sub_step. split.
  - intros (e & He & (r & Hr & [= <-])%bind_Ok)%bind_Ok. by exists e, r.
  - intros (e & r & -> & Hr & ->). simpl. by rewrite Hr.
Qed.

Lemma pinned_zeros n : n ≠ 0 → pinned (np.zeros (T:=T) n).
Proof.
  intros Hn. unfold pinned, np.zeros.
  rewrite head_lookup, last_lookup, length_replicate.
  split; apply lookup_replicate_2; lia.
Qed.

Lemma init_shaped u_x0 ut_x0 dt L dx c w :
  Wave1D.init u_x0 ut_x0 dt L dx c = Ok w → shaped w.
Proof.
  intros (x & u0 & e & u1 & _ & _ & Hu0 & He & Hu1 & ->)%init_Ok.
  pose proof (bound_standing_length _ _ Hu0) as [Hl0 Hn0].
  pose proof (bound_standing_length _ _ Hu1) as [Hl1 Hn1].
  pose proof (first_time_length _ _ _ _ _ He) as Hle.
  unfold shaped; simpl. rewrite length_zeros.
  split_and!; [lia|done|..];
    eauto using bound_standing_pinned, pinned_zeros.
Qed.

Lemma pinned_nonempty u : pinned u → length u ≠ 0.
Proof. intros Hp. by apply pinned_item in Hp as [? _]. Qed.

(** A sub-step of a well-shaped state never raises, and leaves a
    well-shaped state. *)
Lemma sub_step_progress w : shaped w → ∃ w', Wave1D.sub_step w = Ok w'.
Proof.
  intros (H01 & _ & _ & Hp & _).
  apply pinned_nonempty in Hp.
  destruct (Wave1D.next_time (Wave1D.alpha2 w) (Wave1D.u_tim1 w)
              (Wave1D.u_ti w)) as [e|] eqn:He; last first.
  { exfalso. revert He.
    by rewrite (proj2 (next_time_Ok _ _ _ _) (conj H01 eq_refl)). }
  pose proof (next_time_length _ _ _ _ He) as Hle.
  eexists. apply sub_step_Ok. exists e. eexists. split; [done|].
  split; [|done]. apply bound_standing_Ok. split; [lia|done].
Qed.

Lemma sub_step_shaped w w' :
  shaped w → Wave1D.sub_step w = Ok w' → shaped w'.
Proof.
  intros (H01 & _ & _ & Hp & _) (e & r & He & Hr & ->)%sub_step_Ok.
  pose proof (next_time_length _ _ _ _ He) as Hle.
  pose proof (bound_standing_length _ _ Hr) as [Hlr _].
  unfold shaped; simpl.
  split_and!; [lia|done|done|..]; eauto using bound_standing_pinned.
Qed.

Lemma for_range_progress n w :
  shaped w → ∃ w', for_range n Wave1D.sub_step w = Ok w'.
Proof.
  apply (for_range_total shaped); eauto using sub_step_progress, sub_step_shaped.
Qed.

Lemma for_range_shaped n w w' :
  shaped w → for_range n Wave1D.sub_step w = Ok w' → shaped w'.
Proof.
  apply (for_range_invariant shaped). eauto using sub_step_shaped.
Qed.

Lemma iteration_Ok steps w w' out :
  Wave1D.iteration steps w = Ok (w', out) ↔
  for_range (Z.to_nat steps) Wave1D.sub_step w = Ok w' ∧
  out = (Wave1D.u_ti w', Wave1D.time w').
Proof.
  unfold Wave1D.iteration. split.
  - by intros (w1 & H1 & [= <- <-])%bind_Ok.
  - intros [-> ->]. done.
Qed.

(** The [k]-th pair yielded is the field and clock found after
    [(k+1) * steps] sub-steps. *)
Lemma pulls_Ok steps n w w' outs :
  pulls (Wave1D.iteration steps) n w = Ok (w', outs) ↔
  for_range (n * Z.to_nat steps) Wave1D.sub_step w = Ok w' ∧
  length outs = n ∧
  ∀ k, k < n →
    ∃ wk, for_range (S k * Z.to_nat steps) Wave1D.sub_step w = Ok wk ∧
          outs !! k = Some (Wave1D.u_ti wk, Wave1D.time wk).
Proof.
  apply (pulls_for_range Wave1D.sub_step
           (λ w1, (Wave1D.u_ti w1, Wave1D.time w1))).
  intros w1 [w2 o]. apply iteration_Ok.
Qed.

Lemma pulls_progress steps n w :
  shaped w → ∃ res, pulls (Wave1D.iteration steps) n w = Ok res.
Proof.
  apply (pulls_total shaped).
  - intros w1 Hw1.
    destruct (for_range_progress (Z.to_nat steps) w1 Hw1) as [w2 H2].
    exists (w2, (Wave1D.u_ti w2, Wave1D.time w2)). by apply iteration_Ok.
  - intros w1 [w2 o] Hw1 [H2 _]%iteration_Ok.
    eapply (for_range_invariant shaped); eauto using sub_step_shaped.
Qed.
End wave1d_facts.

(** ** Facts about 2-D arrays *)

Section np2_facts.
Context {T : Type} `{Scalar T}.
Implicit Types a b r : list (list T).

Lemma rect_shape n m a : rect n m a ↔ np.shape2 a = replicate n m.
Proof.
  unfold rect, np.shape2. split.
  - intros [<- Ha]. induction Ha as [|row a Hrow _ IH]; simpl; [done|].
    f_equal; [done|exact IH].
  - intros Ha. split.
    + apply (f_equal length) in Ha.
      by rewrite length_fmap, length_replicate in Ha.
    + apply Forall_lookup. intros i row Hi.
      apply (f_equal (.!! i)) in Ha. rewrite list_lookup_fmap, Hi in Ha.
      simpl in Ha. symmetry in Ha.
      by apply lookup_replicate in Ha as [-> _].
Qed.

Lemma rect_lookup n m a i row : rect n m a → a !! i = Some row → length row = m.
Proof. intros [_ Ha] Hi. by eapply (proj1 (Forall_lookup _ _) Ha). Qed.

Lemma rect_circ n m a (i : Z) : rect n m a → n ≠ 0 → length (circ [] a i) = m.
Proof.
  intros Ha Hn. unfold circ.
  destruct (lookup_lt_is_Some_2 a (Z.to_nat (i `mod` Z.of_nat (length a))))
    as [row Hrow].
  { apply index_in_range. destruct Ha as [-> _]. done. }
  rewrite Hrow. simpl. by eapply rect_lookup.
Qed.

Lemma plus2_Ok a b r :
  np.plus2 a b = Ok r ↔
  np.shape2 a = np.shape2 b ∧ r = zip_with (zip_with add) a b.
Proof.
  unfold np.plus2. case_decide; split.
  - by intros [= <-].
  - by intros [_ ->].
  - discriminate.
  - by intros [? _].
Qed.

Lemma rect_zip n m a b :
  rect n m a → rect n m b → rect n m (zip_with (zip_with add) a b).
Proof.
  intros [Hna Ha] [Hnb Hb]. split.
  - rewrite length_zip_with. lia.
  - apply Forall_lookup. intros i row.
    rewrite lookup_zip_with.
    destruct (a !! i) as [ra|] eqn:Hra; [|done].
    destruct (b !! i) as [rb|] eqn:Hrb; [|done].
    intros [= <-]. rewrite length_zip_with.
    rewrite (proj1 (Forall_lookup _ _) Ha _ _ Hra).
    rewrite (proj1 (Forall_lookup _ _) Hb _ _ Hrb). lia.
Qed.

(** On an array of a known shape, [+] succeeds exactly on an operand
    of that shape. *)
Lemma plus2_rect n m a b r :
  rect n m a →
  np.plus2 a b = Ok r ↔ rect n m b ∧ r = zip_with (zip_with add) a b.
Proof.
  intros Ha%rect_shape. rewrite plus2_Ok, rect_shape, Ha. split.
  - by intros [<- ->].
  - by intros [-> ->].
Qed.

Lemma rect_fmap n m (f : list T → list T) a :
  (∀ row, length (f row) = length row) → rect n m a → rect n m (f <$> a).
Proof.
  intros Hf [Hn Ha]. split; [by rewrite length_fmap|].
  apply Forall_fmap. apply (Forall_impl _ _ _ Ha).
  intros row Hrow. simpl. by rewrite Hf.
Qed.

Lemma rect_scale2 n m k a : rect n m a → rect n m (np.scale2 k a).
Proof. apply rect_fmap. intros. apply length_scale. Qed.

Lemma rect_scale2_inv n m k a : rect n m (np.scale2 k a) → rect n m a.
Proof.
  rewrite !rect_shape. unfold np.shape2, np.scale2.
  rewrite <- list_fmap_compose. intros <-. apply list_fmap_ext.
  intros ? row _. simpl. by rewrite length_scale.
Qed.

Lemma rect_negate2 n m a : rect n m a → rect n m (np.negate2 a).
Proof. apply rect_fmap. intros. apply length_negate. Qed.

Lemma rect_roll0 n m a s : rect n m a → rect n m (np.roll0 a s).
Proof.
  intros [Hn Ha]. split; [by unfold np.roll0; rewrite length_roll|].
  apply Forall_forall. intros row Hrow%elem_of_rotate.
  by eapply (proj1 (Forall_forall _ _) Ha).
Qed.

Lemma rect_roll1 n m a s : rect n m a → rect n m (np.roll1 a s).
Proof. apply rect_fmap. intros. apply length_roll. Qed.

Lemma rect_zeros2 n m : rect n m (np.zeros2 (T:=T) n m).
Proof.
  split; [apply length_replicate|].
  apply Forall_replicate, length_zeros.
Qed.

(** Samples of 2-D expressions. *)
Lemma item2_zip n m a b (i j : Z) :
  rect n m a → rect n m b → n ≠ 0 → m ≠ 0 →
  item2 (zip_with (zip_with add) a b) i j
  = (item2 a i j + item2 b i j)%sc.
Proof.
  intros Ha Hb Hn Hm. unfold item2.
  rewrite (circ_zip_with _ [] []);
    [|destruct Ha, Hb; lia|destruct Ha; lia].
  apply item_zip_with.
  - by rewrite (rect_circ n m a), (rect_circ n m b).
  - by rewrite (rect_circ n m a).
Qed.

Lemma item2_scale2 n m k a (i j : Z) :
  rect n m a → n ≠ 0 → m ≠ 0 →
  item2 (np.scale2 k a) i j = (k * item2 a i j)%sc.
Proof.
  intros Ha Hn Hm. unfold item2, np.scale2.
  rewrite (circ_fmap _ []) by (destruct Ha; lia).
  apply item_scale. by rewrite (rect_circ n m a).
Qed.

Lemma item2_negate2 n m a (i j : Z) :
  rect n m a → n ≠ 0 → m ≠ 0 →
  item2 (np.negate2 a) i j = (- item2 a i j)%sc.
Proof.
  intros Ha Hn Hm. unfold item2, np.negate2.
  rewrite (circ_fmap _ []) by (destruct Ha; lia).
  apply item_negate. by rewrite (rect_circ n m a).
Qed.

Lemma item2_roll0 a (s i j : Z) :
  item2 (np.roll0 a s) i j = item2 a (i - s) j.
Proof. unfold item2, np.roll0. by rewrite circ_roll. Qed.

Lemma item2_roll1 n m a (s i j : Z) :
  rect n m a → n ≠ 0 →
  item2 (np.roll1 a s) i j = item2 a i (j - s).
Proof.
  intros Ha Hn. unfold item2, np.roll1.
  rewrite (circ_fmap _ []) by (destruct Ha; lia).
  apply item_roll.
Qed.
End np2_facts.

(** Shapes of 2-D numpy expressions. *)
Ltac np_rect :=
repeat first
  [ eassumption | apply rect_zip | apply rect_scale2 | apply rect_negate2
  | apply rect_roll0 | apply rect_roll1 | apply rect_zeros2 ].

(** ** Facts about Wave2D *)

Section wave2d_facts.
Context {T : Type} `{Scalar T}.
Implicit Types a u v e r : list (list T).
Implicit Types w : Wave2D.t T.

Local Abbreviation zip2 := (zip_with (zip_with add)).

Lemma ncols_rect n m a : rect n m a → n ≠ 0 → Wave2D.ncols a = m.
Proof.
  intros [Hn Ha] Hn0. unfold Wave2D.ncols.
  destruct a as [|row a]; [simpl in Hn; lia|]. simpl.
  by inversion Ha.
Qed.

Lemma insert_zeros (m i : nat) : <[i := 0%sc]> (np.zeros (T:=T) m) = np.zeros m.
Proof.
  destruct (decide (i < m)) as [Hi|Hi].
  - apply list_insert_id. by apply lookup_replicate_2.
  - apply list_insert_ge. rewrite length_zeros. lia.
Qed.

Lemma bound_standing_Ok2 n m a r :
  rect n m a →
  Wave2D.bound_standing a = Ok r ↔ n ≠ 0 ∧ m ≠ 0 ∧ r = pin2 n m a.
Proof.
  intros Ha. unfold Wave2D.bound_standing.
  destruct Ha as [Hn Hrows]. rewrite Hn.
  destruct (decide (n = 0)) as [Hn0|Hn0].
  { split; [discriminate|by intros [? _]]. }
  rewrite (ncols_rect n m) by done.
  destruct (decide (m = 0)) as [Hm0|Hm0].
  { split; [discriminate|by intros (_ & ? & _)]. }
  assert ((λ row : list T, <[m - 1 := 0%sc]> row)
            <$> <[n - 1 := np.zeros m]>
                  ((λ row : list T, <[0 := 0%sc]> row)
                     <$> <[0 := np.zeros m]> a)
          = pin2 n m a) as ->.
  2: { split; [by intros [= <-]|by intros (_ & _ & ->)]. }
  apply list_eq. intros i. unfold pin2.
  rewrite list_lookup_fmap, list_lookup_insert, list_lookup_fmap,
    list_lookup_insert, list_lookup_imap, length_fmap, length_insert, Hn.
  destruct (a !! i) as [row|] eqn:Hrow.
  - pose proof (lookup_lt_Some _ _ _ Hrow).
    repeat case_decide; simpl; rewrite ?insert_zeros; try done; lia.
  - pose proof (proj1 (lookup_ge_None _ _) Hrow).
    repeat case_decide; simpl; try done; lia.
Qed.

Lemma rect_pin2 n m a : rect n m a → rect n m (pin2 n m a).
Proof.
  intros [Hn Ha]. split; [by unfold pin2; rewrite length_imap|].
  apply Forall_lookup. intros i row. unfold pin2.
  rewrite list_lookup_imap.
  destruct (a !! i) as [row'|] eqn:Hrow; [|done].
  intros [= <-]. case_decide; [apply length_zeros|].
  rewrite !length_insert. by eapply (proj1 (Forall_lookup _ _) Ha).
Qed.

Lemma pinned_ends (m : nat) (row : list T) :
  length row = m → m ≠ 0 → pinned (<[m - 1 := 0%sc]> (<[0 := 0%sc]> row)).
Proof.
  intros <- Hm. apply (bound_standing_pinned row).
  by apply bound_standing_Ok.
Qed.

Lemma pinned2_pin2 n m a :
  rect n m a → n ≠ 0 → m ≠ 0 → pinned2 (pin2 n m a).
Proof.
  intros Ha Hn Hm. pose proof Ha as [Hlen Hrows].
  assert (Forall (λ v : T, v = 0%sc) (np.zeros m)) as Hz
    by (apply Forall_replicate; done).
  unfold pinned2. split_and!.
  - exists (np.zeros m). split; [|done].
    rewrite head_lookup. unfold pin2. rewrite list_lookup_imap.
    destruct (lookup_lt_is_Some_2 a 0) as [row ->]; [lia|].
    cbn. by rewrite decide_True by auto.
  - exists (np.zeros m). split; [|done].
    rewrite last_lookup. unfold pin2.
    rewrite list_lookup_imap, length_imap.
    destruct (lookup_lt_is_Some_2 a (Nat.pred (length a))) as [row ->];
      [lia|].
    cbn. rewrite decide_True by lia. done.
  - apply Forall_lookup. intros i row. unfold pin2.
    rewrite list_lookup_imap.
    destruct (a !! i) as [row'|] eqn:Hrow; [|done].
    intros [= <-]. case_decide; [by apply pinned_zeros|].
    apply pinned_ends; [|done]. by eapply rect_lookup.
Qed.

Lemma neighbours_Ok n m u r :
  rect n m u →
  Wave2D.neighbours u = Ok r ↔
  r = zip2 (zip2 (zip2 (np.roll0 u 1) (np.roll0 u (-1))) (np.roll1 u 1))
           (np.roll1 u (-1)).
Proof.
  intros Hu. unfold Wave2D.neighbours.
  pose proof (rect_roll0 n m u 1 Hu) as H1.
  pose proof (rect_roll0 n m u (-1) Hu) as H2.
  pose proof (rect_roll1 n m u 1 Hu) as H3.
  pose proof (rect_roll1 n m u (-1) Hu) as H4.
  rewrite (proj2 (plus2_rect n m _ _ _ H1) (conj H2 eq_refl)).
  cbn [bind].
  rewrite (proj2 (plus2_rect n m _ _ _ (rect_zip _ _ _ _ H1 H2))
             (conj H3 eq_refl)).
  cbn [bind].
  rewrite (plus2_rect n m) by np_rect.
  split; [by intros [_ ->]|by intros ->].
Qed.

Lemma neighbours_rect n m u r :
  rect n m u → Wave2D.neighbours u = Ok r → rect n m r.
Proof.
  intros Hu Hr. apply (neighbours_Ok n m) in Hr as ->; [|done].
  np_rect.
Qed.

Lemma neighbours_item2 n m u r (i j : Z) :
  rect n m u → n ≠ 0 → m ≠ 0 → Wave2D.neighbours u = Ok r →
  item2 r i j
  = (item2 u (i - 1) j + item2 u (i + 1) j + item2 u i (j - 1)
     + item2 u i (j + 1))%sc.
Proof.
  intros Hu Hn Hm Hr. apply (neighbours_Ok n m) in Hr as ->; [|done].
  rewrite !(item2_zip n m) by np_rect.
  rewrite !item2_roll0, !(item2_roll1 n m) by done.
  by replace (i - -1)%Z with (i + 1)%Z by lia;
     replace (j - -1)%Z with (j + 1)%Z by lia.
Qed.

Lemma first_time_Ok2 n m dt α v u e :
  rect n m u →
  Wave2D.first_time dt α v u = Ok e ↔
  rect n m v ∧ ∃ nb, Wave2D.neighbours u = Ok nb ∧
    e = zip2 (zip2 (np.scale2 dt v) (np.scale2 (1 - 2 * α)%sc u))
             (np.scale2 (half * α)%sc nb).
Proof.
  intros Hu. unfold Wave2D.first_time.
  destruct (Wave2D.neighbours u) as [nb|] eqn:Hnb; last first.
  { exfalso. revert Hnb.
    by rewrite (proj2 (neighbours_Ok n m u _ Hu) eq_refl). }
  pose proof (neighbours_rect n m u nb Hu Hnb) as Hrnb.
  split.
  - intros (s & Hs & Hrest)%bind_Ok. cbn [bind] in Hrest.
    rewrite plus2_Ok in Hs. destruct Hs as [Hs ->].
    apply plus2_Ok in Hrest as [_ ->].
    split; [|by exists nb].
    apply (rect_scale2_inv n m dt), rect_shape.
    rewrite Hs. by apply rect_shape, rect_scale2.
  - intros (Hv & nb' & [= <-] & ->).
    rewrite (proj2 (plus2_rect n m _ _ _ (rect_scale2 _ _ dt _ Hv))
               (conj (rect_scale2 _ _ _ _ Hu) eq_refl)).
    cbn [bind]. apply (plus2_rect n m); [|split; [|done]]; np_rect.
Qed.

Lemma first_time_rect n m dt α v u e :
  rect n m u → Wave2D.first_time dt α v u = Ok e → rect n m e.
Proof.
  intros Hu (Hv & nb & Hnb & ->)%(first_time_Ok2 n m); [|done].
  pose proof (neighbours_rect n m u nb Hu Hnb). np_rect.
Qed.

(** The first-time formula, sample by sample. *)
Lemma first_time_item2 n m dt α v u e (i j : Z) :
  rect n m u → n ≠ 0 → m ≠ 0 → Wave2D.first_time dt α v u = Ok e →
  item2 e i j
  = (dt * item2 v i j + (1 - 2 * α) * item2 u i j
     + half * α * (item2 u (i - 1) j + item2 u (i + 1) j
                   + item2 u i (j - 1) + item2 u i (j + 1)))%sc.
Proof.
  intros Hu Hn Hm (Hv & nb & Hnb & ->)%(first_time_Ok2 n m); [|done].
  pose proof (neighbours_rect n m u nb Hu Hnb) as Hrnb.
  rewrite !(item2_zip n m), !(item2_scale2 n m) by np_rect.
  by rewrite (neighbours_item2 n m u nb).
Qed.

Lemma next_time_Ok2 n m α u0 u1 e :
  rect n m u1 →
  Wave2D.next_time α u0 u1 = Ok e ↔
  rect n m u0 ∧ ∃ nb, Wave2D.neighbours u1 = Ok nb ∧
    e = zip2 (zip2 (np.negate2 u0) (np.scale2 (2 * (1 - 2 * α))%sc u1))
             (np.scale2 α nb).
Proof.
  intros Hu. unfold Wave2D.next_time.
  destruct (Wave2D.neighbours u1) as [nb|] eqn:Hnb; last first.
  { exfalso. revert Hnb.
    by rewrite (proj2 (neighbours_Ok n m u1 _ Hu) eq_refl). }
  pose proof (neighbours_rect n m u1 nb Hu Hnb) as Hrnb.
  split.
  - intros (s & Hs & Hrest)%bind_Ok. cbn [bind] in Hrest.
    rewrite plus2_Ok in Hs. destruct Hs as [Hs ->].
    apply plus2_Ok in Hrest as [_ ->].
    split; [|by exists nb].
    apply rect_shape. apply (rect_scale2 n m (2 * (1 - 2 * α))%sc) in Hu.
    apply rect_shape in Hu. rewrite <- Hu, <- Hs.
    unfold np.shape2, np.negate2. rewrite <- list_fmap_compose.
    apply list_fmap_ext. intros ? row _. simpl. by rewrite length_negate.
  - intros (Hv & nb' & [= <-] & ->).
    rewrite (proj2 (plus2_rect n m _ _ _ (rect_negate2 _ _ _ Hv))
               (conj (rect_scale2 _ _ _ _ Hu) eq_refl)).
    cbn [bind]. apply (plus2_rect n m); [|split; [|done]]; np_rect.
Qed.

Lemma next_time_rect n m α u0 u1 e :
  rect n m u1 → Wave2D.next_time α u0 u1 = Ok e → rect n m e.
Proof.
  intros Hu (Hv & nb & Hnb & ->)%(next_time_Ok2 n m); [|done].
  pose proof (neighbours_rect n m u1 nb Hu Hnb). np_rect.
Qed.

(** The advance formula, sample by sample. *)
Lemma next_time_item2 n m α u0 u1 e (i j : Z) :
  rect n m u1 → n ≠ 0 → m ≠ 0 → Wave2D.next_time α u0 u1 = Ok e →
  item2 e i j
  = (- item2 u0 i j + 2 * (1 - 2 * α) * item2 u1 i j
     + α * (item2 u1 (i - 1) j + item2 u1 (i + 1) j
            + item2 u1 i (j - 1) + item2 u1 i (j + 1)))%sc.
Proof.
  intros Hu Hn Hm (Hv & nb & Hnb & ->)%(next_time_Ok2 n m); [|done].
  pose proof (neighbours_rect n m u1 nb Hu Hnb) as Hrnb.
  rewrite !(item2_zip n m), (item2_negate2 n m), !(item2_scale2 n m)
    by np_rect.
  by rewrite (neighbours_item2 n m u1 nb).
Qed.
Lemma init_Ok2 u_xy0 ut_xy0 Lx Ly dt dxy c w :
  Wave2D.init u_xy0 ut_xy0 Lx Ly dt dxy c = Ok w ↔
  ∃ x y u0 e u1,
    np.arange 0%sc (Lx + dxy)%sc dxy = Ok x ∧
    np.arange 0%sc (Ly + dxy)%sc dxy = Ok y ∧
    gtb (c * dt / dxy * (c * dt / dxy))%sc half = false ∧
    Wave2D.bound_standing (u_xy0 x y Lx Ly) = Ok u0 ∧
    Wave2D.first_time dt (c * dt / dxy * (c * dt / dxy))%sc (ut_xy0 x y) u0
    = Ok e ∧
    Wave2D.bound_standing e = Ok u1 ∧
    w = Wave2D.mk x y (c * dt / dxy * (c * dt / dxy))%sc (0 + dt)%sc dt
          u0 u1 (np.zeros2 (length u1) (Wave2D.ncols u1)).
Proof.
  unfold Wave2D.init. split.
  - intros (x & Hx & (y & Hy & Hrest)%bind_Ok)%bind_Ok. simpl in Hrest.
    destruct (gtb _ _) eqn:Hg; [discriminate|].
    apply bind_Ok in Hrest as (u0 & Hu0 & Hrest).
    apply bind_Ok in Hrest as (e & He & Hrest).
    apply bind_Ok in Hrest as (u1 & Hu1 & [= <-]).
    by exists x, y, u0, e, u1.
  - intros (x & y & u0 & e & u1 & -> & -> & Hg & Hu0 & He & Hu1 & ->).
    simpl. by rewrite Hg, Hu0; simpl; rewrite He; simpl; rewrite Hu1.
Qed.

Lemma sub_step_Ok2 w w' :
  Wave2D.sub_step w = Ok w' ↔
  ∃ e r,
    Wave2D.next_time (Wave2D.alpha2 w) (Wave2D.u_tim1 w) (Wave2D.u_ti w)
    = Ok e ∧
    Wave2D.bound_standing e = Ok r ∧
    w' = Wave2D.mk (Wave2D.x w) (Wave2D.y w) (Wave2D.alpha2 w)
           (Wave2D.time w + Wave2D.dt w)%sc (Wave2D.dt w)
           (Wave2D.u_ti w) r r.
Proof.
  unfold Wave2D.sub_step. split.
  - intros (e & He & (r & Hr & [= <-])%bind_Ok)%bind_Ok. by exists e, r.
  - intros (e & r & -> & Hr & ->). simpl. by rewrite Hr.
Qed.

Lemma pinned2_zeros2 n m : n ≠ 0 → m ≠ 0 → pinned2 (np.zeros2 (T:=T) n m).
Proof.
  intros Hn Hm.
  assert (Forall (λ v : T, v = 0%sc) (np.zeros m)) as Hz
    by (apply Forall_replicate; done).
  unfold pinned2, np.zeros2. split_and!.
  - exists (np.zeros m). split; [|done].
    rewrite head_lookup. apply lookup_replicate_2. lia.
  - exists (np.zeros m). split; [|done].
    rewrite last_lookup, length_replicate. apply lookup_replicate_2. lia.
  - apply Forall_replicate. by apply pinned_zeros.
Qed.

(** A stepper built from a rectangular initial field is well shaped. *)
Lemma init_shaped2 n m u_xy0 ut_xy0 Lx Ly dt dxy c w :
  Wave2D.init u_xy0 ut_xy0 Lx Ly dt dxy c = Ok w →
  rect n m (u_xy0 (Wave2D.x w) (Wave2D.y w) Lx Ly) →
  shaped2 n m w.
Proof.
  intros (x & y & u0 & e & u1 & _ & _ & _ & Hu0 & He & Hu1 & ->)%init_Ok2.
  simpl. intros Hf.
  apply (bound_standing_Ok2 n m) in Hu0 as (Hn & Hm & ->); [|done].
  pose proof (rect_pin2 n m _ Hf) as Hr0.
  pose proof (first_time_rect n m _ _ _ _ _ Hr0 He) as Hre.
  apply (bound_standing_Ok2 n m) in Hu1 as (_ & _ & ->); [|done].
  pose proof (rect_pin2 n m _ Hre) as Hr1.
  unfold shaped2. simpl.
  rewrite (ncols_rect n m) by done. rewrite (proj1 Hr1).
  split_and!; try done; eauto using rect_zeros2, pinned2_pin2,
    pinned2_zeros2.
Qed.


Lemma sub_step_shaped2 n m w w' :
  shaped2 n m w → Wave2D.sub_step w = Ok w' → shaped2 n m w'.
Proof.
  intros (Hn & Hm & H0 & H1 & _ & _ & Hp1 & _)
         (e & r & He & Hr & ->)%sub_step_Ok2.
  pose proof (next_time_rect n m _ _ _ _ H1 He) as Hre.
  apply (bound_standing_Ok2 n m) in Hr as (_ & _ & ->); [|done].
  unfold shaped2. simpl.
  split_and!; try done; eauto using rect_pin2, pinned2_pin2.
Qed.


Lemma for_range_shaped2 n m k w w' :
  shaped2 n m w → for_range k Wave2D.sub_step w = Ok w' → shaped2 n m w'.
Proof.
  apply (for_range_invariant (shaped2 n m)).
  eauto using sub_step_shaped2.
Qed.

Lemma iteration_Ok2 steps w w' out :
  Wave2D.iteration steps w = Ok (w', out) ↔
  for_range (Z.to_nat steps) Wave2D.sub_step w = Ok w' ∧
  out = (Wave2D.u_ti w', Wave2D.time w').
Proof.
  unfold Wave2D.iteration. split.
  - by intros (w1 & H1 & [= <- <-])%bind_Ok.
  - intros [-> ->]. done.
Qed.

Lemma pulls_Ok2 steps n w w' outs :
  pulls (Wave2D.iteration steps) n w = Ok (w', outs) ↔
  for_range (n * Z.to_nat steps) Wave2D.sub_step w = Ok w' ∧
  length outs = n ∧
  ∀ k, k < n →
    ∃ wk, for_range (S k * Z.to_nat steps) Wave2D.sub_step w = Ok wk ∧
          outs !! k = Some (Wave2D.u_ti wk, Wave2D.time wk).
Proof.
  apply (pulls_for_range Wave2D.sub_step
           (λ w1, (Wave2D.u_ti w1, Wave2D.time w1))).
  intros w1 [w2 o]. apply iteration_Ok2.
Qed.

End wave2d_facts.

(** * The claims *)

(** Name the value an expression evaluates to. *)
Tactic Notation "evaluated" constr(e) "as" ident(H) :=
  let r := eval vm_compute in e in
  assert (e = r) as H by (vm_compute; reflexivity).

Section advance.
Context {T : Type} `{Scalar T}.

Lemma bound_standing_reset (e r : list T) :
  Wave1D.bound_standing e = Ok r → reset e r.
Proof.
  intros Hr. pose proof (bound_standing_length _ _ Hr) as [? _].
  split_and!; [done|by eapply bound_standing_pinned|].
  intros i Hi. by apply bound_standing_interior.
Qed.



End advance.



Section boundary.
Context {T : Type} `{Scalar T}.

Lemma shaped_pinned (w : Wave1D.t T) :
  shaped w →
  pinned (Wave1D.u_tim1 w) ∧ pinned (Wave1D.u_ti w) ∧
  pinned (Wave1D.u_tip1 w).
Proof. by intros (_ & _ & ? & ? & ?). Qed.

Lemma shaped2_pinned2 n m (w : Wave2D.t T) :
  shaped2 n m w →
  pinned2 (Wave2D.u_tim1 w) ∧ pinned2 (Wave2D.u_ti w) ∧
  pinned2 (Wave2D.u_tip1 w).
Proof. by intros (_ & _ & _ & _ & _ & ? & ? & ?). Qed.

(** Every field a 1-D generator yields comes from a well-shaped state. *)
Lemma pulls_shaped steps n (w w' : Wave1D.t T) outs :
  shaped w → pulls (Wave1D.iteration steps) n w = Ok (w', outs) →
  Forall (λ o, ∃ wk, shaped wk ∧ o = (Wave1D.u_ti wk, Wave1D.time wk)) outs.
Proof.
  intros Hw (_ & Hlen & Hk)%pulls_Ok. apply Forall_lookup. intros i o Hi.
  destruct (Hk i) as (wk & Hwk & Ho).
  { rewrite <- Hlen. by eapply lookup_lt_Some. }
  exists wk. split; [by eapply for_range_shaped|congruence].
Qed.

Lemma pulls_shaped2 k m steps n (w w' : Wave2D.t T) outs :
  shaped2 k m w → pulls (Wave2D.iteration steps) n w = Ok (w', outs) →
  Forall (λ o, ∃ wk, shaped2 k m wk ∧
                     o = (Wave2D.u_ti wk, Wave2D.time wk)) outs.
Proof.
  intros Hw (_ & Hlen & Hk)%pulls_Ok2. apply Forall_lookup. intros i o Hi.
  destruct (Hk i) as (wk & Hwk & Ho).
  { rewrite <- Hlen. by eapply lookup_lt_Some. }
  exists wk. split; [by eapply for_range_shaped2|congruence].
Qed.
End boundary.

(** C2.  In every snapshot a stepper holds or yields the first and last
    sample along every axis are 0: the two bootstrap levels, the three
    levels after any number of sub-steps, and every field the generator
    yields, for any [steps]. *)
Theorem boundary_invariant (T : Type) (Sc : Scalar T) :
  (∀ u_x0 ut_x0 dt L dx c (w0 : Wave1D.t T),
     Wave1D.init u_x0 ut_x0 dt L dx c = Ok w0 →
     (pinned (Wave1D.u_tim1 w0) ∧ pinned (Wave1D.u_ti w0)) ∧
     (∀ k w, for_range k Wave1D.sub_step w0 = Ok w →
        pinned (Wave1D.u_tim1 w) ∧ pinned (Wave1D.u_ti w) ∧
        pinned (Wave1D.u_tip1 w)) ∧
     (∀ steps n w outs,
        pulls (Wave1D.iteration steps) n w0 = Ok (w, outs) →
        Forall (λ o, pinned o.1) outs)) ∧
  (∀ u_xy0 ut_xy0 Lx Ly dt dxy c (w0 : Wave2D.t T) (n m : nat),
     Wave2D.init u_xy0 ut_xy0 Lx Ly dt dxy c = Ok w0 →
     rect n m (u_xy0 (Wave2D.x w0) (Wave2D.y w0) Lx Ly) →
     (pinned2 (Wave2D.u_tim1 w0) ∧ pinned2 (Wave2D.u_ti w0)) ∧
     (∀ k w, for_range k Wave2D.sub_step w0 = Ok w →
        pinned2 (Wave2D.u_tim1 w) ∧ pinned2 (Wave2D.u_ti w) ∧
        pinned2 (Wave2D.u_tip1 w)) ∧
     (∀ steps k w outs,
        pulls (Wave2D.iteration steps) k w0 = Ok (w, outs) →
        Forall (λ o, pinned2 o.1) outs)).
Proof.
  split.
  - intros u_x0 ut_x0 dt L dx c w0 Hw0%init_shaped. split_and!.
    + by apply shaped_pinned.
    + by apply shaped_pinned.
    + intros k w Hw. eapply shaped_pinned, for_range_shaped; eauto.
    + intros steps n w outs Hp.
      pose proof (pulls_shaped _ _ _ _ _ Hw0 Hp) as HF.
      apply (Forall_impl _ _ _ HF).
      intros o (wk & Hwk & ->). by apply shaped_pinned.
  - intros u_xy0 ut_xy0 Lx Ly dt dxy c w0 n m Hinit Hf.
    pose proof (init_shaped2 _ _ _ _ _ _ _ _ _ _ Hinit Hf) as Hw0.
    split_and!.
    + by eapply shaped2_pinned2.
    + by eapply shaped2_pinned2.
    + intros k w Hw. eapply shaped2_pinned2, for_range_shaped2; eauto.
    + intros steps k w outs Hp.
      pose proof (pulls_shaped2 _ _ _ _ _ _ _ Hw0 Hp) as HF.
      apply (Forall_impl _ _ _ HF).
      intros o (wk & Hwk & ->). by eapply shaped2_pinned2.
Qed.

Lemma boundary_invariant_witness :
  (∃ w0 : Wave1D.t float,
     Wave1D.init pulse_square1d init_vel1d 0.5%float 4%float 1%float 1%float
     = Ok w0 ∧
     ((pinned (Wave1D.u_tim1 w0) ∧ pinned (Wave1D.u_ti w0)) ∧
      (∀ k w, for_range k Wave1D.sub_step w0 = Ok w →
         pinned (Wave1D.u_tim1 w) ∧ pinned (Wave1D.u_ti w) ∧
         pinned (Wave1D.u_tip1 w)) ∧
      (∀ steps n w outs,
         pulls (Wave1D.iteration steps) n w0 = Ok (w, outs) →
         Forall (λ o, pinned o.1) outs))) ∧
  (∃ w0 : Wave2D.t float,
     Wave2D.init wave_polynomial2d init_vel2d 1%float 1%float 0.25%float
       0.5%float 1%float = Ok w0 ∧
     rect 3 3 (wave_polynomial2d (Wave2D.x w0) (Wave2D.y w0) 1%float 1%float) ∧
     ((pinned2 (Wave2D.u_tim1 w0) ∧ pinned2 (Wave2D.u_ti w0)) ∧
      (∀ k w, for_range k Wave2D.sub_step w0 = Ok w →
         pinned2 (Wave2D.u_tim1 w) ∧ pinned2 (Wave2D.u_ti w) ∧
         pinned2 (Wave2D.u_tip1 w)) ∧
      (∀ steps k w outs,
         pulls (Wave2D.iteration steps) k w0 = Ok (w, outs) →
         Forall (λ o, pinned2 o.1) outs))).
Proof.
  split.
  - eexists. split; [vm_compute; reflexivity|].
    eapply (proj1 (boundary_invariant float float_scalar)
              pulse_square1d init_vel1d 0.5%float 4%float 1%float 1%float).
    vm_compute; reflexivity.
  - eexists. split; [vm_compute; reflexivity|].
    split; [split; [reflexivity|repeat constructor]|].
    eapply (proj2 (boundary_invariant float float_scalar)
              wave_polynomial2d init_vel2d 1%float 1%float 0.25%float
              0.5%float 1%float _ 3 3);
      [vm_compute; reflexivity|split; [reflexivity|repeat constructor]].
Defined.

Section construction.
Context {T : Type} `{Scalar T}.






End construction.


(** C4.  A 1-D stepper that was constructed holds: [prev], which is
    [f(grid, L)] with its two ends zeroed; [curr], which is
    [dt*g[i] + (1-alpha2)*prev[i] + 0.5*alpha2*(prev[i-1] + prev[i+1])] at
    every index [i], neighbours found circularly (index -1 is the last
    sample, index N the first), with its two ends zeroed; the clock
    [0 + dt]; and [next], a zero array of the shape of [curr]. *)
Theorem bootstrap_formula (T : Type) (Sc : Scalar T)
  u_x0 ut_x0 (dt L dx c : T) (w : Wave1D.t T) :
  Wave1D.init u_x0 ut_x0 dt L dx c = Ok w →
  np.arange 0%sc (L + dx)%sc dx = Ok (Wave1D.x w) ∧
  Wave1D.alpha2 w = (c * dt / dx * (c * dt / dx))%sc ∧
  Wave1D.dt w = dt ∧
  reset (u_x0 (Wave1D.x w) L) (Wave1D.u_tim1 w) ∧
  (∃ e, bootstrap dt (Wave1D.alpha2 w) (ut_x0 (Wave1D.x w))
          (Wave1D.u_tim1 w) e ∧
        reset e (Wave1D.u_ti w)) ∧
  (∀ u : list T,
     item u (-1) = item u (Z.of_nat (length u) - 1) ∧
     item u (Z.of_nat (length u)) = item u 0) ∧
  Wave1D.time w = (0 + dt)%sc ∧
  Wave1D.u_tip1 w = np.zeros (length (Wave1D.u_ti w)).
Proof.
  intros (x & u0 & e & u1 & Hx & Hg & Hu0 & He & Hu1 & ->)%init_Ok. simpl.
  pose proof (bound_standing_length _ _ Hu0) as [Hl0 Hn0].
  split_and!; try done.
  - by apply bound_standing_reset.
  - exists e. split; [|by apply bound_standing_reset].
    split; [by eapply first_time_length|].
    intros i. apply first_time_item; [done|lia].
  - intros u. unfold item, circ. split.
    + replace (Z.of_nat (length u) - 1)%Z
        with (-1 + 1 * Z.of_nat (length u))%Z by lia.
      by rewrite Z_mod_plus_full.
    + by rewrite Z_mod_same_full, Zmod_0_l.
Qed.

Lemma bootstrap_formula_witness :
  ∃ w : Wave1D.t float,
    Wave1D.init pulse_square1d init_vel1d 0.5%float 4%float 1%float 1%float
    = Ok w ∧
    np.arange 0%sc (4 + 1)%float 1%float = Ok (Wave1D.x w) ∧
    Wave1D.alpha2 w = (1 * 0.5 / 1 * (1 * 0.5 / 1))%float ∧
    Wave1D.dt w = 0.5%float ∧
    reset (pulse_square1d (Wave1D.x w) 4%float) (Wave1D.u_tim1 w) ∧
    (∃ e, bootstrap 0.5%float (Wave1D.alpha2 w) (init_vel1d (Wave1D.x w))
            (Wave1D.u_tim1 w) e ∧
          reset e (Wave1D.u_ti w)) ∧
    (∀ u : list float,
       item u (-1) = item u (Z.of_nat (length u) - 1) ∧
       item u (Z.of_nat (length u)) = item u 0) ∧
    Wave1D.time w = (0 + 0.5)%float ∧
    Wave1D.u_tip1 w = np.zeros (length (Wave1D.u_ti w)).
Proof.
  evaluated (Wave1D.init (T:=float) pulse_square1d init_vel1d 0.5%float
               4%float 1%float 1%float) as X.
  eexists. split; [exact X|].
  exact (bootstrap_formula float float_scalar _ _ _ _ _ _ _ X).
Defined.

Section padded_facts.
Context {T : Type} `{Scalar T}.
Implicit Types e u v : list T.

Lemma length_shift {A : Type} (d : A) (a : list A) s :
  length (Padded.shift d a s) = length a.
Proof. unfold Padded.shift. by rewrite length_fmap, length_seq. Qed.

Lemma lookup_shift {A : Type} (d : A) (a : list A) s (i : nat) :
  i < length a →
  Padded.shift d a s !! i = Some (Padded.get d a (Z.of_nat i - s)).
Proof.
  intros Hi. unfold Padded.shift.
  by rewrite list_lookup_fmap, lookup_seq_lt.
Qed.

(** Away from the ends a roll by one and a shift by one read the same
    sample. *)
Lemma roll_shift_one {A : Type} (d : A) (a : list A) (s : Z) (i : nat) :
  (s = 1 ∨ s = -1)%Z → 0 < i < length a - 1 →
  np.roll a s !! i = Padded.shift d a s !! i.
Proof.
  intros Hs Hi. rewrite lookup_roll, lookup_shift by lia.
  rewrite Z.mod_small by lia. unfold Padded.get.
  rewrite decide_True by lia.
  destruct (lookup_lt_is_Some_2 a (Z.to_nat (Z.of_nat i - s))) as [w ->];
    [lia|done].
Qed.

Lemma inner_eq_refl e : inner_eq e e.
Proof. by split. Qed.

Lemma inner_eq_roll_shift u (s : Z) :
  (s = 1 ∨ s = -1)%Z → inner_eq (Padded.shift 0%sc u s) (np.roll u s).
Proof.
  intros Hs. split; [by rewrite length_shift, length_roll|].
  intros i Hi. rewrite length_shift in Hi. symmetry.
  by apply roll_shift_one.
Qed.

Lemma inner_eq_zip_with (f : T → T → T) e1 e1' e2 e2' :
  inner_eq e1 e1' → inner_eq e2 e2' →
  inner_eq (zip_with f e1 e2) (zip_with f e1' e2').
Proof.
  intros [Hl1 H1] [Hl2 H2]. split; [rewrite !length_zip_with; lia|].
  intros i Hi. rewrite length_zip_with in Hi.
  rewrite !lookup_zip_with, H1, H2 by lia. done.
Qed.

Lemma inner_eq_fmap (f : T → T) e e' :
  inner_eq e e' → inner_eq (f <$> e) (f <$> e').
Proof.
  intros [Hl He]. split; [by rewrite !length_fmap|].
  intros i Hi. rewrite length_fmap in Hi.
  by rewrite !list_lookup_fmap, He.
Qed.

(** The boundary reset makes arrays that agree inside equal. *)
Lemma bound_standing_inner_eq e e' :
  inner_eq e e' → Wave1D.bound_standing e = Wave1D.bound_standing e'.
Proof.
  intros [Hl He]. unfold Wave1D.bound_standing. rewrite <- Hl.
  case_decide; [done|]. f_equal. apply list_eq. intros i.
  rewrite !list_lookup_insert, !length_insert, <- Hl.
  repeat case_decide; try done; try lia.
  destruct (decide (i < length e)) as [Hi|Hi]; [apply He; lia|].
  rewrite !lookup_ge_None_2; [done|lia..].
Qed.

(** A numpy sum of a common array and two arrays that agree inside. *)
Lemma plus_inner_eq u e e' :
  inner_eq e e' →
  (np.plus u e = Raise ValueError ∧ np.plus u e' = Raise ValueError) ∨
  ∃ r r', np.plus u e = Ok r ∧ np.plus u e' = Ok r' ∧ inner_eq r r'.
Proof.
  intros He. pose proof He as [Hl _]. unfold np.plus. rewrite <- Hl.
  case_decide; [right|by left].
  eexists _, _. split_and!; [done..|].
  apply inner_eq_zip_with; [apply inner_eq_refl|done].
Qed.

Lemma padded_first_time dt α v u :
  (let* e := Padded.first_time dt α v u in Wave1D.bound_standing e)
  = (let* e := Wave1D.first_time dt α v u in Wave1D.bound_standing e).
Proof.
  unfold Padded.first_time, Wave1D.first_time.
  destruct (np.plus (np.scale dt v) (np.scale (1 - α)%sc u)) as [s|];
    [|done].
  cbn [bind].
  rewrite !plus_same_length by (rewrite ?length_shift; np_length).
  cbn [bind].
  destruct (plus_inner_eq s
              (np.scale (half * α)%sc
                 (zip_with add (Padded.shift 0%sc u 1)
                    (Padded.shift 0%sc u (-1))))
              (np.scale (half * α)%sc
                 (zip_with add (np.roll u 1) (np.roll u (-1)))))
    as [[-> ->]|(r & r' & -> & -> & Hr)]; [|done|].
  - apply inner_eq_fmap, inner_eq_zip_with; apply inner_eq_roll_shift; auto.
  - cbn [bind]. by apply bound_standing_inner_eq.
Qed.

Lemma padded_next_time α u0 u1 :
  (let* e := Padded.next_time α u0 u1 in Wave1D.bound_standing e)
  = (let* e := Wave1D.next_time α u0 u1 in Wave1D.bound_standing e).
Proof.
  unfold Padded.next_time, Wave1D.next_time.
  destruct (np.plus (np.negate u0) (np.scale (2 * (1 - α))%sc u1)) as [s|];
    [|done].
  cbn [bind].
  rewrite !plus_same_length by (rewrite ?length_shift; np_length).
  cbn [bind].
  destruct (plus_inner_eq s
              (np.scale α
                 (zip_with add (Padded.shift 0%sc u1 1)
                    (Padded.shift 0%sc u1 (-1))))
              (np.scale α (zip_with add (np.roll u1 1) (np.roll u1 (-1)))))
    as [[-> ->]|(r & r' & -> & -> & Hr)]; [|done|].
  - apply inner_eq_fmap, inner_eq_zip_with; apply inner_eq_roll_shift; auto.
  - cbn [bind]. by apply bound_standing_inner_eq.
Qed.

Lemma bind_assoc {A B C : Type} (m : result A) (f : A → result B)
  (g : B → result C) :
  bind (bind m f) g = bind m (λ a, bind (f a) g).
Proof. by destruct m. Qed.

Lemma padded_sub_step (w : Wave1D.t T) :
  Padded.sub_step w = Wave1D.sub_step w.
Proof.
  unfold Padded.sub_step, Wave1D.sub_step.
  rewrite <- !(bind_assoc _ Wave1D.bound_standing).
  by rewrite padded_next_time.
Qed.

Lemma padded_init u_x0 ut_x0 (dt L dx c : T) :
  Padded.init u_x0 ut_x0 dt L dx c = Wave1D.init u_x0 ut_x0 dt L dx c.
Proof.
  unfold Padded.init, Wave1D.init.
  destruct (np.arange _ _ _) as [x|]; [|done]. cbn [bind].
  destruct (gtb _ _); [done|].
  destruct (Wave1D.bound_standing (u_x0 x L)) as [u0|]; [|done]. cbn [bind].
  rewrite <- !(bind_assoc _ Wave1D.bound_standing).
  by rewrite padded_first_time.
Qed.
End padded_facts.

Section padded2_facts.
Context {T : Type} `{Scalar T}.
Implicit Types a b e u v : list (list T).

Local Abbreviation zip2 := (zip_with (zip_with add)).
Lemma rect_refl_inner n m e : rect n m e → inner_eq2 n m e e.
Proof. intros He. by split_and!. Qed.

Lemma rect_shift0 n m a s : rect n m a → rect n m (Padded.shift0 a s).
Proof.
  intros Ha. pose proof Ha as [Hn Hrows]. unfold Padded.shift0.
  split; [by rewrite length_shift|].
  apply Forall_lookup. intros i row Hi.
  pose proof (lookup_lt_Some _ _ _ Hi) as Hlt. rewrite length_shift in Hlt.
  rewrite lookup_shift in Hi by done. injection Hi as <-.
  unfold Padded.get. destruct (decide _) as [Hin|Hout].
  - destruct (lookup_lt_is_Some_2 a (Z.to_nat (Z.of_nat i - s))) as [r Hr];
      [lia|].
    rewrite Hr. simpl. by eapply rect_lookup.
  - rewrite length_zeros. apply (ncols_rect n m); [done|lia].
Qed.

Lemma rect_shift1 n m a s : rect n m a → rect n m (Padded.shift1 a s).
Proof. apply rect_fmap. intros. apply length_shift. Qed.

Lemma inner_eq2_shift0 n m a (s : Z) :
  rect n m a → (s = 1 ∨ s = -1)%Z →
  inner_eq2 n m (Padded.shift0 a s) (np.roll0 a s).
Proof.
  intros Ha Hs. split_and!; [by apply rect_shift0|by apply rect_roll0|].
  intros i j Hi Hj. unfold Padded.shift0, np.roll0.
  rewrite (roll_shift_one (np.zeros (Wave2D.ncols a))); [done..|].
  destruct Ha as [-> _]. done.
Qed.

Lemma inner_eq2_shift1 n m a (s : Z) :
  rect n m a → (s = 1 ∨ s = -1)%Z →
  inner_eq2 n m (Padded.shift1 a s) (np.roll1 a s).
Proof.
  intros Ha Hs. split_and!; [by apply rect_shift1|by apply rect_roll1|].
  intros i j Hi Hj. unfold Padded.shift1, np.roll1.
  rewrite !list_lookup_fmap.
  destruct (a !! i) as [row|] eqn:Hrow; [|done]. simpl.
  symmetry. apply roll_shift_one; [done|].
  by rewrite (rect_lookup n m a i row).
Qed.

Lemma inner_eq2_zip n m a a' b b' :
  inner_eq2 n m a a' → inner_eq2 n m b b' →
  inner_eq2 n m (zip2 a b) (zip2 a' b').
Proof.
  intros (Ha & Ha' & Haa) (Hb & Hb' & Hbb).
  split_and!; [by apply rect_zip..|].
  intros i j Hi Hj. specialize (Haa i j Hi Hj). specialize (Hbb i j Hi Hj).
  rewrite !lookup_zip_with.
  destruct (a !! i) as [ra|], (a' !! i) as [ra'|],
    (b !! i) as [rb|], (b' !! i) as [rb'|]; simpl in *;
    rewrite ?lookup_zip_with; try done;
    try (by rewrite Haa, Hbb);
    try (by rewrite Haa; destruct (ra' !! j));
    try (by rewrite <- Haa; destruct (ra !! j));
    try (by rewrite Hbb; destruct (ra !! j));
    try (by rewrite <- Hbb; destruct (ra' !! j)).
Qed.

Lemma inner_eq2_scale2 n m k e e' :
  inner_eq2 n m e e' → inner_eq2 n m (np.scale2 k e) (np.scale2 k e').
Proof.
  intros (He & He' & Hee). split_and!; [by apply rect_scale2..|].
  intros i j Hi Hj. specialize (Hee i j Hi Hj).
  unfold np.scale2. rewrite !list_lookup_fmap.
  destruct (e !! i) as [r|], (e' !! i) as [r'|]; simpl in *;
    unfold np.scale; rewrite ?list_lookup_fmap; try done.
  - by rewrite Hee.
  - by rewrite Hee.
  - by rewrite <- Hee.
Qed.

(** [Wave2D.bound_standing] in closed form on a rectangular array. *)
Lemma bound_standing_rect n m e :
  rect n m e →
  Wave2D.bound_standing e
  = if decide (n = 0) then Raise IndexError
    else if decide (m = 0) then Raise IndexError
    else Ok (pin2 n m e).
Proof.
  intros He.
  destruct (Wave2D.bound_standing e) as [r|err] eqn:Hr.
  - apply (bound_standing_Ok2 n m) in Hr as (Hn & Hm & ->); [|done].
    by rewrite !decide_False.
  - repeat case_decide; try done.
    + revert Hr. unfold Wave2D.bound_standing.
      destruct He as [-> _]. rewrite decide_True by done. congruence.
    + revert Hr. unfold Wave2D.bound_standing.
      rewrite (ncols_rect n m) by done.
      destruct He as [-> _]. rewrite decide_False, decide_True by done.
      congruence.
    + exfalso. revert Hr.
      by rewrite (proj2 (bound_standing_Ok2 n m e _ He)
                    (conj H0 (conj H1 eq_refl))).
Qed.

Lemma pin2_inner_eq2 n m e e' :
  inner_eq2 n m e e' → pin2 n m e = pin2 n m e'.
Proof.
  intros (He & He' & Hee). apply list_eq. intros i. unfold pin2.
  rewrite !list_lookup_imap.
  destruct (decide (i < n)) as [Hi|Hi]; last first.
  { destruct He as [Hn _], He' as [Hn' _].
    rewrite !lookup_ge_None_2; [done|lia..]. }
  destruct (lookup_lt_is_Some_2 e i) as [r Hr]; [destruct He; lia|].
  destruct (lookup_lt_is_Some_2 e' i) as [r' Hr']; [destruct He'; lia|].
  rewrite Hr, Hr'. cbn. f_equal. case_decide; [done|].
  pose proof (rect_lookup _ _ _ _ _ He Hr) as Hm.
  pose proof (rect_lookup _ _ _ _ _ He' Hr') as Hm'.
  apply list_eq. intros j.
  rewrite !list_lookup_insert, !length_insert, Hm, Hm'.
  repeat case_decide; try done; try lia.
  destruct (decide (j < m)) as [Hj|Hj].
  - specialize (Hee i j). rewrite Hr, Hr' in Hee. apply Hee; lia.
  - rewrite !lookup_ge_None_2; [done|lia..].
Qed.

Lemma bound_standing_inner_eq2 n m e e' :
  inner_eq2 n m e e' →
  Wave2D.bound_standing e = Wave2D.bound_standing e'.
Proof.
  intros Hee. pose proof Hee as (He & He' & _).
  rewrite (bound_standing_rect n m e), (bound_standing_rect n m e') by done.
  by rewrite (pin2_inner_eq2 n m e e').
Qed.

Lemma plus2_inner_eq2 n m u e e' :
  inner_eq2 n m e e' →
  (np.plus2 u e = Raise ValueError ∧ np.plus2 u e' = Raise ValueError) ∨
  ∃ r r', np.plus2 u e = Ok r ∧ np.plus2 u e' = Ok r' ∧ inner_eq2 n m r r'.
Proof.
  intros Hee. pose proof Hee as (He%rect_shape & He'%rect_shape & _).
  unfold np.plus2. rewrite He, He'.
  case_decide as Hu; [right|by left].
  apply rect_shape in Hu.
  eexists _, _. split_and!; [done..|].
  apply inner_eq2_zip; [by apply rect_refl_inner|done].
Qed.

Lemma padded_neighbours n m u :
  rect n m u →
  ∃ nb nb', Padded.neighbours u = Ok nb ∧ Wave2D.neighbours u = Ok nb' ∧
            inner_eq2 n m nb nb'.
Proof.
  intros Hu. unfold Padded.neighbours.
  rewrite (proj2 (plus2_rect n m _ _ _ (rect_shift0 _ _ _ 1 Hu))
             (conj (rect_shift0 _ _ _ (-1) Hu) eq_refl)).
  cbn [bind].
  rewrite (proj2 (plus2_rect n m _ (Padded.shift1 u 1) _
                    (rect_zip _ _ _ _ (rect_shift0 _ _ _ 1 Hu)
                       (rect_shift0 _ _ _ (-1) Hu)))
             (conj (rect_shift1 _ _ _ 1 Hu) eq_refl)).
  cbn [bind].
  eexists _, _. split_and!.
  - apply (plus2_rect n m); [|split; [by apply rect_shift1|done]].
    repeat apply rect_zip; auto using rect_shift0, rect_shift1.
  - by apply (neighbours_Ok n m).
  - repeat apply inner_eq2_zip;
      auto using inner_eq2_shift0, inner_eq2_shift1.
Qed.

Lemma padded_first_time2 n m dt α v u :
  rect n m u →
  (let* e := Padded.first_time2 dt α v u in Wave2D.bound_standing e)
  = (let* e := Wave2D.first_time dt α v u in Wave2D.bound_standing e).
Proof.
  intros Hu. unfold Padded.first_time2, Wave2D.first_time.
  destruct (np.plus2 (np.scale2 dt v) (np.scale2 (1 - 2 * α)%sc u)) as [s|];
    [|done].
  cbn [bind].
  destruct (padded_neighbours n m u Hu) as (nb & nb' & -> & -> & Hnb).
  cbn [bind].
  destruct (plus2_inner_eq2 n m s _ _
              (inner_eq2_scale2 n m (half * α)%sc _ _ Hnb))
    as [[-> ->]|(r & r' & -> & -> & Hr)]; [done|].
  cbn [bind]. by apply (bound_standing_inner_eq2 n m).
Qed.

Lemma padded_next_time2 n m α u0 u1 :
  rect n m u1 →
  (let* e := Padded.next_time2 α u0 u1 in Wave2D.bound_standing e)
  = (let* e := Wave2D.next_time α u0 u1 in Wave2D.bound_standing e).
Proof.
  intros Hu. unfold Padded.next_time2, Wave2D.next_time.
  destruct (np.plus2 (np.negate2 u0) (np.scale2 (2 * (1 - 2 * α))%sc u1))
    as [s|]; [|done].
  cbn [bind].
  destruct (padded_neighbours n m u1 Hu) as (nb & nb' & -> & -> & Hnb).
  cbn [bind].
  destruct (plus2_inner_eq2 n m s _ _ (inner_eq2_scale2 n m α _ _ Hnb))
    as [[-> ->]|(r & r' & -> & -> & Hr)]; [done|].
  cbn [bind]. by apply (bound_standing_inner_eq2 n m).
Qed.

Lemma padded_sub_step2 n m (w : Wave2D.t T) :
  rect n m (Wave2D.u_ti w) → Padded.sub_step2 w = Wave2D.sub_step w.
Proof.
  intros Hu. unfold Padded.sub_step2, Wave2D.sub_step.
  rewrite <- !(bind_assoc _ Wave2D.bound_standing).
  by rewrite (padded_next_time2 n m).
Qed.

Lemma padded_init2 u_xy0 ut_xy0 (Lx Ly dt dxy c : T) :
  (∀ x y, ∃ n m, rect n m (u_xy0 x y Lx Ly)) →
  Padded.init2 u_xy0 ut_xy0 Lx Ly dt dxy c
  = Wave2D.init u_xy0 ut_xy0 Lx Ly dt dxy c.
Proof.
  intros Hf. unfold Padded.init2, Wave2D.init.
  destruct (np.arange _ _ _) as [x|]; [|done]. cbn [bind].
  destruct (np.arange _ _ _) as [y|]; [|done]. cbn [bind].
  destruct (gtb _ _); [done|].
  destruct (Hf x y) as (n & m & Hxy).
  destruct (Wave2D.bound_standing (u_xy0 x y Lx Ly)) as [u0|] eqn:Hu0;
    [|done].
  cbn [bind].
  apply (bound_standing_Ok2 n m) in Hu0 as (_ & _ & ->); [|done].
  rewrite <- !(bind_assoc _ Wave2D.bound_standing).
  by rewrite (padded_first_time2 n m) by by apply rect_pin2.
Qed.
End padded2_facts.

(** C5.  Replacing every circular neighbour lookup by a lookup that
    reads 0 outside the domain changes nothing once the boundary is
    reset: the zero-padded steppers construct the same state and make
    the same sub-step as [Wave1D] and [Wave2D], the bootstrap step and
    its second-from-boundary samples included. *)
Theorem wraparound_masked (T : Type) (Sc : Scalar T) :
  (∀ u_x0 ut_x0 (dt L dx c : T),
     Padded.init u_x0 ut_x0 dt L dx c = Wave1D.init u_x0 ut_x0 dt L dx c) ∧
  (∀ w : Wave1D.t T, Padded.sub_step w = Wave1D.sub_step w) ∧
  (∀ u_xy0 ut_xy0 (Lx Ly dt dxy c : T),
     (∀ x y, ∃ n m, rect n m (u_xy0 x y Lx Ly)) →
     Padded.init2 u_xy0 ut_xy0 Lx Ly dt dxy c
     = Wave2D.init u_xy0 ut_xy0 Lx Ly dt dxy c) ∧
  (∀ (w : Wave2D.t T) n m,
     rect n m (Wave2D.u_ti w) → Padded.sub_step2 w = Wave2D.sub_step w).
Proof.
  split_and!.
  - apply padded_init.
  - apply padded_sub_step.
  - apply padded_init2.
  - intros w n m. apply padded_sub_step2.
Qed.

Lemma wraparound_masked_witness :
  (∀ x y : list float,
     ∃ n m, rect n m (wave_polynomial2d x y 1%float 1%float)) ∧
  Padded.init2 wave_polynomial2d init_vel2d 1%float 1%float 0.25%float
    0.5%float 1%float
  = Wave2D.init wave_polynomial2d init_vel2d 1%float 1%float 0.25%float
      0.5%float 1%float ∧
  ∃ w : Wave2D.t float,
    Wave2D.init wave_polynomial2d init_vel2d 1%float 1%float 0.25%float
      0.5%float 1%float = Ok w ∧
    rect 3 3 (Wave2D.u_ti w) ∧ Padded.sub_step2 w = Wave2D.sub_step w.
Proof.
  assert (∀ x y : list float,
            ∃ n m, rect n m (wave_polynomial2d x y 1%float 1%float)) as Hrect.
  { intros x y. exists (length x), (length y). unfold wave_polynomial2d.
    split; [by rewrite length_fmap|].
    apply Forall_fmap, Forall_forall. intros xi _. simpl.
    by rewrite length_fmap. }
  pose proof (wraparound_masked float float_scalar) as (_ & _ & G3 & G4).
  split_and!; [done|by apply G3|].
  eexists. split; [vm_compute; reflexivity|].
  split; [split; [reflexivity|repeat constructor]|].
  apply (G4 _ 3 3). split; [reflexivity|repeat constructor].
Defined.

Section clock.
Context {T : Type} `{Scalar T}.

Lemma sub_step_time (w w' : Wave1D.t T) :
  Wave1D.sub_step w = Ok w' →
  Wave1D.time w' = (Wave1D.time w + Wave1D.dt w)%sc ∧
  Wave1D.dt w' = Wave1D.dt w.
Proof. by intros (e & r & _ & _ & ->)%sub_step_Ok. Qed.

Lemma sub_step_time2 (w w' : Wave2D.t T) :
  Wave2D.sub_step w = Ok w' →
  Wave2D.time w' = (Wave2D.time w + Wave2D.dt w)%sc ∧
  Wave2D.dt w' = Wave2D.dt w.
Proof. by intros (e & r & _ & _ & ->)%sub_step_Ok2. Qed.

(** After [k] sub-steps the clock has had [dt] added [k] times. *)
Lemma for_range_time k (w w' : Wave1D.t T) :
  for_range k Wave1D.sub_step w = Ok w' →
  Wave1D.dt w' = Wave1D.dt w ∧
  Wave1D.time w'
  = Nat.iter k (λ t, (t + Wave1D.dt w)%sc) (Wave1D.time w).
Proof.
  revert w'. induction k as [|k IH]; intros w'.
  - by intros [= <-].
  - rewrite for_range_S. intros (w1 & H1 & Hs)%bind_Ok.
    destruct (IH w1 H1) as [Hdt Ht].
    apply sub_step_time in Hs as [-> ->]. simpl. by rewrite Hdt, Ht.
Qed.

Lemma for_range_time2 k (w w' : Wave2D.t T) :
  for_range k Wave2D.sub_step w = Ok w' →
  Wave2D.dt w' = Wave2D.dt w ∧
  Wave2D.time w'
  = Nat.iter k (λ t, (t + Wave2D.dt w)%sc) (Wave2D.time w).
Proof.
  revert w'. induction k as [|k IH]; intros w'.
  - by intros [= <-].
  - rewrite for_range_S. intros (w1 & H1 & Hs)%bind_Ok.
    destruct (IH w1 H1) as [Hdt Ht].
    apply sub_step_time2 in Hs as [-> ->]. simpl. by rewrite Hdt, Ht.
Qed.

Lemma init_time u_x0 ut_x0 (dt L dx c : T) w :
  Wave1D.init u_x0 ut_x0 dt L dx c = Ok w →
  Wave1D.time w = (0 + dt)%sc ∧ Wave1D.dt w = dt.
Proof. by intros (? & ? & ? & ? & _ & _ & _ & _ & _ & ->)%init_Ok. Qed.

Lemma init_time2 u_xy0 ut_xy0 (Lx Ly dt dxy c : T) w :
  Wave2D.init u_xy0 ut_xy0 Lx Ly dt dxy c = Ok w →
  Wave2D.time w = (0 + dt)%sc ∧ Wave2D.dt w = dt.
Proof.
  by intros (? & ? & ? & ? & ? & _ & _ & _ & _ & _ & _ & ->)%init_Ok2.
Qed.
End clock.

(** In exact arithmetic, adding [dt] [k] times to [0 + dt] gives
    [dt + k*dt]. *)
Lemma Qc_of_int_add (a b : Z) :
  Q2Qc (inject_Z (a + b)) = (Q2Qc (inject_Z a) + Q2Qc (inject_Z b))%Qc.
Proof.
  apply Qc_is_canon. unfold Qcplus. cbn [this Q2Qc]. rewrite !Qred_correct.
  by rewrite inject_Z_plus.
Qed.

Lemma Qc_clock (dt : Qc) (k : nat) :
  Nat.iter k (λ t : Qc, (t + dt)%sc) (0 + dt)%sc
  = (dt + of_int (Z.of_nat k) * dt)%sc.
Proof.
  induction k as [|k IH].
  - change (Q2Qc 0 + dt = dt + Q2Qc 0 * dt)%Qc. ring.
  - rewrite Nat.iter_succ, IH. cbn [add mul of_int Qc_scalar].
    rewrite Nat2Z.inj_succ, <- Z.add_1_r, Qc_of_int_add.
    change (Q2Qc (inject_Z 1)) with 1%Qc. ring.
Qed.

(** In binary64 the same sum is rounded at every addition. *)
Lemma binary64_clock_rounds :
  Nat.iter 9 (λ t : float, (t + 0.1%float)%sc) (0 + 0.1%float)%sc
  = 0.99999999999999989%float ∧
  (0.1%float + of_int 9 * 0.1%float)%sc = 1%float.
Proof. split; reflexivity. Qed.

(** C6.  The clock is [0 + dt] after construction, every sub-step adds
    [dt] to it and a resumption that runs no sub-step leaves it alone, so
    the [k]-th pair yielded carries [0 + dt] with [dt] added
    [(k+1) * steps] times; in exact arithmetic, with [steps = 1], that is
    [dt + (k+1)*dt]. *)
Theorem clock_advance :
  (∀ (T : Type) (Sc : Scalar T) u_x0 ut_x0 (dt L dx c : T) w0,
     Wave1D.init u_x0 ut_x0 dt L dx c = Ok w0 →
     Wave1D.time w0 = (0 + dt)%sc ∧
     (∀ k w w',
        for_range k Wave1D.sub_step w0 = Ok w →
        Wave1D.sub_step w = Ok w' →
        Wave1D.time w' = (Wave1D.time w + dt)%sc) ∧
     (∀ w, Wave1D.iteration 0 w
           = Ok (w, (Wave1D.u_ti w, Wave1D.time w))) ∧
     (∀ steps n w outs,
        pulls (Wave1D.iteration steps) n w0 = Ok (w, outs) →
        ∀ k, k < n →
          snd <$> outs !! k
          = Some (Nat.iter (S k * Z.to_nat steps) (λ t, (t + dt)%sc)
                    (0 + dt)%sc))) ∧
  (∀ (T : Type) (Sc : Scalar T) u_xy0 ut_xy0 (Lx Ly dt dxy c : T) w0,
     Wave2D.init u_xy0 ut_xy0 Lx Ly dt dxy c = Ok w0 →
     Wave2D.time w0 = (0 + dt)%sc ∧
     (∀ k w w',
        for_range k Wave2D.sub_step w0 = Ok w →
        Wave2D.sub_step w = Ok w' →
        Wave2D.time w' = (Wave2D.time w + dt)%sc) ∧
     (∀ w, Wave2D.iteration 0 w
           = Ok (w, (Wave2D.u_ti w, Wave2D.time w))) ∧
     (∀ steps n w outs,
        pulls (Wave2D.iteration steps) n w0 = Ok (w, outs) →
        ∀ k, k < n →
          snd <$> outs !! k
          = Some (Nat.iter (S k * Z.to_nat steps) (λ t, (t + dt)%sc)
                    (0 + dt)%sc))) ∧
  (∀ u_x0 ut_x0 (dt L dx c : Qc) w0 n w outs,
     Wave1D.init u_x0 ut_x0 dt L dx c = Ok w0 →
     pulls (Wave1D.iteration 1) n w0 = Ok (w, outs) →
     ∀ k, k < n →
       snd <$> outs !! k = Some (dt + of_int (Z.of_nat (S k)) * dt)%sc).
Proof.
  assert (∀ (T : Type) (Sc : Scalar T) u_x0 ut_x0 (dt L dx c : T) w0
            steps n w outs k,
    Wave1D.init u_x0 ut_x0 dt L dx c = Ok w0 →
    pulls (Wave1D.iteration steps) n w0 = Ok (w, outs) → k < n →
    snd <$> outs !! k
    = Some (Nat.iter (S k * Z.to_nat steps) (λ t, (t + dt)%sc) (0 + dt)%sc))
    as Hpull.
  { intros T Sc u_x0 ut_x0 dt L dx c w0 steps n w outs k
      [Ht Hdt]%init_time (_ & _ & Hk)%pulls_Ok Hlt.
    destruct (Hk k Hlt) as (wk & Hwk & ->). simpl. f_equal.
    apply for_range_time in Hwk as [_ ->]. by rewrite Ht, Hdt. }
  split_and!.
  - intros T Sc u_x0 ut_x0 dt L dx c w0 Hinit.
    pose proof (init_time _ _ _ _ _ _ _ Hinit) as [Ht Hdt].
    split_and!; [done| |done|by eauto].
    intros k w w' [Hd _]%for_range_time [-> _]%sub_step_time.
    by rewrite Hd, Hdt.
  - intros T Sc u_xy0 ut_xy0 Lx Ly dt dxy c w0 Hinit.
    pose proof (init_time2 _ _ _ _ _ _ _ _ Hinit) as [Ht Hdt].
    split_and!; [done| |done|].
    + intros k w w' [Hd _]%for_range_time2 [-> _]%sub_step_time2.
      by rewrite Hd, Hdt.
    + intros steps n w outs (_ & _ & Hk)%pulls_Ok2 k Hlt.
      destruct (Hk k Hlt) as (wk & Hwk & ->). simpl. f_equal.
      apply for_range_time2 in Hwk as [_ ->]. by rewrite Ht, Hdt.
  - intros u_x0 ut_x0 dt L dx c w0 n w outs Hinit Hp k Hlt.
    rewrite (Hpull _ _ _ _ _ _ _ _ _ _ _ _ _ _ Hinit Hp Hlt).
    change (Z.to_nat 1) with 1. rewrite Nat.mul_1_r. f_equal.
    apply Qc_clock.
Qed.

Lemma clock_advance_witness :
  (∃ w0 : Wave1D.t float,
     Wave1D.init pulse_square1d init_vel1d 0.5%float 4%float 1%float 1%float
     = Ok w0 ∧
     Wave1D.time w0 = (0 + 0.5%float)%sc ∧
     ∀ steps n w outs,
       pulls (Wave1D.iteration steps) n w0 = Ok (w, outs) →
       ∀ k, k < n →
         snd <$> outs !! k
         = Some (Nat.iter (S k * Z.to_nat steps) (λ t, (t + 0.5%float)%sc)
                   (0 + 0.5%float)%sc)) ∧
  (∃ w0 : Wave2D.t float,
     Wave2D.init wave_polynomial2d init_vel2d 1%float 1%float 0.25%float
       0.5%float 1%float = Ok w0 ∧
     Wave2D.time w0 = (0 + 0.25%float)%sc) ∧
  (∃ (w0 w : Wave1D.t Qc) outs,
     Wave1D.init pulse_square1d init_vel1d (Q2Qc (1 # 2)) (Q2Qc 4) (Q2Qc 1)
       (Q2Qc 1) = Ok w0 ∧
     pulls (Wave1D.iteration 1) 2 w0 = Ok (w, outs) ∧
     ∀ k, k < 2 →
       snd <$> outs !! k
       = Some (Q2Qc (1 # 2) + of_int (Z.of_nat (S k)) * Q2Qc (1 # 2))%sc).
Proof.
  pose proof clock_advance as (G1 & G2 & G3).
  evaluated (Wave1D.init (T:=float) pulse_square1d init_vel1d 0.5%float
               4%float 1%float 1%float) as X1.
  evaluated (Wave2D.init (T:=float) wave_polynomial2d init_vel2d 1%float
               1%float 0.25%float 0.5%float 1%float) as X2.
  split_and!.
  - pose proof (G1 float float_scalar _ _ _ _ _ _ _ X1) as (P1 & _ & _ & P4).
    eexists. split; [exact X1|]. split; [exact P1|exact P4].
  - pose proof (G2 float float_scalar _ _ _ _ _ _ _ _ X2) as (P1 & _).
    eexists. split; [exact X2|]. exact P1.
  - eexists _, _, _.
    split; [vm_compute; reflexivity|]. split; [vm_compute; reflexivity|].
    eapply (G3 pulse_square1d init_vel1d (Q2Qc (1 # 2)) (Q2Qc 4) (Q2Qc 1)
              (Q2Qc 1)); vm_compute; reflexivity.
Defined.

Section grid.
Context {T : Type} `{Scalar T}.




End grid.


Lemma Qc_this_plus (a b : Qc) : (this (a + b)%Qc == this a + this b)%Q.
Proof. unfold Qcplus. cbn [this Q2Qc]. apply Qred_correct. Qed.

Lemma Qc_this_mult (a b : Qc) : (this (a * b)%Qc == this a * this b)%Q.
Proof. unfold Qcmult. cbn [this Q2Qc]. apply Qred_correct. Qed.











Section mirror.
Context {T : Type} `{Scalar T}.
Implicit Types u v e : list T.

(** Mirroring a rolled array rolls the mirror image the other way. *)
Lemma reverse_roll {A : Type} (l : list A) (s : Z) :
  reverse (np.roll l s) = np.roll (reverse l) (- s).
Proof.
  apply list_eq. intros i.
  destruct (decide (i < length l)) as [Hi|Hi]; last first.
  { rewrite !lookup_ge_None_2;
      [done|rewrite length_roll, length_reverse|
       rewrite length_reverse, length_roll]; lia. }
  rewrite reverse_lookup by (rewrite length_roll; lia).
  rewrite length_roll, !lookup_roll by (rewrite ?length_reverse; lia).
  rewrite length_reverse.
  rewrite reverse_lookup
    by (pose proof (Z.mod_pos_bound (Z.of_nat i - - s)
                      (Z.of_nat (length l))); lia).
  f_equal.
  pose proof (Z.mod_pos_bound (Z.of_nat i - - s) (Z.of_nat (length l)))
    as Hr.
  pose proof (Z.div_mod (Z.of_nat i - - s) (Z.of_nat (length l))) as Hd.
  assert ((Z.of_nat (length l - S i) - s) `mod` Z.of_nat (length l)
          = Z.of_nat (length l) - 1
            - (Z.of_nat i - - s) `mod` Z.of_nat (length l))%Z as ->; [|lia].
  symmetry.
  apply (Z.mod_unique _ _
           (- ((Z.of_nat i - - s) `div` Z.of_nat (length l)))%Z); lia.
Qed.

Lemma reverse_zip_with (f : T → T → T) u v :
  length u = length v →
  reverse (zip_with f u v) = zip_with f (reverse u) (reverse v).
Proof.
  intros Hl. apply list_eq. intros i.
  destruct (decide (i < length u)) as [Hi|Hi]; last first.
  { rewrite !lookup_ge_None_2;
      [done|rewrite length_zip_with, !length_reverse|
       rewrite length_reverse, length_zip_with]; lia. }
  rewrite reverse_lookup by (rewrite length_zip_with; lia).
  rewrite !lookup_zip_with, length_zip_with, !reverse_lookup by lia.
  by rewrite <- Hl, Nat.min_id.
Qed.

Lemma symmetric_bound_standing u r :
  symmetric u → Wave1D.bound_standing u = Ok r → symmetric r.
Proof.
  unfold symmetric. intros Hu [Hn ->]%bound_standing_Ok.
  apply list_eq. intros i.
  destruct (decide (i < length u)) as [Hi|Hi]; last first.
  { rewrite !lookup_ge_None_2;
      [done|rewrite ?length_reverse, !length_insert..]; lia. }
  rewrite reverse_lookup by (rewrite !length_insert; lia).
  rewrite !length_insert, !list_lookup_insert, !length_insert.
  apply (f_equal (.!! i)) in Hu. rewrite reverse_lookup in Hu by lia.
  repeat case_decide; try done; lia.
Qed.

Lemma symmetric_zeros n : symmetric (np.zeros (T:=T) n).
Proof. apply reverse_replicate. Qed.

Lemma symmetric_zip_with (f : T → T → T) u v :
  length u = length v → symmetric u → symmetric v →
  symmetric (zip_with f u v).
Proof.
  unfold symmetric. intros Hl Hu Hv. by rewrite reverse_zip_with, Hu, Hv.
Qed.

Lemma symmetric_fmap (f : T → T) u : symmetric u → symmetric (f <$> u).
Proof. unfold symmetric. intros Hu. by rewrite <- fmap_reverse, Hu. Qed.
End mirror.

Section symmetry.
Context {T : Type} `{Scalar T}.
Hypothesis add_comm : ∀ a b : T, (a + b)%sc = (b + a)%sc.
Implicit Types u v e : list T.

Lemma zip_with_add_comm u v : zip_with add u v = zip_with add v u.
Proof.
  revert v. induction u as [|a u IH]; intros [|b v]; simpl; [done..|].
  by rewrite add_comm, IH.
Qed.

Lemma symmetric_neighbours u :
  symmetric u → symmetric (zip_with add (np.roll u 1) (np.roll u (-1))).
Proof.
  unfold symmetric. intros Hu.
  rewrite reverse_zip_with, !reverse_roll, Hu by by rewrite !length_roll.
  apply zip_with_add_comm.
Qed.

Lemma symmetric_first_time dt α v u e :
  symmetric v → symmetric u →
  Wave1D.first_time dt α v u = Ok e → symmetric e.
Proof.
  intros Hv Hu [Hl ->]%first_time_Ok. unfold np.scale.
  apply symmetric_zip_with; [unfold np.scale; np_length| |].
  - apply symmetric_zip_with; [np_length|by apply symmetric_fmap..].
  - by apply symmetric_fmap, symmetric_neighbours.
Qed.

Lemma symmetric_next_time α u0 u1 e :
  symmetric u0 → symmetric u1 →
  Wave1D.next_time α u0 u1 = Ok e → symmetric e.
Proof.
  intros H0 H1 [Hl ->]%next_time_Ok. unfold np.scale, np.negate.
  apply symmetric_zip_with; [unfold np.scale, np.negate; np_length| |].
  - apply symmetric_zip_with; [np_length|by apply symmetric_fmap..].
  - by apply symmetric_fmap, symmetric_neighbours.
Qed.

Lemma symmetric_sub_step (w w' : Wave1D.t T) :
  symmetric (Wave1D.u_tim1 w) ∧ symmetric (Wave1D.u_ti w) →
  Wave1D.sub_step w = Ok w' →
  symmetric (Wave1D.u_tim1 w') ∧ symmetric (Wave1D.u_ti w').
Proof.
  intros [H0 H1] (e & r & He & Hr & ->)%sub_step_Ok. simpl.
  split; [done|].
  eauto using symmetric_bound_standing, symmetric_next_time.
Qed.

Lemma symmetric_init u_x0 (dt L dx c : T) w :
  Wave1D.init u_x0 init_vel1d dt L dx c = Ok w →
  symmetric (u_x0 (Wave1D.x w) L) →
  symmetric (Wave1D.u_tim1 w) ∧ symmetric (Wave1D.u_ti w).
Proof.
  intros (x & u0 & e & u1 & _ & _ & Hu0 & He & Hu1 & ->)%init_Ok Hf.
  simpl in *.
  assert (symmetric u0) by eauto using symmetric_bound_standing.
  split; [done|].
  eapply symmetric_bound_standing; [|done].
  eapply symmetric_first_time; [apply symmetric_zeros|done..].
Qed.
End symmetry.

(** Addition of binary64 numbers is commutative. *)
Lemma SFadd_comm (x y : spec_float) :
  SFadd prec emax x y = SFadd prec emax y x.
Proof.
  destruct x as [sx|sx| |sx mx ex], y as [sy|sy| |sy my ey]; simpl;
    try reflexivity.
  - by destruct sx, sy.
  - by destruct sx, sy.
  - rewrite Z.min_comm. f_equal. apply Z.add_comm.
Qed.

Lemma float_add_comm (a b : float) : (a + b)%sc = (b + a)%sc.
Proof.
  cbn [add float_scalar]. apply Prim2SF_inj. rewrite !add_spec.
  apply SFadd_comm.
Qed.

Lemma symmetric_mirror {T : Type} `{Scalar T} (a : list T) (m j : nat) :
  symmetric a → length a = 2 * m + 1 → j ≤ m →
  a !! (m - j) = a !! (m + j).
Proof.
  intros Ha Hl Hj. apply (f_equal (.!! (m - j))) in Ha.
  rewrite reverse_lookup in Ha by lia. rewrite <- Ha. f_equal. lia.
Qed.

(** C8, as the code has it.  With zero initial velocity and an initial
    field symmetric about the midpoint, the two bootstrap levels and
    every field the stepper yields are again symmetric about the
    midpoint: on a grid of [2m+1] samples the samples at distance [j] on
    either side of sample [m] are equal.  (Addition has to be
    commutative, as it is in binary64.)  The midpoint value itself is
    not kept. *)
Theorem symmetry_preserved (T : Type) (Sc : Scalar T)
  (add_comm : ∀ a b : T, (a + b)%sc = (b + a)%sc)
  u_x0 (dt L dx c : T) (w0 : Wave1D.t T) :
  Wave1D.init u_x0 init_vel1d dt L dx c = Ok w0 →
  symmetric (u_x0 (Wave1D.x w0) L) →
  symmetric (Wave1D.u_tim1 w0) ∧ symmetric (Wave1D.u_ti w0) ∧
  (∀ steps n w outs,
     pulls (Wave1D.iteration steps) n w0 = Ok (w, outs) →
     Forall (λ o, symmetric o.1) outs) ∧
  (∀ (a : list T) (m j : nat),
     symmetric a → length a = 2 * m + 1 → j ≤ m →
     a !! (m - j) = a !! (m + j)).
Proof.
  intros Hinit Hf.
  pose proof (symmetric_init add_comm _ _ _ _ _ _ Hinit Hf) as Hw0.
  split_and!; [apply Hw0..| |].
  - intros steps n w outs (_ & Hlen & Hk)%pulls_Ok.
    apply Forall_lookup. intros i o Hi.
    destruct (Hk i) as (wk & Hwk & Ho).
    { rewrite <- Hlen. by eapply lookup_lt_Some. }
    assert (o = (Wave1D.u_ti wk, Wave1D.time wk)) as -> by congruence.
    simpl.
    eapply (for_range_invariant
              (λ w1, symmetric (Wave1D.u_tim1 w1) ∧
                     symmetric (Wave1D.u_ti w1))); [|exact Hw0|exact Hwk].
    apply (symmetric_sub_step add_comm).
  - intros a m j. apply symmetric_mirror.
Qed.

Lemma symmetry_preserved_witness :
  ∃ w0 : Wave1D.t float,
    (∀ a b : float, (a + b)%sc = (b + a)%sc) ∧
    Wave1D.init pulse_square1d init_vel1d 0.5%float 4%float 1%float 1%float
    = Ok w0 ∧
    symmetric (pulse_square1d (Wave1D.x w0) 4%float) ∧
    symmetric (Wave1D.u_tim1 w0) ∧ symmetric (Wave1D.u_ti w0) ∧
    (∀ steps n w outs,
       pulls (Wave1D.iteration steps) n w0 = Ok (w, outs) →
       Forall (λ o, symmetric o.1) outs) ∧
    (∀ (a : list float) (m j : nat),
       symmetric a → length a = 2 * m + 1 → j ≤ m →
       a !! (m - j) = a !! (m + j)).
Proof.
  evaluated (Wave1D.init (T:=float) pulse_square1d init_vel1d 0.5%float
               4%float 1%float 1%float) as X.
  eexists. split; [exact float_add_comm|]. split; [exact X|].
  split; [reflexivity|].
  apply (symmetry_preserved float float_scalar float_add_comm _ _ _ _ _ _ X).
  reflexivity.
Defined.

(** The claim fails on the square pulse of [initial_func.py] with
    [L = 4], [dx = 1], [dt = 0.5], [c = 1] (every value exact in
    binary64): five samples, three of them interior, the initial field
    [0, 0, 1, 0, 0] symmetric about sample 2, zero velocity; after one
    advance step the midpoint holds 0.1875, not its initial 1. *)
Lemma midpoint_counterexample :
  ∃ (w0 w : Wave1D.t float) (out : list float * float),
    Wave1D.init pulse_square1d init_vel1d 0.5%float 4%float 1%float 1%float
    = Ok w0 ∧
    Wave1D.x w0 = [0; 1; 2; 3; 4]%float ∧
    Wave1D.u_tim1 w0 = [0; 0; 1; 0; 0]%float ∧
    symmetric (Wave1D.u_tim1 w0) ∧
    Wave1D.iteration 1 w0 = Ok (w, out) ∧
    Wave1D.u_tim1 w0 !! 2 = Some 1%float ∧
    out.1 !! 2 = Some 0.1875%float ∧
    PrimFloat.eqb 0.1875 1 = false.
Proof.
  eexists _, _, _.
  split; [vm_compute; reflexivity|].
  split_and!; vm_compute; reflexivity.
Qed.

Section rest.
Context {T : Type} `{Scalar T}.

Lemma roll_zeros n (s : Z) : np.roll (np.zeros (T:=T) n) s = np.zeros n.
Proof. apply rotate_replicate. Qed.

(** A field at rest stays at rest when the stencil maps 0 to 0. *)
Lemma next_time_zeros (α : T) n :
  (- 0 + 2 * (1 - α) * 0 + α * (0 + 0))%sc = 0%sc :> T →
  Wave1D.next_time α (np.zeros n) (np.zeros n) = Ok (np.zeros n).
Proof.
  intros Hfix. apply next_time_Ok. split; [done|].
  rewrite !roll_zeros. unfold np.negate, np.scale, np.zeros.
  by rewrite !fmap_replicate, !zip_with_replicate, !fmap_replicate,
    !zip_with_replicate, Hfix.
Qed.

Lemma sub_step_zeros (w : Wave1D.t T) n :
  (- 0 + 2 * (1 - Wave1D.alpha2 w) * 0 + Wave1D.alpha2 w * (0 + 0))%sc
  = 0%sc :> T →
  n ≠ 0 → Wave1D.u_tim1 w = np.zeros n → Wave1D.u_ti w = np.zeros n →
  ∃ w', Wave1D.sub_step w = Ok w' ∧
        Wave1D.u_tim1 w' = np.zeros n ∧ Wave1D.u_ti w' = np.zeros n ∧
        Wave1D.alpha2 w' = Wave1D.alpha2 w.
Proof.
  intros Hfix Hn H0 H1. eexists. split.
  - apply sub_step_Ok. eexists _, _. split_and!; [|  |done].
    + rewrite H0, H1. by apply next_time_zeros.
    + by apply bound_standing_pinned_id, pinned_zeros.
  - simpl. by rewrite H1.
Qed.

Lemma for_range_zeros k (w w' : Wave1D.t T) n :
  (- 0 + 2 * (1 - Wave1D.alpha2 w) * 0 + Wave1D.alpha2 w * (0 + 0))%sc
  = 0%sc :> T →
  n ≠ 0 → Wave1D.u_tim1 w = np.zeros n → Wave1D.u_ti w = np.zeros n →
  for_range k Wave1D.sub_step w = Ok w' → Wave1D.u_ti w' = np.zeros n.
Proof.
  intros Hfix Hn H0 H1 Hk.
  apply (for_range_invariant
           (λ w1, Wave1D.u_tim1 w1 = np.zeros n ∧
                  Wave1D.u_ti w1 = np.zeros n ∧
                  Wave1D.alpha2 w1 = Wave1D.alpha2 w) _ _ _ _) in Hk;
    [by destruct Hk as (_ & ? & _)| |done].
  intros w1 w2 (Ha & Hb & Hc) Hs.
  destruct (sub_step_zeros w1 n) as (w2' & Hs' & ? & ? & ?);
    [by rewrite Hc|done..|].
  rewrite Hs in Hs'. injection Hs' as <-. split_and!; congruence.
Qed.
End rest.

(** C9.  The 1-D stepper built in binary64 with [L = 8], [dx = 0.005],
    [dt = 0.001], [c = 1], an all-zero initial field and zero velocity
    is constructed, never raises, and the [k]-th pair it yields is the
    all-zero field of 1602 samples with the clock [0 + dt] advanced by
    [dt] once per sub-step. *)
Theorem rest_stays_at_rest :
  ∃ w0 : Wave1D.t float,
    Wave1D.init (λ x _, np.zeros (length x)) init_vel1d 0.001%float 8%float
      0.005%float 1%float = Ok w0 ∧
    ∀ (steps : Z) (n : nat),
      ∃ w outs,
        pulls (Wave1D.iteration steps) n w0 = Ok (w, outs) ∧
        ∀ k, k < n →
          outs !! k
          = Some (np.zeros 1602,
                  Nat.iter (S k * Z.to_nat steps)
                    (λ t : float, (t + 0.001%float)%sc)
                    (0 + 0.001%float)%sc).
Proof.
  evaluated (Wave1D.init (T:=float) (λ x _, np.zeros (length x)) init_vel1d
               0.001%float 8%float 0.005%float 1%float) as X.
  eexists. split; [exact X|]. intros steps n.
  pose proof (init_shaped _ _ _ _ _ _ _ X) as Hshaped.
  destruct (pulls_progress steps n _ Hshaped) as [[w outs] Hp].
  exists w, outs. split; [exact Hp|].
  intros k Hk. apply pulls_Ok in Hp as (_ & _ & Hout).
  destruct (Hout k Hk) as (wk & Hwk & ->). do 2 f_equal.
  - eapply (for_range_zeros _ _ _ 1602); [| | | |exact Hwk];
      [reflexivity|lia|reflexivity|reflexivity].
  - by apply for_range_time in Hwk as [_ ->].
Qed.

Section object_facts.
Context {St Out : Type}.
Implicit Types (resume : St → result (St * Out)) (σ : gmap nat St).





End object_facts.



(** ** Reading the state, and pacing *)

Section accessors.
Context {T : Type} `{Scalar T}.


End accessors.



Section pacing_facts.
Context {St Out : Type}.
Implicit Types (body : St → result St) (resume : St → result (St * Out)).

(** A generator whose resumption changes nothing yields one value for
    ever. *)
Lemma pulls_idle resume n s o :
  resume s = Ok (s, o) → pulls resume n s = Ok (s, replicate n o).
Proof.
  intros Hs. induction n as [|n IH]; [done|].
  simpl. rewrite Hs. simpl. by rewrite IH.
Qed.

Lemma pulls_last body (out : St → Out) k resume n s s' outs :
  (∀ s1 r, resume s1 = Ok r ↔ for_range k body s1 = Ok r.1 ∧ r.2 = out r.1) →
  pulls resume (S n) s = Ok (s', outs) → list.last outs = Some (out s').
Proof.
  intros Hres Hp.
  apply (pulls_for_range body out k resume (S n) s s' outs Hres) in Hp
    as (Hs' & Hlen & Hk).
  destruct (Hk n) as (sn & Hsn & Ho); [lia|].
  rewrite last_lookup, Hlen. simpl. congruence.
Qed.
End pacing_facts.

(** X2.  How often the caller pulls does not matter: a pull with
    [steps = a + b] is a pull with [steps = a] followed by one with
    [steps = b], for [a, b >= 0]; and [n] pulls with one [steps] leave
    the state, and yield last the pair, of a single pull with
    [n * steps]. *)
Theorem pacing (T : Type) (Sc : Scalar T) :
  (∀ (a b : Z) (w : Wave1D.t T),
     (0 ≤ a)%Z → (0 ≤ b)%Z →
     Wave1D.iteration (a + b) w
     = let* r := Wave1D.iteration a w in Wave1D.iteration b r.1) ∧
  (∀ (steps : Z) (n : nat) (w w' : Wave1D.t T) outs,
     pulls (Wave1D.iteration steps) (S n) w = Ok (w', outs) →
     ∃ o, list.last outs = Some o ∧
          Wave1D.iteration (Z.of_nat (S n) * steps) w = Ok (w', o)) ∧
  (∀ (a b : Z) (w : Wave2D.t T),
     (0 ≤ a)%Z → (0 ≤ b)%Z →
     Wave2D.iteration (a + b) w
     = let* r := Wave2D.iteration a w in Wave2D.iteration b r.1) ∧
  (∀ (steps : Z) (n : nat) (w w' : Wave2D.t T) outs,
     pulls (Wave2D.iteration steps) (S n) w = Ok (w', outs) →
     ∃ o, list.last outs = Some o ∧
          Wave2D.iteration (Z.of_nat (S n) * steps) w = Ok (w', o)).
Proof.
  assert (∀ (steps : Z) (n : nat),
            Z.to_nat (Z.of_nat (S n) * steps) = S n * Z.to_nat steps) as Hmul.
  { intros steps n. destruct (decide (0 ≤ steps)%Z).
    - rewrite Z2Nat.inj_mul, Nat2Z.id by lia. done.
    - replace (Z.to_nat steps) with 0 by lia.
      rewrite Nat.mul_0_r. apply Z2Nat.inj_0 || nia. }
  split_and!.
  - intros a b w Ha Hb. unfold Wave1D.iteration.
    rewrite Z2Nat.inj_add, for_range_add by done.
    by destruct (for_range (Z.to_nat a) Wave1D.sub_step w).
  - intros steps n w w' outs Hp.
    exists (Wave1D.u_ti w', Wave1D.time w'). split.
    + eapply (pulls_last Wave1D.sub_step
                (λ w1, (Wave1D.u_ti w1, Wave1D.time w1))); [|exact Hp].
      intros w1 [w2 o]. apply iteration_Ok.
    + apply pulls_Ok in Hp as (Hw' & _ & _).
      apply iteration_Ok. by rewrite Hmul.
  - intros a b w Ha Hb. unfold Wave2D.iteration.
    rewrite Z2Nat.inj_add, for_range_add by done.
    by destruct (for_range (Z.to_nat a) Wave2D.sub_step w).
  - intros steps n w w' outs Hp.
    exists (Wave2D.u_ti w', Wave2D.time w'). split.
    + eapply (pulls_last Wave2D.sub_step
                (λ w1, (Wave2D.u_ti w1, Wave2D.time w1))); [|exact Hp].
      intros w1 [w2 o]. apply iteration_Ok2.
    + apply pulls_Ok2 in Hp as (Hw' & _ & _).
      apply iteration_Ok2. by rewrite Hmul.
Qed.

Lemma pacing_witness :
  ∃ w0 : Wave1D.t float,
    Wave1D.init pulse_square1d init_vel1d 0.5%float 4%float 1%float 1%float
    = Ok w0 ∧
    (0 ≤ 2)%Z ∧ (0 ≤ 3)%Z ∧
    Wave1D.iteration (2 + 3) w0
    = let* r := Wave1D.iteration 2 w0 in Wave1D.iteration 3 r.1.
Proof.
  eexists. split; [vm_compute; reflexivity|]. split; [lia|]. split; [lia|].
  apply (proj1 (pacing float float_scalar) 2%Z 3%Z); lia.
Defined.

(** X3.  With [steps <= 0] the loop body never runs: every pull
    returns the current field and clock again and the stepper stays as
    it is, whatever its state. *)
Theorem idle_generator (T : Type) (Sc : Scalar T) :
  (∀ (steps : Z) (n : nat) (w : Wave1D.t T),
     (steps ≤ 0)%Z →
     pulls (Wave1D.iteration steps) n w
     = Ok (w, replicate n (Wave1D.u_ti w, Wave1D.time w))) ∧
  (∀ (steps : Z) (n : nat) (w : Wave2D.t T),
     (steps ≤ 0)%Z →
     pulls (Wave2D.iteration steps) n w
     = Ok (w, replicate n (Wave2D.u_ti w, Wave2D.time w))).
Proof.
  split; intros steps n w Hs; apply pulls_idle.
  - unfold Wave1D.iteration. by replace (Z.to_nat steps) with 0 by lia.
  - unfold Wave2D.iteration. by replace (Z.to_nat steps) with 0 by lia.
Qed.

Lemma idle_generator_witness :
  ∃ w0 : Wave1D.t float,
    Wave1D.init pulse_square1d init_vel1d 0.5%float 4%float 1%float 1%float
    = Ok w0 ∧
    (-2 ≤ 0)%Z ∧
    pulls (Wave1D.iteration (-2)) 3 w0
    = Ok (w0, replicate 3 (Wave1D.u_ti w0, Wave1D.time w0)).
Proof.
  eexists. split; [vm_compute; reflexivity|]. split; [lia|].
  apply (proj1 (idle_generator float float_scalar) (-2)%Z 3); lia.
Defined.

(** ** Locality *)

Section locality.
Context {T : Type} `{Scalar T}.
Implicit Types u v e r : list T.
Implicit Types w : Wave1D.t T.









End locality.



(** ** Reversal and superposition, in exact arithmetic *)

Section levels.
Context {T : Type} `{Scalar T}.
Implicit Types u e r : list T.
Implicit Types w v : Wave1D.t T.






Lemma for_range_alpha2 k w w' :
  for_range k Wave1D.sub_step w = Ok w' → Wave1D.alpha2 w' = Wave1D.alpha2 w.
Proof.
  apply (for_range_invariant (λ w1, Wave1D.alpha2 w1 = Wave1D.alpha2 w));
    [|done].
  by intros w1 w2 <- (e & r & _ & _ & ->)%sub_step_Ok.
Qed.
End levels.

Section reversal.
Implicit Types u v e r : list Qc.
Implicit Types w : Wave1D.t Qc.

End reversal.



Section superposition.
Implicit Types u v e r : list Qc.
Implicit Types w : Wave1D.t Qc.









End superposition.



(** ** The initial conditions *)

(** ** Exact rationals as rationals *)

Lemma Qc_this_opp (a : Qc) : (this (- a)%Qc == - this a)%Q.
Proof. apply Qred_correct. Qed.

Lemma Qc_this_minus (a b : Qc) : (this (a - b)%Qc == this a - this b)%Q.
Proof.
  unfold Qcminus. rewrite Qc_this_plus, Qc_this_opp. reflexivity.
Qed.

Lemma Qc_this_div (a b : Qc) : (this (a / b)%Qc == this a / this b)%Q.
Proof.
  unfold Qcdiv. rewrite Qc_this_mult. unfold Qcinv, Qdiv. cbn [this].
  f_equiv. apply Qred_correct.
Qed.

(** The break points of the pulses: [L/2 - L/10], [L/2], [L/2 + L/10]
    and the height [L/10]. *)
Lemma Qc_this_tenth (L : Qc) :
  (this (L / 2 - L / 10)%sc == (2 # 5) * this L)%Q ∧
  (this (L / 2)%sc == (1 # 2) * this L)%Q ∧
  (this (L / 2 + L / 10)%sc == (3 # 5) * this L)%Q ∧
  (this (L / 10)%sc == (1 # 10) * this L)%Q.
Proof.
  cbn [add sub div of_int Qc_scalar].
  rewrite Qc_this_minus, Qc_this_plus, !Qc_this_div.
  change (this (Q2Qc (inject_Z 2))) with 2%Q.
  change (this (Q2Qc (inject_Z 10))) with 10%Q.
  unfold Qdiv. change (/ 2)%Q with (1 # 2)%Q. change (/ 10)%Q with (1 # 10)%Q.
  split_and!; lra.
Qed.


Section pulses.
Implicit Types (L xi : Qc) (x : list Qc).







End pulses.




Section exact_grid.
Implicit Types (L dx : Qc) (x : list Qc).


End exact_grid.



Section fixpoint.
Context {T : Type} `{Scalar T}.
Implicit Types (u r row : list T) (a : list (list T)).

Lemma all_zero_zeros row (m : nat) :
  length row = m → Forall (λ v, v = 0%sc) row → row = np.zeros m.
Proof.
  intros <- Hz. unfold np.zeros. apply list_eq. intros i.
  destruct (row !! i) as [v|] eqn:Hv.
  - rewrite (Forall_lookup_1 _ _ _ _ Hz Hv).
    symmetry. apply lookup_replicate_2. by eapply lookup_lt_Some.
  - symmetry. apply lookup_ge_None_2. rewrite length_replicate.
    by apply lookup_ge_None.
Qed.

Lemma pinned_ends_id row :
  pinned row → <[length row - 1 := 0%sc]> (<[0 := 0%sc]> row) = row.
Proof.
  intros Hp. pose proof (bound_standing_pinned_id _ Hp) as Hid.
  apply bound_standing_Ok in Hid as [_ Hid]. done.
Qed.

(** The 2-D reset changes nothing in an array whose boundary is zero. *)
Lemma pin2_pinned2 n m a : rect n m a → pinned2 a → pin2 n m a = a.
Proof.
  intros [Hn Hrows] ((r0 & Hr0 & Hz0) & (r1 & Hr1 & Hz1) & Hp).
  rewrite head_lookup in Hr0. rewrite last_lookup in Hr1.
  apply list_eq. intros i. unfold pin2. rewrite list_lookup_imap.
  destruct (a !! i) as [row|] eqn:Hrow; [|done]. cbn. f_equal.
  pose proof (Forall_lookup_1 _ _ _ _ Hrows Hrow) as Hm. simpl in Hm.
  case_decide as Hb.
  - symmetry. apply all_zero_zeros; [done|].
    destruct Hb as [->| ->]; [congruence|].
    replace (n - 1) with (Nat.pred (length a)) in Hrow by lia. congruence.
  - rewrite <- Hm. apply pinned_ends_id.
    by apply (Forall_lookup_1 _ _ _ _ Hp Hrow).
Qed.
End fixpoint.

(** X9.  The boundary reset leaves an array as it is exactly when the
    boundary of the array is zero already, it keeps the shape, and
    resetting twice is resetting once; in 1-D and, for rectangular
    arrays, in 2-D. *)
Theorem bound_standing_fixpoint (T : Type) (Sc : Scalar T) :
  (∀ u : list T, Wave1D.bound_standing u = Ok u ↔ pinned u) ∧
  (∀ u r : list T,
     Wave1D.bound_standing u = Ok r → Wave1D.bound_standing r = Ok r) ∧
  (∀ (n m : nat) (a : list (list T)),
     rect n m a → (Wave2D.bound_standing a = Ok a ↔ pinned2 a)) ∧
  (∀ (n m : nat) (a r : list (list T)),
     rect n m a →
     Wave2D.bound_standing a = Ok r →
     rect n m r ∧ Wave2D.bound_standing r = Ok r).
Proof.
  assert (∀ (n m : nat) (a : list (list T)),
            rect n m a → (Wave2D.bound_standing a = Ok a ↔ pinned2 a)) as H2.
  { intros n m a Ha. split.
    - intros (Hn & Hm & Hr)%(bound_standing_Ok2 n m); [|done].
      rewrite Hr. by apply pinned2_pin2.
    - intros Hp. apply (bound_standing_Ok2 n m); [done|].
      destruct Ha as [Hn Hrows].
      destruct Hp as ((r0 & Hr0 & Hz0) & Hlast & Hpin).
      rewrite head_lookup in Hr0.
      pose proof (lookup_lt_Some _ _ _ Hr0).
      pose proof (Forall_lookup_1 _ _ _ _ Hrows Hr0) as Hm. simpl in Hm.
      pose proof (Forall_lookup_1 _ _ _ _ Hpin Hr0) as Hp0.
      apply pinned_nonempty in Hp0.
      split; [lia|]. split; [lia|]. symmetry. apply pin2_pinned2.
      + by split.
      + split; [by exists r0; rewrite head_lookup|done]. }
  split_and!.
  - intros u. split; [apply bound_standing_pinned|].
    apply bound_standing_pinned_id.
  - intros u r Hr. by apply bound_standing_pinned_id, (bound_standing_pinned u).
  - done.
  - intros n m a r Ha Hr.
    pose proof Hr as (Hn & Hm & ->)%(bound_standing_Ok2 n m); [|done].
    split; [by apply rect_pin2|].
    apply (H2 n m); [by apply rect_pin2|by apply pinned2_pin2].
Qed.

Lemma bound_standing_fixpoint_witness :
  rect 3 3 [[1; 2; 3]; [4; 5; 6]; [7; 8; 9]]%float ∧
  Wave2D.bound_standing [[1; 2; 3]; [4; 5; 6]; [7; 8; 9]]%float
  = Ok [[0; 0; 0]; [0; 5; 0]; [0; 0; 0]]%float ∧
  rect 3 3 [[0; 0; 0]; [0; 5; 0]; [0; 0; 0]]%float ∧
  Wave2D.bound_standing [[0; 0; 0]; [0; 5; 0]; [0; 0; 0]]%float
  = Ok [[0; 0; 0]; [0; 5; 0]; [0; 0; 0]]%float.
Proof.
  assert (rect 3 3 [[1; 2; 3]; [4; 5; 6]; [7; 8; 9]]%float) as Hr
    by (split; [reflexivity|repeat constructor]).
  split; [exact Hr|]. split; [reflexivity|].
  apply (proj2 (proj2 (proj2 (bound_standing_fixpoint float float_scalar)))
           3 3 [[1; 2; 3]; [4; 5; 6]; [7; 8; 9]]%float);
    [exact Hr|reflexivity].
Defined.



Section polynomial.
Context {T : Type} `{Scalar T}.


End polynomial.

Section polynomial_exact.
Implicit Types (x y : list Qc) (Lx Ly : Qc).


End polynomial_exact.




(** ** Arrays by reference *)



Section ref_facts.
Context {T : Type} `{Scalar T}.
Implicit Types (h : gmap nat (list T)) (self : Ref1D.t T) (l : nat).
Implicit Types (a e r : list T).

Lemma get_insert_eq h l a : Ref1D.get (<[l := a]> h) l = a.
Proof. unfold Ref1D.get. by rewrite lookup_insert_eq. Qed.

Lemma get_insert_ne h l l' a :
  l ≠ l' → Ref1D.get (<[l := a]> h) l' = Ref1D.get h l'.
Proof. intros. unfold Ref1D.get. by rewrite lookup_insert_ne. Qed.

Lemma fresh_not_in h l : l ∈ dom h → l ≠ fresh (dom h).
Proof. intros Hl ->. by apply (is_fresh (dom h)). Qed.

Lemma get_subseteq h h' l :
  h ⊆ h' → l ∈ dom h → Ref1D.get h' l = Ref1D.get h l.
Proof.
  intros Hsub [a Ha]%elem_of_dom. unfold Ref1D.get.
  by rewrite Ha, (lookup_weaken _ _ _ _ Ha Hsub).
Qed.

Lemma alloc_spec a h :
  ∃ l, Ref1D.alloc a h = (l, <[l := a]> h) ∧ (l ∉ dom h) ∧
       h ⊆ <[l := a]> h.
Proof.
  exists (fresh (dom h)). split; [done|].
  pose proof (is_fresh (dom h)) as Hf. split; [done|].
  apply insert_subseteq. by apply not_elem_of_dom.
Qed.

(** A sub-step by reference, written out: the new level is a new
    array, reset in place, and the two copies are new arrays. *)
Lemma ref_sub_step_eq self h :
  Ref1D.sub_step (self, h)
  = let* e := Wave1D.next_time (Ref1D.alpha2 self)
                (Ref1D.get h (Ref1D.u_tim1 self))
                (Ref1D.get h (Ref1D.u_ti self)) in
    let* r := Wave1D.bound_standing e in
    let l := fresh (dom h) in
    let h1 := <[l := r]> h in
    let l0 := fresh (dom h1) in
    let h2 := <[l0 := Ref1D.get h1 (Ref1D.u_ti self)]> h1 in
    let l1 := fresh (dom h2) in
    Ok (Ref1D.mk (Ref1D.x self) (Ref1D.alpha2 self)
          (Ref1D.time self + Ref1D.dt self)%sc (Ref1D.dt self) l0 l1 l,
        <[l1 := Ref1D.get h2 l]> h2).
Proof.
  unfold Ref1D.sub_step.
  destruct (Wave1D.next_time (Ref1D.alpha2 self)
              (Ref1D.get h (Ref1D.u_tim1 self))
              (Ref1D.get h (Ref1D.u_ti self))) as [e|err]; [|done].
  cbn [bind]. unfold Ref1D.alloc at 1. cbn iota beta zeta.
  unfold Ref1D.bound_standing. rewrite get_insert_eq.
  destruct (Wave1D.bound_standing e) as [r|err]; [|done].
  cbn [bind]. by rewrite insert_insert_eq.
Qed.

(** What it computes is the sub-step by value on the arrays the stepper
    points to; what it writes are three new arrays. *)
Lemma ref_sub_step self h :
  alive h self →
  same (Ref1D.sub_step (self, h)) (Wave1D.sub_step (view h self)) ∧
  ∀ self' h',
    Ref1D.sub_step (self, h) = Ok (self', h') →
    h ⊆ h' ∧ alive h' self' ∧ apart self' ∧
    Ref1D.x self' = Ref1D.x self ∧
    (Ref1D.u_tim1 self' ∉ dom h) ∧ (Ref1D.u_ti self' ∉ dom h) ∧
    (Ref1D.u_tip1 self' ∉ dom h).
Proof.
  intros (Hx & H0 & H1 & H2). rewrite ref_sub_step_eq.
  unfold Wave1D.sub_step, view. cbn [Wave1D.alpha2
    Wave1D.u_tim1 Wave1D.u_ti Wave1D.x Wave1D.time Wave1D.dt].
  destruct (Wave1D.next_time (Ref1D.alpha2 self)
              (Ref1D.get h (Ref1D.u_tim1 self))
              (Ref1D.get h (Ref1D.u_ti self))) as [e|err]; [|by split].
  cbn [bind].
  destruct (Wave1D.bound_standing e) as [r|err]; [|by split].
  cbn [bind]. cbn zeta.
  assert (∀ (g : gmap nat (list T)) a,
            (fresh (dom g) ∉ dom g) ∧ g ⊆ <[fresh (dom g) := a]> g ∧
            ∀ k, k ∈ dom (<[fresh (dom g) := a]> g)
                 ↔ k = fresh (dom g) ∨ k ∈ dom g)
    as Hnew.
  { intros g a. pose proof (is_fresh (dom g)).
    split; [done|]. split; [by apply insert_subseteq, not_elem_of_dom|].
    intros k. rewrite dom_insert_L. set_solver. }
  remember (fresh (dom h)) as l eqn:El.
  remember (<[l := r]> h) as h1 eqn:Eh1.
  destruct (Hnew h r) as (Hl & Hs1 & Hd1). rewrite <- El, <- Eh1 in *.
  remember (fresh (dom h1)) as l0 eqn:El0.
  remember (<[l0 := Ref1D.get h1 (Ref1D.u_ti self)]> h1) as h2 eqn:Eh2.
  destruct (Hnew h1 (Ref1D.get h1 (Ref1D.u_ti self))) as (Hl0 & Hs2 & Hd2).
  rewrite <- El0, <- Eh2 in *.
  remember (fresh (dom h2)) as l1 eqn:El1.
  remember (<[l1 := Ref1D.get h2 l]> h2) as h3 eqn:Eh3.
  destruct (Hnew h2 (Ref1D.get h2 l)) as (Hl1 & Hs3 & Hd3).
  rewrite <- El1, <- Eh3 in *.
  clear Hnew El El0 El1.
  assert (∀ k, k ∈ dom h → k ∈ dom h1) as U1
    by (intros k ?; apply Hd1; by right).
  assert (∀ k, k ∈ dom h1 → k ∈ dom h2) as U2
    by (intros k ?; apply Hd2; by right).
  assert (∀ k, k ∈ dom h2 → k ∈ dom h3) as U3
    by (intros k ?; apply Hd3; by right).
  assert (l ∈ dom h1) as Ml by (apply Hd1; by left).
  assert (l0 ∈ dom h2) as Ml0 by (apply Hd2; by left).
  assert (l1 ∈ dom h3) as Ml1 by (apply Hd3; by left).
  assert (Ref1D.get h1 (Ref1D.u_ti self) = Ref1D.get h (Ref1D.u_ti self))
    as Hg1 by (by apply get_subseteq).
  assert (Ref1D.get h2 l = r) as Hg2.
  { rewrite (get_subseteq h1 h2) by done. rewrite Eh1. apply get_insert_eq. }
  split.
  - unfold same, view.
    cbn [Ref1D.x Ref1D.alpha2 Ref1D.time Ref1D.dt Ref1D.u_tim1 Ref1D.u_ti
         Ref1D.u_tip1 Wave1D.time_update Wave1D.alpha2
         Wave1D.u_tim1 Wave1D.u_ti Wave1D.u_tip1 Wave1D.x Wave1D.time
         Wave1D.dt].
    f_equal.
    + rewrite (get_subseteq h h3); [done| |done].
      by do 2 (etrans; [|done]).
    + rewrite (get_subseteq h2 h3) by done.
      rewrite Eh2. by rewrite get_insert_eq.
    + rewrite Eh3. by rewrite get_insert_eq.
    + rewrite (get_subseteq h1 h3); [|by etrans|done].
      rewrite Eh1. apply get_insert_eq.
  - intros self' h' [= <- <-].
    cbn [Ref1D.x Ref1D.alpha2 Ref1D.time Ref1D.dt Ref1D.u_tim1 Ref1D.u_ti
         Ref1D.u_tip1].
    split_and!.
    + by do 2 (etrans; [|done]).
    + unfold alive. cbn. auto 6.
    + unfold apart. cbn.
      repeat constructor; rewrite ?elem_of_cons, ?elem_of_nil;
        intros Heq; repeat destruct Heq as [Heq|Heq]; try done; subst; auto.
    + done.
    + auto.
    + auto.
    + done.
Qed.
End ref_facts.

Section ref_pulls.
Context {T : Type} `{Scalar T}.
Implicit Types (h : gmap nat (list T)) (self : Ref1D.t T) (l : nat).

Lemma ref_for_range k self h :
  alive h self →
  same (for_range k Ref1D.sub_step (self, h))
    (for_range k Wave1D.sub_step (view h self)) ∧
  ∀ self' h',
    for_range k Ref1D.sub_step (self, h) = Ok (self', h') →
    h ⊆ h' ∧ alive h' self' ∧ Ref1D.x self' = Ref1D.x self ∧
    (k ≠ 0 → apart self' ∧ (Ref1D.u_tim1 self' ∉ dom h) ∧
             (Ref1D.u_ti self' ∉ dom h) ∧ (Ref1D.u_tip1 self' ∉ dom h)).
Proof.
  revert self h. induction k as [|k IH]; intros self h Ha.
  - simpl. split; [done|]. by intros self' h' [= <- <-].
  - cbn [for_range]. destruct (ref_sub_step self h Ha) as [Hsame Hframe].
    destruct (Ref1D.sub_step (self, h)) as [[self1 h1]|err];
      destruct (Wave1D.sub_step (view h self)) as [w1|err'];
      cbn [same] in Hsame; try done.
    cbn [bind]. subst w1.
    destruct (Hframe self1 h1 eq_refl)
      as (Hs1 & Ha1 & Hap1 & Hx1 & Hf0 & Hf1 & Hf2).
    destruct (IH self1 h1 Ha1) as [Hsame' Hframe']. split; [done|].
    intros self' h' Hk.
    destruct (Hframe' self' h' Hk) as (Hs' & Ha' & Hx' & Hnew).
    split_and!; [by etrans|done|congruence|]. intros _.
    destruct k as [|k].
    + simpl in Hk. by injection Hk as <- <-.
    + destruct Hnew as (Hap & Hn0 & Hn1 & Hn2); [done|].
      assert (∀ l, l ∉ dom h1 → l ∉ dom h) as Hnot.
      { intros l Hl Hin. apply Hl. by apply (subseteq_dom h h1). }
      auto.
Qed.

Lemma ref_iteration steps self h :
  alive h self →
  match Ref1D.iteration steps (self, h),
        Wave1D.iteration steps (view h self) with
  | Ok ((self', h'), (l, t)), Ok (w, (u, t')) =>
      view h' self' = w ∧ Ref1D.get h' l = u ∧ t = t' ∧
      l = Ref1D.u_ti self' ∧ h ⊆ h' ∧ alive h' self' ∧
      ((0 < steps)%Z → l ∉ dom h) ∧
      ((steps ≤ 0)%Z → self' = self ∧ h' = h)
  | Raise e, Raise e' => e = e'
  | _, _ => False
  end.
Proof.
  intros Ha. unfold Ref1D.iteration, Wave1D.iteration.
  destruct (ref_for_range (Z.to_nat steps) self h Ha) as [Hsame Hframe].
  destruct (for_range _ Ref1D.sub_step _) as [[self1 h1]|err] eqn:E;
    destruct (for_range _ Wave1D.sub_step _) as [w1|err'];
    cbn [same] in Hsame; try done.
  cbn [bind fst snd]. subst w1.
  destruct (Hframe self1 h1 eq_refl) as (Hs1 & Ha1 & Hx1 & Hnew).
  split_and!; try done.
  - intros Hpos. destruct Hnew as (_ & _ & ? & _); [lia|done].
  - intros Hneg. replace (Z.to_nat steps) with 0 in E by lia.
    simpl in E. by injection E as <- <-.
Qed.
End ref_pulls.

(** Pulling by reference: the fields and times are those of pulling by
    value, whenever the arrays are read; nothing that existed is
    written. *)
Lemma ref_pulls {T : Type} `{Scalar T} (steps : Z) (n : nat)
  (self : Ref1D.t T) (h : gmap nat (list T)) :
    alive h self →
    same_pulls (pulls (Ref1D.iteration steps) n (self, h))
      (pulls (Wave1D.iteration steps) n (view h self)) ∧
    ∀ self' h' outs,
      pulls (Ref1D.iteration steps) n (self, h) = Ok ((self', h'), outs) →
      h ⊆ h' ∧ alive h' self' ∧
      ((0 < steps)%Z →
       NoDup outs.*1 ∧ Forall (λ o, o.1 ∉ dom h) outs) ∧
      ((steps ≤ 0)%Z →
       h' = h ∧ self' = self ∧ Forall (λ o, o.1 = Ref1D.u_ti self) outs).
Proof.
  revert self h. induction n as [|n IH]; intros self h Ha.
  - simpl. split; [done|]. intros self' h' outs [= <- <- <-].
    split_and!; [done|done| |]; intros _; split_and!; try done; constructor.
  - cbn [pulls]. pose proof (ref_iteration steps self h Ha) as Hit.
    destruct (Ref1D.iteration steps (self, h)) as [[[self1 h1] [l t]]|err];
      destruct (Wave1D.iteration steps (view h self)) as [[w1 [u t']]|err'];
      try done.
    destruct Hit as (Hv & Hu & Ht & Hl & Hs1 & Ha1 & Hpos & Hneg).
    cbn [bind fst snd]. subst w1 t'.
    destruct (IH self1 h1 Ha1) as [Hsame Hframe].
    destruct (pulls (Ref1D.iteration steps) n (self1, h1))
      as [[[self2 h2] outs]|err];
      destruct (pulls (Wave1D.iteration steps) n (view h1 self1))
        as [[w2 fields]|err'];
      cbn [same_pulls] in Hsame; try done.
    destruct Hsame as [Hv2 Hc2].
    destruct (Hframe self2 h2 outs eq_refl) as (Hs2 & Ha2 & Hpos2 & Hneg2).
    assert (l ∈ dom h1) as Hlin by (rewrite Hl; apply Ha1).
    cbn [bind fst snd]. split.
    + cbn [same_pulls]. split; [done|].
      unfold contents in *. cbn [fmap list_fmap fst snd]. f_equal; [|done].
      f_equal. rewrite <- Hu. by apply get_subseteq.
    + intros self' h' outs' [= <- <- <-].
      split_and!; [by etrans|done| |].
      * intros Hp. destruct (Hpos2 Hp) as [Hnd Hfr]. split.
        -- cbn [fmap list_fmap fst]. constructor; [|done].
           intros (o & Ho1 & Ho)%list_elem_of_fmap.
           apply (proj1 (Forall_forall _ _) Hfr o Ho). by rewrite <- Ho1.
        -- constructor; [by apply Hpos|].
           apply (Forall_impl _ _ _ Hfr). intros o Ho Hin. apply Ho.
           by apply (subseteq_dom h h1).
      * intros Hn. destruct (Hneg2 Hn) as (-> & -> & Hall).
        destruct (Hneg Hn) as [-> ->].
        split_and!; [done..|]. by constructor.
Qed.

Section ref_init.
Context {T : Type} `{Scalar T}.
Implicit Types (h g : gmap nat (list T)) (self : Ref1D.t T) (l : nat).

Lemma dom_insert_iff g l (a : list T) k :
  k ∈ dom (<[l := a]> g) ↔ k = l ∨ k ∈ dom g.
Proof. rewrite dom_insert_L. set_solver. Qed.

(** What a new array adds to the heap. *)
Lemma fresh_insert g (a : list T) :
  (fresh (dom g) ∉ dom g) ∧ g ⊆ <[fresh (dom g) := a]> g ∧
  (∀ k, k ∈ dom (<[fresh (dom g) := a]> g) ↔ k = fresh (dom g) ∨ k ∈ dom g) ∧
  Ref1D.get (<[fresh (dom g) := a]> g) (fresh (dom g)) = a.
Proof.
  pose proof (is_fresh (dom g)).
  split; [done|]. split; [by apply insert_subseteq, not_elem_of_dom|].
  split; [|apply get_insert_eq].
  intros k. apply dom_insert_iff.
Qed.

Lemma ref_init (f : list T → T → list T) (gv : list T → list T)
  u_x0 ut_x0 (dt L dx c : T) h :
  makes (λ x, f x L) (λ lx, u_x0 lx L) → makes gv ut_x0 →
  match Ref1D.init u_x0 ut_x0 dt L dx c h, Wave1D.init f gv dt L dx c with
  | Ok (self, h'), Ok w =>
      view h' self = w ∧ h ⊆ h' ∧ alive h' self ∧ apart self
  | Raise e, Raise e' => e = e'
  | _, _ => False
  end.
Proof.
  intros Hf Hg. unfold Ref1D.init, Wave1D.init.
  destruct (np.arange 0%sc (L + dx)%sc dx) as [xs|err]; [|done].
  cbn [bind]. unfold Ref1D.alloc at 1. cbn iota beta zeta.
  destruct (gtb _ _); [done|].
  destruct (fresh_insert h xs) as (Hlx & Hs1 & Hd1 & Hg1).
  remember (fresh (dom h)) as lx eqn:Elx. clear Elx.
  remember (<[lx := xs]> h) as h1 eqn:Eh1.
  assert (lx ∈ dom h1) as Mlx by (apply Hd1; by left).
  rewrite (Hf lx h1 Mlx), Hg1. unfold Ref1D.alloc at 1. cbn iota beta zeta.
  destruct (fresh_insert h1 (f xs L)) as (Hl0 & Hs2 & Hd2 & Hg2).
  remember (fresh (dom h1)) as l0 eqn:El0. clear El0.
  unfold Ref1D.bound_standing at 1. rewrite Hg2.
  destruct (Wave1D.bound_standing (f xs L)) as [u0|err]; [|done].
  cbn [bind]. rewrite insert_insert_eq.
  remember (<[l0 := u0]> h1) as h2 eqn:Eh2.
  assert (h1 ⊆ h2) as Hs2'
    by (rewrite Eh2; by apply insert_subseteq, not_elem_of_dom).
  assert (∀ k, k ∈ dom h2 ↔ k = l0 ∨ k ∈ dom h1) as Hd2'.
  { intros k. rewrite Eh2. apply dom_insert_iff. }
  assert (Ref1D.get h2 l0 = u0) as Hg2' by (rewrite Eh2; apply get_insert_eq).
  clear Hs2 Hd2 Hg2.
  assert (lx ∈ dom h2) as Mlx2 by (apply Hd2'; by right).
  assert (Ref1D.get h2 lx = xs) as Hx2
    by (by rewrite (get_subseteq h1 h2)).
  rewrite (Hg lx h2 Mlx2), Hx2. unfold Ref1D.alloc at 1. cbn iota beta zeta.
  destruct (fresh_insert h2 (gv xs)) as (Hlv & Hs3 & Hd3 & Hg3).
  remember (fresh (dom h2)) as lv eqn:Elv. clear Elv.
  remember (<[lv := gv xs]> h2) as h3 eqn:Eh3.
  assert (l0 ∈ dom h2) as Ml0 by (apply Hd2'; by left).
  rewrite Hg3, (get_subseteq h2 h3), Hg2' by done.
  destruct (Wave1D.first_time _ _ _ _) as [e|err]; [|done].
  cbn [bind]. unfold Ref1D.alloc at 1. cbn iota beta zeta.
  destruct (fresh_insert h3 e) as (Hl1 & Hs4 & Hd4 & Hg4).
  remember (fresh (dom h3)) as l1 eqn:El1. clear El1.
  unfold Ref1D.bound_standing at 1. rewrite Hg4.
  destruct (Wave1D.bound_standing e) as [u1|err]; [|done].
  cbn [bind]. rewrite insert_insert_eq.
  remember (<[l1 := u1]> h3) as h4 eqn:Eh4.
  assert (h3 ⊆ h4) as Hs4'
    by (rewrite Eh4; by apply insert_subseteq, not_elem_of_dom).
  assert (∀ k, k ∈ dom h4 ↔ k = l1 ∨ k ∈ dom h3) as Hd4'.
  { intros k. rewrite Eh4. apply dom_insert_iff. }
  assert (Ref1D.get h4 l1 = u1) as Hg4' by (rewrite Eh4; apply get_insert_eq).
  clear Hs4 Hd4 Hg4.
  rewrite Hg4'. unfold Ref1D.alloc. cbn iota beta zeta.
  destruct (fresh_insert h4 (np.zeros (length u1)))
    as (Hl2 & Hs5 & Hd5 & Hg5).
  remember (fresh (dom h4)) as l2 eqn:El2. clear El2.
  remember (<[l2 := np.zeros (length u1)]> h4) as h5 eqn:Eh5.
  assert (∀ k, k ∈ dom h2 → k ∈ dom h3) as U3
    by (intros k ?; apply Hd3; by right).
  assert (∀ k, k ∈ dom h3 → k ∈ dom h4) as U4
    by (intros k ?; apply Hd4'; by right).
  assert (∀ k, k ∈ dom h4 → k ∈ dom h5) as U5
    by (intros k ?; apply Hd5; by right).
  assert (l1 ∈ dom h4) as Ml1 by (apply Hd4'; by left).
  assert (l2 ∈ dom h5) as Ml2 by (apply Hd5; by left).
  assert (h2 ⊆ h5) as Hs25 by (by do 2 (etrans; [|done])).
  unfold view, Ref1D.time_update, Wave1D.time_update.
  cbn [Ref1D.x Ref1D.alpha2 Ref1D.time Ref1D.dt Ref1D.u_tim1 Ref1D.u_ti
       Ref1D.u_tip1 Wave1D.alpha2 Wave1D.u_tim1 Wave1D.u_ti Wave1D.u_tip1
       Wave1D.x Wave1D.time Wave1D.dt].
  split_and!.
  - f_equal.
    + by rewrite (get_subseteq h2 h5).
    + by rewrite (get_subseteq h2 h5).
    + by rewrite (get_subseteq h4 h5).
    + done.
  - etrans; [exact Hs1|]. etrans; [exact Hs2'|]. done.
  - unfold alive. cbn. auto 8.
  - unfold apart. cbn.
    repeat constructor; rewrite ?elem_of_cons, ?elem_of_nil;
      intros Heq; repeat destruct Heq as [Heq|Heq]; try done; subst;
      auto 6.
Qed.
End ref_init.

(** X12.  Pulling from a 1-D stepper whose arrays exist writes only to
    arrays made during the pulls: every array that existed before keeps
    its contents, and the arrays the caller was handed hold, when all
    pulls are done, the fields and times of the stepper read by value,
    so no later pull has written to them.  With [steps > 0] every pull
    hands out a new array; with [steps <= 0] nothing is made and every
    pull hands out the array [self.u_ti] itself. *)
Theorem yielded_arrays (T : Type) (Sc : Scalar T) :
  ∀ (steps : Z) (n : nat) (self self' : Ref1D.t T)
    (h h' : gmap nat (list T)) (outs : list (nat * T)),
    alive h self →
    pulls (Ref1D.iteration steps) n (self, h) = Ok ((self', h'), outs) →
    h ⊆ h' ∧
    (∃ w, pulls (Wave1D.iteration steps) n (view h self)
          = Ok (w, contents h' outs)) ∧
    ((0 < steps)%Z →
     NoDup outs.*1 ∧ Forall (λ o, o.1 ∉ dom h) outs) ∧
    ((steps ≤ 0)%Z →
     h' = h ∧ Forall (λ o, o.1 = Ref1D.u_ti self) outs).
Proof.
  intros steps n self self' h h' outs Ha Hp.
  destruct (ref_pulls steps n self h Ha) as [Hsame Hframe].
  destruct (Hframe self' h' outs Hp) as (Hs & _ & Hpos & Hneg).
  rewrite Hp in Hsame. cbn [same_pulls] in Hsame.
  destruct (pulls (Wave1D.iteration steps) n (view h self))
    as [[w fields]|err]; [|done].
  destruct Hsame as [_ <-].
  split_and!; [done|by exists w|done|].
  intros Hn. by destruct (Hneg Hn) as (? & _ & ?).
Qed.

(** X13.  When the initial-condition functions return new arrays,
    constructing a 1-D stepper and pulling from it by reference ends in
    the same error as by value, or in the same stepper having yielded
    the same fields and times, whatever else the heap holds; and the
    arrays that were in the heap before are as they were. *)
Theorem by_value_reading (T : Type) (Sc : Scalar T) :
  ∀ (f : list T → T → list T) (gv : list T → list T) u_x0 ut_x0
    (dt L dx c : T) (h : gmap nat (list T)) (steps : Z) (n : nat),
    makes (λ x, f x L) (λ lx, u_x0 lx L) → makes gv ut_x0 →
    match (let* s := Ref1D.init u_x0 ut_x0 dt L dx c h in
           pulls (Ref1D.iteration steps) n s),
          (let* w := Wave1D.init f gv dt L dx c in
           pulls (Wave1D.iteration steps) n w) with
    | Ok ((self, h'), outs), Ok (w, fields) =>
        view h' self = w ∧ contents h' outs = fields ∧ h ⊆ h'
    | Raise e, Raise e' => e = e'
    | _, _ => False
    end.
Proof.
  intros f gv u_x0 ut_x0 dt L dx c h steps n Hf Hg.
  pose proof (ref_init f gv u_x0 ut_x0 dt L dx c h Hf Hg) as Hinit.
  destruct (Ref1D.init u_x0 ut_x0 dt L dx c h) as [[self0 h0]|err];
    destruct (Wave1D.init f gv dt L dx c) as [w0|err']; try done.
  destruct Hinit as (<- & Hs0 & Ha0 & _). cbn [bind].
  destruct (ref_pulls steps n self0 h0 Ha0) as [Hsame Hframe].
  destruct (pulls (Ref1D.iteration steps) n (self0, h0))
    as [[[self h'] outs]|err];
    destruct (pulls (Wave1D.iteration steps) n (view h0 self0))
      as [[w fields]|err']; cbn [same_pulls] in Hsame; try done.
  destruct Hsame as [Hv Hc].
  destruct (Hframe self h' outs eq_refl) as (Hs & _).
  split_and!; [done..|by etrans].
Qed.

(** X14.  What is shared.  An initial-position function that returns
    the grid it was given makes [u_tim1] and [x] one array, and the
    boundary reset of the constructor then zeroes the ends of the grid:
    [ux_init] hands out that array twice.  And the arrays handed to the
    caller are the stepper's own: if the caller overwrites the array
    yielded last, or the field array [ux_init] returned, the next
    sub-step is computed from what the caller wrote. *)
Theorem shared_arrays (T : Type) (Sc : Scalar T) :
  (∀ (gv : list T → list T) ut_x0 (dt L dx c : T)
     (h h' : gmap nat (list T)) (self : Ref1D.t T),
     makes gv ut_x0 →
     Ref1D.init (λ lx _ h, (lx, h)) ut_x0 dt L dx c h = Ok (self, h') →
     Ref1D.ux_init self = (Ref1D.x self, Ref1D.x self) ∧
     ∃ xs, np.arange 0%sc (L + dx)%sc dx = Ok xs ∧
           Wave1D.bound_standing xs = Ok (Ref1D.get h' (Ref1D.x self))) ∧
  (∀ (self : Ref1D.t T) (h : gmap nat (list T)) (a : list T),
     alive h self → apart self →
     same (Ref1D.sub_step (self, <[Ref1D.u_ti self := a]> h))
       (Wave1D.sub_step
          (Wave1D.mk (Ref1D.get h (Ref1D.x self)) (Ref1D.alpha2 self)
             (Ref1D.time self) (Ref1D.dt self)
             (Ref1D.get h (Ref1D.u_tim1 self)) a
             (Ref1D.get h (Ref1D.u_tip1 self)))) ∧
     same (Ref1D.sub_step (self, <[(Ref1D.ux_init self).1 := a]> h))
       (Wave1D.sub_step
          (Wave1D.mk (Ref1D.get h (Ref1D.x self)) (Ref1D.alpha2 self)
             (Ref1D.time self) (Ref1D.dt self) a
             (Ref1D.get h (Ref1D.u_ti self))
             (Ref1D.get h (Ref1D.u_tip1 self))))).
Proof.
  split.
  - intros gv ut_x0 dt L dx c h h' self Hg. unfold Ref1D.init.
    destruct (np.arange 0%sc (L + dx)%sc dx) as [xs|err]; [|done].
    cbn [bind]. unfold Ref1D.alloc at 1. cbn iota beta zeta.
    destruct (gtb _ _); [done|].
    destruct (fresh_insert h xs) as (Hlx & Hs1 & Hd1 & Hg1).
    remember (fresh (dom h)) as lx eqn:Elx. clear Elx.
    unfold Ref1D.bound_standing at 1. rewrite Hg1.
    destruct (Wave1D.bound_standing xs) as [u0|err] eqn:Hu0; [|done].
    cbn [bind]. rewrite insert_insert_eq.
    remember (<[lx := u0]> h) as h2 eqn:Eh2.
    assert (lx ∈ dom h2) as Mlx.
    { rewrite Eh2. apply dom_insert_iff. by left. }
    assert (Ref1D.get h2 lx = u0) as Hx2
      by (rewrite Eh2; apply get_insert_eq).
    rewrite (Hg lx h2 Mlx), Hx2. unfold Ref1D.alloc at 1.
    cbn iota beta zeta.
    destruct (fresh_insert h2 (gv u0)) as (Hlv & Hs3 & Hd3 & Hg3).
    remember (fresh (dom h2)) as lv eqn:Elv. clear Elv.
    remember (<[lv := gv u0]> h2) as h3 eqn:Eh3.
    destruct (Wave1D.first_time _ _ _ _) as [e|err]; [|done].
    cbn [bind]. unfold Ref1D.alloc at 1. cbn iota beta zeta.
    destruct (fresh_insert h3 e) as (Hl1 & Hs4 & Hd4 & Hg4).
    remember (fresh (dom h3)) as l1 eqn:El1. clear El1.
    unfold Ref1D.bound_standing at 1. rewrite Hg4.
    destruct (Wave1D.bound_standing e) as [u1|err]; [|done].
    cbn [bind]. rewrite insert_insert_eq.
    remember (<[l1 := u1]> h3) as h4 eqn:Eh4.
    assert (h3 ⊆ h4) as Hs4'
      by (rewrite Eh4; by apply insert_subseteq, not_elem_of_dom).
    unfold Ref1D.alloc. cbn iota beta zeta.
    destruct (fresh_insert h4 (np.zeros (length (Ref1D.get h4 l1))))
      as (Hl2 & Hs5 & _ & _).
    intros [= <- <-]. split; [done|]. exists xs. split; [done|].
    cbn [Ref1D.time_update Ref1D.x].
    rewrite (get_subseteq h2); [by rewrite Hx2| |done].
    by do 2 (etrans; [|done]).
  - intros self h a (Hx & H0 & H1 & H2) Hap.
    unfold apart in Hap. rewrite !NoDup_cons in Hap.
    rewrite !elem_of_cons, elem_of_nil in Hap.
    destruct Hap as (Hx' & H0' & H1' & _).
    assert (∀ l, l ∈ dom h →
              alive (<[l := a]> h) self) as Hal.
    { intros l Hl. unfold alive.
      split_and!; apply dom_insert_iff; by right. }
    split.
    + destruct (ref_sub_step self _ (Hal _ H1)) as [Hsame _].
      revert Hsame. unfold view.
      rewrite get_insert_eq, !get_insert_ne by naive_solver. done.
    + cbn [Ref1D.ux_init fst].
      destruct (ref_sub_step self _ (Hal _ H0)) as [Hsame _].
      revert Hsame. unfold view.
      rewrite get_insert_eq, !get_insert_ne by naive_solver. done.
Qed.

Lemma yielded_arrays_witness :
  ∃ (self self' : Ref1D.t float) (h h' : gmap nat (list float)) outs,
    alive h self ∧
    pulls (Ref1D.iteration 1) 2 (self, h) = Ok ((self', h'), outs) ∧
    h ⊆ h' ∧
    (∃ w, pulls (Wave1D.iteration 1) 2 (view h self)
          = Ok (w, contents h' outs)) ∧
    ((0 < 1)%Z → NoDup outs.*1 ∧ Forall (λ o, o.1 ∉ dom h) outs).
Proof.
  assert (alive
            (<[0 := [0; 1; 2; 3; 4]%float]>
               (<[1 := [0; 0; 1; 0; 0]%float]>
                  (<[2 := [0; 0.125; 0.75; 0.125; 0]%float]>
                     (<[3 := [0; 0; 0; 0; 0]%float]> ∅))))
            (Ref1D.mk 0 0.25%float 0.5%float 0.5%float 1 2 3)) as Ha.
  { unfold alive. cbn [Ref1D.x Ref1D.u_tim1 Ref1D.u_ti Ref1D.u_tip1].
    split_and!; apply elem_of_dom; eexists; vm_compute; reflexivity. }
  assert (∃ r,
            pulls (Ref1D.iteration 1) 2
              (Ref1D.mk 0 0.25%float 0.5%float 0.5%float 1 2 3,
               <[0 := [0; 1; 2; 3; 4]%float]>
                 (<[1 := [0; 0; 1; 0; 0]%float]>
                    (<[2 := [0; 0.125; 0.75; 0.125; 0]%float]>
                       (<[3 := [0; 0; 0; 0; 0]%float]> ∅)))) = Ok r)
    as [[[self' h'] outs] Hp] by (eexists; vm_compute; reflexivity).
  destruct (yielded_arrays float float_scalar 1 2 _ _ _ _ _ Ha Hp)
    as (Hs & Hw & Hpos & _).
  eexists _, self', _, h', outs. split; [exact Ha|]. split; [exact Hp|].
  split; [exact Hs|]. split; [exact Hw|exact Hpos].
Defined.

Lemma by_value_reading_witness :
  ∃ (self : Ref1D.t float) (h' : gmap nat (list float)) outs w fields,
    makes (λ x, pulse_square1d x 4%float)
      (λ lx h, Ref1D.alloc (pulse_square1d (Ref1D.get h lx) 4%float) h) ∧
    makes init_vel1d
      (λ lx (h : gmap nat (list float)),
         Ref1D.alloc (init_vel1d (Ref1D.get h lx)) h) ∧
    (let* s := Ref1D.init
                 (λ lx L h,
                    Ref1D.alloc (pulse_square1d (Ref1D.get h lx) L) h)
                 (λ lx h, Ref1D.alloc (init_vel1d (Ref1D.get h lx)) h)
                 0.5%float 4%float 1%float 1%float ∅ in
     pulls (Ref1D.iteration 1) 2 s) = Ok ((self, h'), outs) ∧
    (let* w := Wave1D.init pulse_square1d init_vel1d
                 0.5%float 4%float 1%float 1%float in
     pulls (Wave1D.iteration 1) 2 w) = Ok (w, fields) ∧
    view h' self = w ∧ contents h' outs = fields ∧ ∅ ⊆ h'.
Proof.
  assert (makes (λ x, pulse_square1d x 4%float)
            (λ lx h, Ref1D.alloc (pulse_square1d (Ref1D.get h lx) 4%float) h))
    as Hf by (by intros lx h _).
  assert (makes init_vel1d
            (λ lx (h : gmap nat (list float)),
               Ref1D.alloc (init_vel1d (Ref1D.get h lx)) h))
    as Hg by (by intros lx h _).
  assert (∃ r,
            (let* s := Ref1D.init
                 (λ lx L h,
                    Ref1D.alloc (pulse_square1d (Ref1D.get h lx) L) h)
                 (λ lx h, Ref1D.alloc (init_vel1d (Ref1D.get h lx)) h)
                 0.5%float 4%float 1%float 1%float ∅ in
             pulls (Ref1D.iteration 1) 2 s) = Ok r)
    as [[[self h'] outs] Hr] by (eexists; vm_compute; reflexivity).
  assert (∃ r,
            (let* w := Wave1D.init pulse_square1d init_vel1d
                 0.5%float 4%float 1%float 1%float in
             pulls (Wave1D.iteration 1) 2 w) = Ok r)
    as [[w fields] Hv] by (eexists; vm_compute; reflexivity).
  pose proof (by_value_reading float float_scalar pulse_square1d
                init_vel1d
                (λ lx L h, Ref1D.alloc (pulse_square1d (Ref1D.get h lx) L) h)
                (λ lx h, Ref1D.alloc (init_vel1d (Ref1D.get h lx)) h)
                0.5%float 4%float 1%float 1%float ∅ 1 2 Hf Hg) as W.
  rewrite Hr, Hv in W.
  destruct W as (W1 & W2 & W3).
  exists self, h', outs, w, fields.
  split; [exact Hf|]. split; [exact Hg|]. split; [exact Hr|].
  split; [exact Hv|]. split; [exact W1|]. split; [exact W2|exact W3].
Defined.

Lemma shared_arrays_witness :
  ∃ (self : Ref1D.t float) (h' : gmap nat (list float)),
    makes init_vel1d
      (λ lx (h : gmap nat (list float)),
         Ref1D.alloc (init_vel1d (Ref1D.get h lx)) h) ∧
    Ref1D.init (λ lx _ h, (lx, h))
      (λ lx h, Ref1D.alloc (init_vel1d (Ref1D.get h lx)) h)
      0.5%float 4%float 1%float 1%float ∅ = Ok (self, h') ∧
    Ref1D.ux_init self = (Ref1D.x self, Ref1D.x self) ∧
    Ref1D.get h' (Ref1D.x self) = [0; 1; 2; 3; 0]%float ∧
    ∃ xs, np.arange 0%sc (4 + 1)%float 1%float = Ok xs ∧
          Wave1D.bound_standing xs = Ok (Ref1D.get h' (Ref1D.x self)).
Proof.
  assert (makes init_vel1d
            (λ lx (h : gmap nat (list float)),
               Ref1D.alloc (init_vel1d (Ref1D.get h lx)) h))
    as Hg by (by intros lx h _).
  assert (∃ r, Ref1D.init (λ lx _ h, (lx, h))
      (λ lx h, Ref1D.alloc (init_vel1d (Ref1D.get h lx)) h)
      0.5%float 4%float 1%float 1%float ∅ = Ok r) as [[self h'] Hi]
    by (eexists; vm_compute; reflexivity).
  destruct (proj1 (shared_arrays float float_scalar) init_vel1d _
              0.5%float 4%float 1%float 1%float ∅ h' self Hg Hi)
    as (Hux & xs & Hxs & Hb).
  exists self, h'. split; [exact Hg|]. split; [exact Hi|].
  split; [exact Hux|]. split.
  - assert (xs = [0; 1; 2; 3; 4]%float) as ->
      by (vm_compute in Hxs; congruence).
    assert (Wave1D.bound_standing [0; 1; 2; 3; 4]%float
            = Ok [0; 1; 2; 3; 0]%float) as E by reflexivity.
    rewrite E in Hb. by injection Hb as <-.
  - exists xs. by split.
Defined.

(** ** How construction ends *)

Section acceptance.
Context {T : Type} `{Scalar T}.

(** A stable coefficient, a non-empty initial field and a velocity of
    its length are all the constructor asks for. *)
Lemma init_accepts (u_x0 : list T → T → list T) (ut_x0 : list T → list T)
  (dt L dx c : T) x :
  np.arange 0%sc (L + dx)%sc dx = Ok x →
  gtb (c * dt / dx * (c * dt / dx))%sc 1%sc = false →
  length (u_x0 x L) ≠ 0 → length (ut_x0 x) = length (u_x0 x L) →
  ∃ u0 e u1,
    Wave1D.bound_standing (u_x0 x L) = Ok u0 ∧
    Wave1D.first_time dt (c * dt / dx * (c * dt / dx))%sc (ut_x0 x) u0
    = Ok e ∧
    Wave1D.bound_standing e = Ok u1 ∧
    Wave1D.init u_x0 ut_x0 dt L dx c
    = Ok (Wave1D.mk x (c * dt / dx * (c * dt / dx))%sc (0 + dt)%sc dt
            u0 u1 (np.zeros (length u1))).
Proof.
  intros Hx Hg Hn Hv.
  destruct (Wave1D.bound_standing (u_x0 x L)) as [u0|e] eqn:Hu0.
  2: { exfalso. revert Hu0. unfold Wave1D.bound_standing.
       by rewrite decide_False by done. }
  pose proof (bound_standing_length _ _ Hu0) as [Hl0 Hn0].
  exists u0. eexists _, _.
  assert (∀ A B C D : Prop, A → B → C → (A → B → C → D) → A ∧ B ∧ C ∧ D)
    as Hand by tauto.
  apply Hand.
  - done.
  - apply first_time_Ok. split; [lia|done].
  - apply bound_standing_Ok. split; [|done]. np_length.
  - intros _ He Hu1. apply init_Ok. exists x, u0. eexists _, _.
    split_and!; [done|done|done|exact He|exact Hu1|done].
Qed.
End acceptance.



(** ** Not-a-number in binary64 *)

Lemma Prim2SF_nan : Prim2SF nan = S754_nan.
Proof. reflexivity. Qed.

Lemma mul_nan_l (y : float) : (nan * y)%float = nan.
Proof.
  apply Prim2SF_inj. rewrite mul_spec, Prim2SF_nan.
  by destruct (Prim2SF y).
Qed.

Lemma mul_nan_r (y : float) : (y * nan)%float = nan.
Proof.
  apply Prim2SF_inj. rewrite mul_spec, Prim2SF_nan.
  by destruct (Prim2SF y).
Qed.

Lemma div_nan_l (y : float) : (nan / y)%float = nan.
Proof.
  apply Prim2SF_inj. rewrite div_spec, Prim2SF_nan.
  by destruct (Prim2SF y).
Qed.

Lemma add_nan_l (y : float) : (nan + y)%float = nan.
Proof.
  apply Prim2SF_inj. rewrite add_spec, Prim2SF_nan.
  by destruct (Prim2SF y).
Qed.

Lemma add_nan_r (y : float) : (y + nan)%float = nan.
Proof.
  apply Prim2SF_inj. rewrite add_spec, Prim2SF_nan.
  by destruct (Prim2SF y).
Qed.

Lemma sub_nan_r (y : float) : (y - nan)%float = nan.
Proof.
  apply Prim2SF_inj. rewrite sub_spec, Prim2SF_nan.
  by destruct (Prim2SF y).
Qed.

(** X16.  A wave speed or a time step that is not a number passes the
    stability test of the 1-D stepper in binary64: [alpha2] is NaN, the
    comparison [alpha2 > 1] is false, a stepper is returned, and every
    interior sample of its current level is NaN. *)
Theorem nan_passes_the_gate :
  ∀ (u_x0 : list float → float → list float)
    (ut_x0 : list float → list float) (dt L dx c : float) x,
    np.arange 0%sc (L + dx)%sc dx = Ok x →
    length (u_x0 x L) ≠ 0 → length (ut_x0 x) = length (u_x0 x L) →
    (∃ w, Wave1D.init u_x0 ut_x0 dt L dx nan = Ok w ∧
          Wave1D.alpha2 w = nan ∧
          ∀ i : nat, 0 < i < length (Wave1D.u_ti w) - 1 →
            Wave1D.u_ti w !! i = Some nan) ∧
    (∃ w, Wave1D.init u_x0 ut_x0 nan L dx c = Ok w ∧
          Wave1D.alpha2 w = nan ∧ Wave1D.time w = nan ∧
          ∀ i : nat, 0 < i < length (Wave1D.u_ti w) - 1 →
            Wave1D.u_ti w !! i = Some nan).
Proof.
  intros u_x0 ut_x0 dt L dx c x Hx Hn Hv.
  assert (∀ (dt' c' : float),
            (c' * dt' / dx * (c' * dt' / dx))%sc = nan →
            ∃ w, Wave1D.init u_x0 ut_x0 dt' L dx c' = Ok w ∧
                 Wave1D.alpha2 w = nan ∧ Wave1D.time w = (0 + dt')%sc ∧
                 ∀ i : nat, 0 < i < length (Wave1D.u_ti w) - 1 →
                   Wave1D.u_ti w !! i = Some nan) as Hnan.
  { intros dt' c' Ha.
    destruct (init_accepts u_x0 ut_x0 dt' L dx c' x Hx) as
      (u0 & e & u1 & Hu0 & He & Hu1 & Hw); [by rewrite Ha|done..|].
    pose proof (bound_standing_length _ _ Hu0) as [Hl0 Hn0].
    pose proof (bound_standing_length _ _ Hu1) as [Hl1 _].
    pose proof (first_time_length _ _ _ _ _ He) as Hle.
    eexists. split; [exact Hw|].
    cbn [Wave1D.alpha2 Wave1D.time Wave1D.u_ti].
    split; [done|]. split; [done|]. intros i Hi.
    rewrite (bound_standing_interior _ _ _ Hu1) by lia.
    rewrite lookup_item by lia. f_equal.
    rewrite (first_time_item _ _ _ _ _ _ He) by lia. rewrite Ha.
    cbn [add sub mul half float_scalar].
    by rewrite sub_nan_r, mul_nan_l, add_nan_r, add_nan_l. }
  split.
  - destruct (Hnan dt nan) as (w & Hw & Ha & _ & Hi).
    { cbn [mul div float_scalar]. by rewrite !mul_nan_l, !div_nan_l. }
    by exists w.
  - destruct (Hnan nan c) as (w & Hw & Ha & Ht & Hi).
    { cbn [mul div float_scalar].
      by rewrite !mul_nan_r, !div_nan_l, mul_nan_l. }
    exists w. split_and!; [done|done| |done].
    rewrite Ht. cbn [add float_scalar]. apply add_nan_r.
Qed.

Lemma nan_passes_the_gate_witness :
  ∃ x : list float,
    np.arange 0%sc (4 + 1)%float 1%float = Ok x ∧
    length (pulse_square1d x 4%float) ≠ 0 ∧
    length (init_vel1d x) = length (pulse_square1d x 4%float) ∧
    ∃ w, Wave1D.init pulse_square1d init_vel1d 0.5%float 4%float 1%float nan
         = Ok w ∧
         Wave1D.alpha2 w = nan ∧
         ∀ i : nat, 0 < i < length (Wave1D.u_ti w) - 1 →
           Wave1D.u_ti w !! i = Some nan.
Proof.
  assert (np.arange 0%sc (4 + 1)%float 1%float = Ok [0; 1; 2; 3; 4]%float)
    as Hx by (vm_compute; reflexivity).
  assert (length (pulse_square1d [0; 1; 2; 3; 4]%float 4%float) ≠ 0) as Hn
    by (simpl; lia).
  exists [0; 1; 2; 3; 4]%float. split; [exact Hx|]. split; [exact Hn|].
  split; [reflexivity|].
  exact (proj1 (nan_passes_the_gate pulse_square1d init_vel1d 0.5%float
                  4%float 1%float 1%float _ Hx Hn eq_refl)).
Defined.



(** ** The script at the terminal *)

Section script_facts.
Import wave_project.
Context {F : Type}.
Variable func_list : list (string * F).
Variable int : string → option Z.
Variable wave1d_ani wave2d_ani : string * F → world → bool * list string.
Implicit Types (w : world) (d : gmap Z (string * F)) (fuel : nat)
  (funcs : list (string * F)).

Lemma stdout_prints lines w :
  stdout (prints lines w) = stdout w ++ (Line <$> lines).
Proof.
  revert w. induction lines as [|l lines IH]; intros w; cbn.
  - by rewrite app_nil_r.
  - unfold prints in IH. rewrite IH. cbn. by rewrite <- app_assoc.
Qed.

Lemma stdin_prints lines w : stdin (prints lines w) = stdin w.
Proof.
  revert w. induction lines as [|l lines IH]; intros w; cbn; [done|].
  unfold prints in IH. by rewrite IH.
Qed.

Lemma enumerate_from_lookup funcs (k : nat) (z : Z) :
  (list_to_map (imap (λ n elem, (Z.of_nat (k + n), elem)) funcs)
     : gmap Z (string * F)) !! z =
  if bool_decide (Z.of_nat k ≤ z < Z.of_nat (k + length funcs))%Z
  then funcs !! Z.to_nat (z - Z.of_nat k) else None.
Proof.
  revert k. induction funcs as [|f funcs IH]; intros k.
  - cbn. rewrite lookup_empty. by case_bool_decide.
  - rewrite imap_cons. cbn [list_to_map foldr fst snd].
    destruct (decide (z = Z.of_nat (k + 0))) as [->|Hne].
    + rewrite lookup_insert_eq. rewrite bool_decide_eq_true_2 by (cbn; lia).
      by replace (Z.to_nat _) with 0 by lia.
    + rewrite lookup_insert_ne by done.
      erewrite (imap_ext _ (λ n elem, (Z.of_nat (S k + n), elem)));
        last (intros; cbn; do 2 f_equal; lia).
      rewrite IH. cbn [length].
      repeat case_bool_decide; try lia; try done.
      replace (Z.to_nat (z - Z.of_nat k)) with (S (Z.to_nat (z - Z.of_nat (S k))))
        by lia.
      done.
Qed.

Lemma enumerate_lookup funcs (z : Z) :
  enumerate funcs !! z =
  if bool_decide (0 ≤ z < Z.of_nat (length funcs))%Z
  then funcs !! Z.to_nat z else None.
Proof.
  pose proof (enumerate_from_lookup funcs 0 z) as H.
  cbn [Nat.add] in H. change (Z.of_nat 0) with 0%Z in H.
  by rewrite Z.sub_0_r in H.
Qed.

Lemma enumerate_dom funcs (z : Z) :
  z ∈ dom (enumerate funcs) ↔ (0 ≤ z < Z.of_nat (length funcs))%Z.
Proof.
  rewrite elem_of_dom, enumerate_lookup. case_bool_decide as Hz.
  - split; [done|]. intros _. apply lookup_lt_is_Some. lia.
  - split; [intros []; done|done].
Qed.

(** One round of the number loop. *)
Lemma choose_eq funcs w :
  choose int (enumerate funcs) w =
  match stdin w with
  | [] => Some (Continue,
                World [] (stdout w ++ turned_down [""]))
  | line :: rest =>
      match picks int (length funcs) line with
      | Some n => Some (Break (Z.of_nat n),
                        World rest (stdout w ++ [Prompt "
> "]))
      | None => Some (Continue,
                      World rest (stdout w ++ turned_down [line]))
      end
  end.
Proof.
  unfold choose, input, picks, turned_down.
  destruct (stdin w) as [|line rest]; cbn.
  - unfold print; cbn. by rewrite <- app_assoc.
  - destruct (int line) as [z|]; cbn.
    + case_bool_decide as Hd; rewrite enumerate_dom in Hd.
      * rewrite bool_decide_eq_true_2 by done. by rewrite Z2Nat.id by lia.
      * rewrite bool_decide_eq_false_2 by done.
        unfold print; cbn. by rewrite <- app_assoc.
    + unfold print; cbn. by rewrite <- app_assoc.
Qed.

Lemma turned_down_app (a b : list string) :
  turned_down (a ++ b) = turned_down a ++ turned_down b.
Proof. unfold turned_down. by rewrite bind_app. Qed.

(** The number loop leaves at the first line that picks an entry. *)
Lemma number_loop_leaves funcs bad good rest n o fuel :
  Forall (λ l, picks int (length funcs) l = None) bad →
  picks int (length funcs) good = Some n →
  length bad < fuel →
  while_true fuel (choose int (enumerate funcs))
    (World (bad ++ good :: rest) o) =
  Some (Z.of_nat n, World rest (o ++ turned_down bad ++ [Prompt "
> "])).
Proof.
  intros Hbad Hgood. revert o fuel.
  induction Hbad as [|b bad Hb Hbad IH]; intros o fuel Hfuel;
    (destruct fuel as [|fuel]; [cbn in Hfuel; lia|]);
    cbn [while_true]; rewrite choose_eq; cbn [stdin stdout app].
  - by rewrite Hgood.
  - rewrite Hb. rewrite IH by (cbn in Hfuel; lia).
    change (b :: bad) with ([b] ++ bad).
    rewrite (turned_down_app [b] bad). by rewrite <- !app_assoc.
Qed.

(** The number loop never leaves when no line picks an entry. *)
Lemma number_loop_spins funcs w fuel :
  Forall (λ l, picks int (length funcs) l = None) (stdin w) →
  while_true fuel (choose int (enumerate funcs)) w = None.
Proof.
  revert w. induction fuel as [|fuel IH]; intros w Hbad; [done|].
  cbn [while_true]. rewrite choose_eq.
  destruct (stdin w) as [|line rest] eqn:Hin.
  - apply IH. cbn. constructor.
  - inversion Hbad as [|?? Hl Hrest]; subst. rewrite Hl.
    apply IH. done.
Qed.

(** The number loop only uses up input. *)
Lemma number_loop_suffix funcs w fuel z w' :
  while_true fuel (choose int (enumerate funcs)) w = Some (z, w') →
  stdin w' `suffix_of` stdin w.
Proof.
  revert w. induction fuel as [|fuel IH]; intros w; [done|].
  cbn [while_true]. rewrite choose_eq.
  destruct (stdin w) as [|line rest] eqn:Hin.
  - intros H%IH. cbn in H. done.
  - destruct (picks _ _ line).
    + intros [= <- <-]. cbn. by apply suffix_cons_r.
    + intros H%IH. cbn in H. by apply suffix_cons_r.
Qed.

Lemma prints_World lines i o :
  prints lines (World i o) = World i (o ++ (Line <$> lines)).
Proof.
  revert o. induction lines as [|l lines IH]; intros o; cbn.
  - by rewrite app_nil_r.
  - unfold prints in IH. unfold print; cbn. rewrite IH.
    by rewrite <- app_assoc.
Qed.

Lemma picks_Some (k n : nat) line :
  picks int k line = Some n → n < k ∧ int line = Some (Z.of_nat n).
Proof.
  unfold picks. destruct (int line) as [z|]; [|done].
  case_bool_decide; [|done]. intros [= <-].
  split; [lia|]. f_equal. lia.
Qed.

Lemma enumerate_pick funcs (n : nat) f :
  funcs !! n = Some f → enumerate funcs !! Z.of_nat n = Some f.
Proof.
  intros Hf. rewrite enumerate_lookup.
  pose proof (lookup_lt_Some _ _ _ Hf).
  rewrite bool_decide_eq_true_2 by lia. by rewrite Nat2Z.id.
Qed.

(** The menus: heading, entries, then the number loop. *)
Lemma user_1d_eq fuel i o :
  user_1d func_list int wave1d_ani fuel (World i o) =
  let funcs := offered "pulse" func_list in
  match while_true fuel (choose int (enumerate funcs))
          (World i (o ++ menu
             ["So you chose to see one of our 1D demonstrations! Great!";
              "What initial pulse would you like to see in the animation:";
              "Enter the number corresponding to that pulse.
"] funcs)) with
  | None => None
  | Some (pulse, w) =>
      match enumerate funcs !! pulse with
      | Some function =>
          Some ((wave1d_ani function w).1,
                prints (wave1d_ani function w).2 w)
      | None => Some (false, w)
      end
  end.
Proof.
  unfold user_1d, show, menu, print. cbn [stdin stdout].
  rewrite prints_World. rewrite fmap_app, <- !app_assoc.
  cbn [fmap list_fmap app]. unfold offered. cbn [String.length].
  destruct (while_true _ _ _) as [[pulse w]|]; [|done].
  destruct (_ !! pulse) as [f|]; [|done].
  by destruct (wave1d_ani f w).
Qed.

Lemma user_2d_eq fuel i o :
  user_2d func_list int wave2d_ani fuel (World i o) =
  let funcs := offered "wave" func_list in
  match while_true fuel (choose int (enumerate funcs))
          (World i (o ++ menu
             ["Moving into the interesting stuff, eh? Awesome!";
              "What initial wave would you like to see in the animation:";
              "Enter the number corresponding to that wave.
"] funcs)) with
  | None => None
  | Some (option, w) =>
      match enumerate funcs !! option with
      | Some function =>
          Some ((wave2d_ani function w).1,
                prints (wave2d_ani function w).2 w)
      | None => Some (false, w)
      end
  end.
Proof.
  unfold user_2d, show, menu, print. cbn [stdin stdout].
  rewrite prints_World. rewrite fmap_app, <- !app_assoc.
  cbn [fmap list_fmap app]. unfold offered. cbn [String.length].
  destruct (while_true _ _ _) as [[pulse w]|]; [|done].
  destruct (_ !! pulse) as [f|]; [|done].
  by destruct (wave2d_ani f w).
Qed.

Lemma user_1d_suffix fuel w b w' :
  user_1d func_list int wave1d_ani fuel w = Some (b, w') →
  stdin w' `suffix_of` stdin w.
Proof.
  destruct w as [i o]. rewrite user_1d_eq. cbn zeta.
  destruct (while_true _ _ _) as [[z w1]|] eqn:Hloop; [|done].
  apply number_loop_suffix in Hloop. cbn in Hloop.
  destruct (_ !! z) as [f|].
  - intros [= <- <-]. by rewrite stdin_prints.
  - by intros [= <- <-].
Qed.

Lemma user_2d_suffix fuel w b w' :
  user_2d func_list int wave2d_ani fuel w = Some (b, w') →
  stdin w' `suffix_of` stdin w.
Proof.
  destruct w as [i o]. rewrite user_2d_eq. cbn zeta.
  destruct (while_true _ _ _) as [[z w1]|] eqn:Hloop; [|done].
  apply number_loop_suffix in Hloop. cbn in Hloop.
  destruct (_ !! z) as [f|].
  - intros [= <- <-]. by rewrite stdin_prints.
  - by intros [= <- <-].
Qed.

Lemma picks_shorter (k k' : nat) line :
  k ≤ k' → picks int k' line = None → picks int k line = None.
Proof.
  unfold picks. destruct (int line) as [z|]; [|done]. intros Hk.
  repeat case_bool_decide; try done; lia.
Qed.

Lemma length_offered prefix : length (offered prefix func_list) ≤ length func_list.
Proof. apply length_filter. Qed.

Lemma lower_cases (c : Ascii.ascii) :
  (bool_decide (lower c = "t"%char ∨ c = "2"%char) = true →
   bool_decide (lower c = "o"%char ∨ c = "1"%char) = false) ∧
  (bool_decide (lower c = "q"%char) = true →
   bool_decide (lower c = "o"%char ∨ c = "1"%char) = false ∧
   bool_decide (lower c = "t"%char ∨ c = "2"%char) = false).
Proof.
  destruct c as [[] [] [] [] [] [] [] []]; vm_compute; intuition congruence.
Qed.

(** One round of [main], by the first character of the answer. *)
Lemma main_round_end fuel o :
  main_round func_list int wave1d_ani wave2d_ani fuel (World [] o) =
  Some (Continue,
        World [] (o ++ asked
                    ++ [Line "Please specify if you want '1' or '2' dimensions."])).
Proof.
  unfold main_round, input, print, asked. cbn. by rewrite <- !app_assoc.
Qed.

Lemma main_round_idle fuel answer rest o :
  idle answer = true →
  main_round func_list int wave1d_ani wave2d_ani fuel
    (World (answer :: rest) o) =
  Some (Continue, World rest (o ++ asked ++ [Line (reply answer)])).
Proof.
  unfold idle, reply, main_round, input, print, asked. cbn [stdin stdout].
  destruct (String.get 0 answer) as [c|]; cbn.
  - intros (H1 & H2 & H3 & H4 & H5)%bool_decide_eq_true.
    rewrite !bool_decide_eq_false_2 by tauto.
    by rewrite <- !app_assoc.
  - intros _. by rewrite <- !app_assoc.
Qed.

Lemma main_round_quit fuel answer rest o :
  quits answer →
  main_round func_list int wave1d_ani wave2d_ani fuel
    (World (answer :: rest) o) =
  Some (Break (),
        World rest (o ++ asked
          ++ [Line "Thank you for looking through our demonstrations!";
              Line "Bye!"])).
Proof.
  intros (c & Hc & Hq). unfold main_round, input, print, asked.
  cbn [stdin stdout]. rewrite Hc.
  destruct (lower_cases c) as [_ Hl].
  destruct Hl as [-> ->]; [by apply bool_decide_eq_true|].
  rewrite bool_decide_eq_true_2 by done. cbn. by rewrite <- !app_assoc.
Qed.

Lemma main_round_2d fuel answer rest o :
  first_is (λ c, lower c = "t"%char ∨ c = "2"%char) answer →
  main_round func_list int wave1d_ani wave2d_ani fuel
    (World (answer :: rest) o) =
  match user_2d func_list int wave2d_ani fuel (World rest (o ++ asked)) with
  | None => None
  | Some (returned, w) =>
      Some (Continue,
            World (stdin w)
              (stdout w ++
               if returned then []
               else [Line "Please specify if you want '1' or '2' dimensions."]))
  end.
Proof.
  intros (c & Hc & Ht). unfold main_round, input, print, asked.
  cbn [stdin stdout]. rewrite Hc.
  destruct (lower_cases c) as [Hl _].
  rewrite Hl by (by apply bool_decide_eq_true).
  rewrite bool_decide_eq_true_2 by done. rewrite <- !app_assoc. cbn [app].
  destruct (user_2d _ _ _ _ _) as [[[] [i' o']]|]; cbn; [|done..].
  by rewrite app_nil_r.
Qed.

(** A round of [main] only uses up input, and leaves the loop only on
    an answer that begins with q or Q. *)
Lemma main_round_cases fuel w fl w' :
  main_round func_list int wave1d_ani wave2d_ani fuel w = Some (fl, w') →
  stdin w' `suffix_of` stdin w ∧
  (fl = Break () →
   ∃ answer pre, stdin w = answer :: stdin w' ∧ quits answer ∧
     stdout w' = pre ++ [Line "Thank you for looking through our demonstrations!";
                         Line "Bye!"]).
Proof.
  destruct w as [i o]. unfold main_round, input. cbn [stdin stdout print].
  destruct i as [|answer rest]; cbn [stdin stdout].
  { intros [= <- <-]. done. }
  destruct (String.get 0 answer) as [c|] eqn:Hc; cbn [stdin stdout].
  2:{ intros [= <- <-]. split; [by apply suffix_cons_r|done]. }
  case_bool_decide as H1.
  { destruct (user_1d _ _ _ _ _) as [[[] w1]|] eqn:Hu; [| |done];
      apply user_1d_suffix in Hu; cbn in Hu;
      intros [= <- <-]; (split; [by apply suffix_cons_r|done]). }
  case_bool_decide as H2.
  { destruct (user_2d _ _ _ _ _) as [[[] w1]|] eqn:Hu; [| |done];
      apply user_2d_suffix in Hu; cbn in Hu;
      intros [= <- <-]; (split; [by apply suffix_cons_r|done]). }
  case_bool_decide as H3.
  - intros [= <- <-]. cbn. split; [by apply suffix_cons_r|]. intros _.
    eexists answer, _. split; [done|]. split; [by exists c|].
    unfold print; cbn. rewrite <- app_assoc. cbn. done.
  - intros [= <- <-]. split; [by apply suffix_cons_r|done].
Qed.

Lemma main_returns fuel fuel' w u w' :
  while_true fuel (main_round func_list int wave1d_ani wave2d_ani fuel') w
    = Some (u, w') →
  ∃ answer pre, answer ∈ stdin w ∧ quits answer ∧
    stdin w' `suffix_of` stdin w ∧
    stdout w' = pre ++ [Line "Thank you for looking through our demonstrations!";
                        Line "Bye!"].
Proof.
  destruct u. revert w. induction fuel as [|fuel IH]; intros w; [done|].
  cbn [while_true].
  destruct (main_round _ _ _ _ _ w) as [[[[]|] w1]|] eqn:Hr; [| |done].
  - intros [= <-]. apply main_round_cases in Hr as [Hs Hb].
    destruct (Hb eq_refl) as (answer & pre & Hin & Hq & Hout).
    exists answer, pre. rewrite Hin.
    split; [left|split; [done|split; [by apply suffix_cons_r|done]]].
  - intros (answer & pre & Hin & Hq & Hs & Hout)%IH.
    apply main_round_cases in Hr as [Hs1 _].
    exists answer, pre. split; [|split; [done|split; [by etrans|done]]].
    destruct Hs1 as [k ->]. apply elem_of_app. by right.
Qed.

(** X17 (wave_project.py, user_1d): the menu of the 1-D demonstrations
    lists the functions whose name begins with "pulse", numbered from 0
    in the order of [func_list]; every line that is not one of these
    numbers is answered with "Please enter a valid integer."; the first
    line that is one starts [wave1d_ani] on the function with that
    number; and [user_1d] returns or raises as [wave1d_ani] does. *)
Theorem number_starts_the_pulse (bad : list string) (good : string)
  (rest : list string) (n : nat) (f : string * F) (o : list out) (fuel : nat) :
  let funcs := offered "pulse" func_list in
  let w1 :=
    World rest
      (o ++ menu ["So you chose to see one of our 1D demonstrations! Great!";
                  "What initial pulse would you like to see in the animation:";
                  "Enter the number corresponding to that pulse.
"] funcs ++ turned_down bad ++ [Prompt "
> "]) in
  Forall (λ l, picks int (length funcs) l = None) bad →
  picks int (length funcs) good = Some n →
  funcs !! n = Some f →
  length bad < fuel →
  user_1d func_list int wave1d_ani fuel (World (bad ++ good :: rest) o) =
  Some ((wave1d_ani f w1).1, prints (wave1d_ani f w1).2 w1).
Proof.
  intros funcs w1 Hbad Hgood Hf Hfuel. rewrite user_1d_eq. cbn zeta.
  fold funcs.
  rewrite (number_loop_leaves funcs bad good rest n) by done.
  rewrite (enumerate_pick _ _ _ Hf). subst w1.
  by rewrite <- !app_assoc.
Qed.

(** X18 (wave_project.py, user_1d and user_2d): when no line left on
    standard input is a number from 0 up to the number of functions in
    [func_list], neither menu is ever left: the loop answers every line
    with the same message, and goes on doing so at the end of input. *)
Theorem menu_without_way_out (w : world) (fuel : nat) :
  Forall (λ l, picks int (length func_list) l = None) (stdin w) →
  user_1d func_list int wave1d_ani fuel w = None ∧
  user_2d func_list int wave2d_ani fuel w = None.
Proof.
  intros Hbad. destruct w as [i o]. cbn in Hbad.
  rewrite user_1d_eq, user_2d_eq. cbn zeta.
  rewrite !number_loop_spins; [done| |].
  - cbn. eapply Forall_impl; [exact Hbad|]. intros l.
    apply picks_shorter, length_offered.
  - cbn. eapply Forall_impl; [exact Hbad|]. intros l.
    apply picks_shorter, length_offered.
Qed.

(** X19 (wave_project.py, main and user_2d): an answer that begins with
    t, T or 2 opens the menu of the functions whose name begins with
    "wave"; after the animation the loop of [main] goes round again, and
    when the animation raised, whatever the error, all that is reported
    is "Please specify if you want '1' or '2' dimensions.". *)
Theorem failure_reported_as_bad_answer (answer : string)
  (bad : list string) (good : string) (rest : list string) (n : nat)
  (f : string * F) (o : list out) (fuel : nat) :
  let funcs := offered "wave" func_list in
  let w1 :=
    World rest
      (o ++ asked
         ++ menu ["Moving into the interesting stuff, eh? Awesome!";
                  "What initial wave would you like to see in the animation:";
                  "Enter the number corresponding to that wave.
"] funcs ++ turned_down bad ++ [Prompt "
> "]) in
  first_is (λ c, lower c = "t"%char ∨ c = "2"%char) answer →
  Forall (λ l, picks int (length funcs) l = None) bad →
  picks int (length funcs) good = Some n →
  funcs !! n = Some f →
  length bad < fuel →
  main_round func_list int wave1d_ani wave2d_ani fuel
    (World (answer :: bad ++ good :: rest) o) =
  Some (Continue,
        World rest
          (stdout w1 ++ (Line <$> (wave2d_ani f w1).2) ++
           if (wave2d_ani f w1).1 then []
           else [Line "Please specify if you want '1' or '2' dimensions."])).
Proof.
  intros funcs w1 Ha Hbad Hgood Hf Hfuel.
  rewrite main_round_2d by done. rewrite user_2d_eq. cbn zeta. fold funcs.
  rewrite (number_loop_leaves funcs bad good rest n) by done.
  rewrite (enumerate_pick _ _ _ Hf).
  rewrite <- !app_assoc. fold w1.
  rewrite stdin_prints, stdout_prints. subst w1. cbn [stdin stdout].
  by rewrite <- !app_assoc.
Qed.

(** X20 (wave_project.py, start_message and main): the program stops in
    two ways only.  With a traceback, when standard input is at its end
    before the greeting is acknowledged.  Or regularly: then a line
    after the first one begins with q or Q, and the last two lines
    written are the farewell.  In particular the program never stops
    when its input holds no such line. *)
Theorem program_ends (fuel : nat) (w w' : world) (returned : bool) :
  program func_list int wave1d_ani wave2d_ani fuel w = Some (returned, w') →
  if returned then
    ∃ first rest answer pre,
      stdin w = first :: rest ∧ answer ∈ rest ∧ quits answer ∧
      stdin w' `suffix_of` rest ∧
      stdout w' =
        pre ++ [Line "Thank you for looking through our demonstrations!";
                Line "Bye!"]
  else stdin w = [] ∧ stdin w' = [].
Proof.
  unfold program, start_message, input. cbn [stdin stdout print].
  destruct (stdin w) as [|first rest] eqn:Hin; cbn.
  - by intros [= <- <-].
  - destruct (main _ _ _ _ _ _) as [[u w1]|] eqn:Hm; [|done].
    intros [= <- <-]. unfold main in Hm.
    apply main_returns in Hm as (answer & pre & Ha & Hq & Hs & Hout).
    cbn in Ha, Hs. by exists first, rest, answer, pre.
Qed.

(** X21 (wave_project.py, main): answers that begin with none of o, O,
    1, t, T, 2, q, Q are each answered with "Sorry, '...' is not an
    option.", an empty answer with "Please specify if you want '1' or
    '2' dimensions."; the first answer that begins with q or Q, whatever
    follows the letter, ends [main] with the farewell, and the lines
    after it stay unread. *)
Theorem main_until_q (answers : list string) (q : string)
  (rest : list string) (o : list out) (fuel : nat) :
  Forall (λ a, idle a = true) answers →
  quits q →
  length answers < fuel →
  main func_list int wave1d_ani wave2d_ani fuel
    (World (answers ++ q :: rest) o) =
  Some ((),
        World rest
          (o ++ (answers ≫= λ a, asked ++ [Line (reply a)]) ++ asked
             ++ [Line "Thank you for looking through our demonstrations!";
                 Line "Bye!"])).
Proof.
  intros Hidle Hq. unfold main. generalize fuel at 3 as fuel'.
  revert o fuel.
  induction Hidle as [|a answers Ha Hidle IH]; intros o fuel fuel' Hfuel;
    (destruct fuel as [|fuel]; [cbn in Hfuel; lia|]); cbn [while_true app].
  - by rewrite main_round_quit.
  - rewrite main_round_idle by done. rewrite IH by (cbn in Hfuel; lia).
    cbn [mbind list_bind]. by rewrite <- !app_assoc.
Qed.
End script_facts.

Lemma number_starts_the_pulse_witness :
  ∃ o, wave_project.user_1d shipped int_plain animation_closed 4
         (wave_project.World (["x"; "-1"; ""] ++ "1" :: ["q"]) []) =
       Some (true, wave_project.World ["q"] o).
Proof.
  eexists. etrans.
  - apply (number_starts_the_pulse shipped int_plain animation_closed
             ["x"; "-1"; ""] "1" ["q"] 1 ("pulse_square1d", ()) [] 4).
    + repeat constructor.
    + vm_compute; reflexivity.
    + vm_compute; reflexivity.
    + vm_compute; lia.
  - vm_compute; reflexivity.
Defined.

Lemma menu_without_way_out_witness :
  wave_project.user_1d shipped int_plain animation_closed 100
    (wave_project.World ["one"; "-1"; "10"] []) = None ∧
  wave_project.user_2d shipped int_plain animation_closed 100
    (wave_project.World ["one"; "-1"; "10"] []) = None.
Proof.
  apply (menu_without_way_out shipped int_plain animation_closed
           animation_closed (wave_project.World ["one"; "-1"; "10"] []) 100).
  repeat constructor.
Defined.

Lemma failure_reported_as_bad_answer_witness :
  ∃ o, wave_project.main_round shipped int_plain animation_closed
         animation_failed 2
         (wave_project.World ("Two" :: ["5"] ++ "2" :: ["q"]) []) =
       Some (wave_project.Continue, wave_project.World ["q"] o) ∧
       list.last o =
       Some (wave_project.Line
               "Please specify if you want '1' or '2' dimensions.").
Proof.
  eexists. split.
  - etrans.
    + apply (failure_reported_as_bad_answer shipped int_plain
               animation_closed animation_failed "Two" ["5"] "2" ["q"] 2
               ("wave_polynomial2d", ()) [] 2).
      * exists "T"%char. split; [reflexivity|left; reflexivity].
      * repeat constructor.
      * vm_compute; reflexivity.
      * vm_compute; reflexivity.
      * vm_compute; lia.
    + vm_compute; reflexivity.
  - vm_compute; reflexivity.
Defined.

Lemma program_ends_witness :
  ∃ answer, answer ∈ ["quit"; "never read"] ∧ quits answer.
Proof.
  assert (∃ w', wave_project.program shipped int_plain animation_closed
                  animation_closed 3
                  (wave_project.World [""; "quit"; "never read"] [])
                = Some (true, w')) as [w' Hp]
    by (eexists; vm_compute; reflexivity).
  destruct (program_ends shipped int_plain animation_closed animation_closed
              _ _ _ _ Hp)
    as (first & rest & answer & pre & Hin & Ha & Hq & _).
  injection Hin as <- <-. exists answer. split; [exact Ha|exact Hq].
Defined.

Lemma main_until_q_witness :
  ∃ o, wave_project.main shipped int_plain animation_closed animation_closed 3
         (wave_project.World (["x"; ""] ++ "Quit" :: ["never read"]) []) =
       Some ((), wave_project.World ["never read"] o).
Proof.
  eexists.
  apply (main_until_q shipped int_plain animation_closed animation_closed
           ["x"; ""] "Quit" ["never read"] [] 3).
  - repeat constructor.
  - exists "Q"%char. split; reflexivity.
  - vm_compute; lia.
Defined.

(** ** The sheet: samples, locality, reversal, superposition, axes *)

Section sheet.
Context {T : Type} `{Scalar T}.
Implicit Types a b u v e r : list (list T).
Implicit Types w : Wave2D.t T.

Lemma item2_lookup a (i j : nat) row :
  a !! i = Some row → item2 a (Z.of_nat i) (Z.of_nat j) = item row (Z.of_nat j).
Proof. intros Hrow. unfold item2. by rewrite (circ_lookup _ _ _ _ Hrow). Qed.

(** The sample of a reset array at row [i], column [j]. *)
Lemma item2_pin2 n m a (i j : nat) :
  rect n m a → i < n → j < m →
  item2 (pin2 n m a) (Z.of_nat i) (Z.of_nat j)
  = if decide (i = 0 ∨ i = n - 1 ∨ j = 0 ∨ j = m - 1) then 0%sc
    else item2 a (Z.of_nat i) (Z.of_nat j).
Proof.
  intros Ha Hi Hj. pose proof Ha as [Hn _].
  destruct (lookup_lt_is_Some_2 a i) as [row Hrow]; [lia|].
  pose proof (rect_lookup _ _ _ _ _ Ha Hrow) as Hm.
  rewrite (item2_lookup a i j row Hrow).
  rewrite (item2_lookup (pin2 n m a) i j
             (if decide (i = 0 ∨ i = n - 1) then np.zeros m
              else <[m - 1 := 0%sc]> (<[0 := 0%sc]> row))).
  2:{ unfold pin2. rewrite list_lookup_imap, Hrow. done. }
  destruct (decide (i = 0 ∨ i = n - 1)) as [Hb|Hb].
  - rewrite decide_True by tauto. apply item_lookup.
    apply lookup_replicate_2. done.
  - destruct (decide (j = m - 1)) as [->|Hj1].
    { rewrite decide_True by tauto. apply item_lookup.
      apply list_lookup_insert_eq. rewrite length_insert. lia. }
    destruct (decide (j = 0)) as [->|Hj0].
    { rewrite decide_True by tauto. apply item_lookup.
      rewrite list_lookup_insert_ne by done.
      apply list_lookup_insert_eq. lia. }
    rewrite decide_False by tauto. apply item_lookup.
    rewrite !list_lookup_insert_ne by done. apply lookup_item. lia.
Qed.



Lemma lookup2_item2 n m a (i j : nat) :
  rect n m a → i < n → j < m →
  a !! i ≫= (.!! j) = Some (item2 a (Z.of_nat i) (Z.of_nat j)).
Proof.
  intros Ha Hi Hj. pose proof Ha as [Hn _].
  destruct (lookup_lt_is_Some_2 a i) as [row Hrow]; [lia|].
  pose proof (rect_lookup _ _ _ _ _ Ha Hrow) as Hm.
  rewrite (item2_lookup a i j row Hrow), Hrow. cbn.
  apply lookup_item. lia.
Qed.

Lemma lookup2_outside n m a (i j : nat) :
  rect n m a → ¬ (i < n ∧ j < m) → a !! i ≫= (.!! j) = None.
Proof.
  intros Ha Hij. pose proof Ha as [Hn _].
  destruct (a !! i) as [row|] eqn:Hrow; [|done]. cbn.
  pose proof (rect_lookup _ _ _ _ _ Ha Hrow) as Hm.
  pose proof (lookup_lt_Some _ _ _ Hrow).
  apply lookup_ge_None_2. lia.
Qed.

Lemma agree2_weaken lo hi lo' hi' l h l' h' u v :
  (lo ≤ l)%Z → (h ≤ hi)%Z → (lo' ≤ l')%Z → (h' ≤ hi')%Z →
  agree2 lo hi lo' hi' u v → agree2 l h l' h' u v.
Proof. intros ???? Hag i j ??. apply Hag; lia. Qed.

Lemma item2_agree2 n m lo hi lo' hi' u v (i j : nat) :
  rect n m u → rect n m v → agree2 lo hi lo' hi' u v →
  i < n → j < m → (lo ≤ Z.of_nat i ≤ hi)%Z → (lo' ≤ Z.of_nat j ≤ hi')%Z →
  item2 u (Z.of_nat i) (Z.of_nat j) = item2 v (Z.of_nat i) (Z.of_nat j).
Proof.
  intros Hu Hv Hag Hi Hj Hwi Hwj. specialize (Hag i j Hwi Hwj).
  rewrite (lookup2_item2 n m u), (lookup2_item2 n m v) in Hag by done.
  congruence.
Qed.

(** Agreement of two arrays of one shape, sample by sample. *)
Lemma agree2_item2 n m lo hi lo' hi' u v :
  rect n m u → rect n m v →
  (∀ i j : nat, i < n → j < m →
     (lo ≤ Z.of_nat i ≤ hi)%Z → (lo' ≤ Z.of_nat j ≤ hi')%Z →
     item2 u (Z.of_nat i) (Z.of_nat j) = item2 v (Z.of_nat i) (Z.of_nat j)) →
  agree2 lo hi lo' hi' u v.
Proof.
  intros Hu Hv Hij i j Hwi Hwj.
  destruct (decide (i < n ∧ j < m)) as [[Hi Hj]|Hout].
  - rewrite (lookup2_item2 n m u), (lookup2_item2 n m v) by done.
    f_equal. by apply Hij.
  - by rewrite (lookup2_outside n m u), (lookup2_outside n m v).
Qed.

Lemma pin2_agree2 n m lo hi lo' hi' u v :
  rect n m u → rect n m v → agree2 lo hi lo' hi' u v →
  agree2 lo hi lo' hi' (pin2 n m u) (pin2 n m v).
Proof.
  intros Hu Hv Hag.
  apply (agree2_item2 n m); [by apply rect_pin2..|].
  intros i j Hi Hj Hwi Hwj. rewrite !item2_pin2 by done.
  case_decide; [done|]. by apply (item2_agree2 n m lo hi lo' hi').
Qed.

(** After the reset, a sample of the next level depends on the sample
    of the older level at its place and on the five samples of the
    current level at and around it. *)
Lemma next_time_agree2 n m lo hi lo' hi' α u0 u1 v0 v1 e e' :
  n ≠ 0 → m ≠ 0 →
  rect n m u1 → rect n m v1 →
  agree2 lo hi lo' hi' u0 v0 →
  agree2 (lo + 1) (hi - 1) (lo' + 1) (hi' - 1) u1 v1 →
  Wave2D.next_time α u0 u1 = Ok e → Wave2D.next_time α v0 v1 = Ok e' →
  agree2 (lo + 2) (hi - 2) (lo' + 2) (hi' - 2) (pin2 n m e) (pin2 n m e').
Proof.
  intros Hn Hm Hu1 Hv1 Hag0 Hag1 He He'.
  pose proof (proj1 (next_time_Ok2 n m _ _ _ _ Hu1) He) as [Hu0 _].
  pose proof (proj1 (next_time_Ok2 n m _ _ _ _ Hv1) He') as [Hv0 _].
  pose proof (next_time_rect _ _ _ _ _ _ Hu1 He) as Hre.
  pose proof (next_time_rect _ _ _ _ _ _ Hv1 He') as Hre'.
  apply (agree2_item2 n m); [by apply rect_pin2..|].
  intros i j Hi Hj Hwi Hwj. rewrite !item2_pin2 by done.
  case_decide as Hb; [done|].
  rewrite (next_time_item2 n m _ _ _ _ _ _ Hu1 Hn Hm He).
  rewrite (next_time_item2 n m _ _ _ _ _ _ Hv1 Hn Hm He').
  replace (Z.of_nat i - 1)%Z with (Z.of_nat (i - 1)) by lia.
  replace (Z.of_nat i + 1)%Z with (Z.of_nat (i + 1)) by lia.
  replace (Z.of_nat j - 1)%Z with (Z.of_nat (j - 1)) by lia.
  replace (Z.of_nat j + 1)%Z with (Z.of_nat (j + 1)) by lia.
  rewrite (item2_agree2 n m lo hi lo' hi' u0 v0 i j) by (done || lia).
  rewrite (item2_agree2 n m _ _ _ _ u1 v1 i j Hu1 Hv1 Hag1) by lia.
  rewrite (item2_agree2 n m _ _ _ _ u1 v1 (i - 1) j Hu1 Hv1 Hag1) by lia.
  rewrite (item2_agree2 n m _ _ _ _ u1 v1 (i + 1) j Hu1 Hv1 Hag1) by lia.
  rewrite (item2_agree2 n m _ _ _ _ u1 v1 i (j - 1) Hu1 Hv1 Hag1) by lia.
  rewrite (item2_agree2 n m _ _ _ _ u1 v1 i (j + 1) Hu1 Hv1 Hag1) by lia.
  done.
Qed.

Lemma first_time_agree2 n m lo hi lo' hi' dt α v v' u u' e e' :
  n ≠ 0 → m ≠ 0 →
  rect n m u → rect n m u' →
  agree2 lo hi lo' hi' u u' → agree2 lo hi lo' hi' v v' →
  Wave2D.first_time dt α v u = Ok e → Wave2D.first_time dt α v' u' = Ok e' →
  agree2 (lo + 1) (hi - 1) (lo' + 1) (hi' - 1) (pin2 n m e) (pin2 n m e').
Proof.
  intros Hn Hm Hu Hu' Hag Hagv He He'.
  pose proof (proj1 (first_time_Ok2 n m _ _ _ _ _ Hu) He) as [Hv _].
  pose proof (proj1 (first_time_Ok2 n m _ _ _ _ _ Hu') He') as [Hv' _].
  pose proof (first_time_rect _ _ _ _ _ _ _ Hu He) as Hre.
  pose proof (first_time_rect _ _ _ _ _ _ _ Hu' He') as Hre'.
  apply (agree2_item2 n m); [by apply rect_pin2..|].
  intros i j Hi Hj Hwi Hwj. rewrite !item2_pin2 by done.
  case_decide as Hb; [done|].
  rewrite (first_time_item2 n m _ _ _ _ _ _ _ Hu Hn Hm He).
  rewrite (first_time_item2 n m _ _ _ _ _ _ _ Hu' Hn Hm He').
  replace (Z.of_nat i - 1)%Z with (Z.of_nat (i - 1)) by lia.
  replace (Z.of_nat i + 1)%Z with (Z.of_nat (i + 1)) by lia.
  replace (Z.of_nat j - 1)%Z with (Z.of_nat (j - 1)) by lia.
  replace (Z.of_nat j + 1)%Z with (Z.of_nat (j + 1)) by lia.
  rewrite (item2_agree2 n m _ _ _ _ v v' i j Hv Hv' Hagv) by lia.
  rewrite (item2_agree2 n m _ _ _ _ u u' i j Hu Hu' Hag) by lia.
  rewrite (item2_agree2 n m _ _ _ _ u u' (i - 1) j Hu Hu' Hag) by lia.
  rewrite (item2_agree2 n m _ _ _ _ u u' (i + 1) j Hu Hu' Hag) by lia.
  rewrite (item2_agree2 n m _ _ _ _ u u' i (j - 1) Hu Hu' Hag) by lia.
  rewrite (item2_agree2 n m _ _ _ _ u u' i (j + 1) Hu Hu' Hag) by lia.
  done.
Qed.

Lemma sub_step_close2 n m lo hi lo' hi' k w1 w1' w2 w2' :
  close2 n m lo hi lo' hi' k w1 w1' →
  Wave2D.sub_step w1 = Ok w2 → Wave2D.sub_step w1' = Ok w2' →
  close2 n m lo hi lo' hi' (S k) w2 w2'.
Proof.
  intros (Ha & Hr0 & Hr0' & Hr1 & Hr1' & Hag0 & Hag1)
    (e & r & He & Hr & ->)%sub_step_Ok2 (e' & r' & He' & Hr' & ->)%sub_step_Ok2.
  rewrite <- Ha in He'.
  pose proof (next_time_rect _ _ _ _ _ _ Hr1 He) as Hre.
  pose proof (next_time_rect _ _ _ _ _ _ Hr1' He') as Hre'.
  apply (bound_standing_Ok2 n m _ _ Hre) in Hr as (Hn & Hm & ->).
  apply (bound_standing_Ok2 n m _ _ Hre') in Hr' as (_ & _ & ->).
  unfold close2; simpl. split_and!; [done|done|done|by apply rect_pin2..|
                                     |].
  - eapply agree2_weaken; [| | | |exact Hag1]; lia.
  - eapply agree2_weaken;
      [| | | |eapply (next_time_agree2 n m (lo + Z.of_nat k) (hi - Z.of_nat k)
                        (lo' + Z.of_nat k) (hi' - Z.of_nat k));
              [exact Hn|exact Hm|exact Hr1|exact Hr1'|exact Hag0|
              |exact He|exact He']]; [lia..|].
    eapply agree2_weaken; [| | | |exact Hag1]; lia.
Qed.

Lemma for_range_close2 n m lo hi lo' hi' k w0 w0' w w' :
  close2 n m lo hi lo' hi' 0 w0 w0' →
  for_range k Wave2D.sub_step w0 = Ok w →
  for_range k Wave2D.sub_step w0' = Ok w' →
  close2 n m lo hi lo' hi' k w w'.
Proof.
  intros H0. revert w w'. induction k as [|k IH]; intros w w'.
  - simpl. by intros [= <-] [= <-].
  - rewrite !for_range_S.
    intros (w1 & H1 & Hw)%bind_Ok (w1' & H1' & Hw')%bind_Ok.
    eapply sub_step_close2; [by apply IH|done..].
Qed.

Lemma init_close2 n m lo hi lo' hi' u_xy0 u_xy0' ut_xy0 ut_xy0'
  (Lx Ly dt dxy c : T) w0 w0' x y :
  np.arange 0%sc (Lx + dxy)%sc dxy = Ok x →
  np.arange 0%sc (Ly + dxy)%sc dxy = Ok y →
  rect n m (u_xy0 x y Lx Ly) → rect n m (u_xy0' x y Lx Ly) →
  agree2 lo hi lo' hi' (u_xy0 x y Lx Ly) (u_xy0' x y Lx Ly) →
  agree2 lo hi lo' hi' (ut_xy0 x y) (ut_xy0' x y) →
  Wave2D.init u_xy0 ut_xy0 Lx Ly dt dxy c = Ok w0 →
  Wave2D.init u_xy0' ut_xy0' Lx Ly dt dxy c = Ok w0' →
  close2 n m lo hi lo' hi' 0 w0 w0'.
Proof.
  intros Hx Hy Hr Hr' Hag Hagv
    (x1 & y1 & u0 & e & u1 & Hx1 & Hy1 & _ & Hu0 & He & Hu1 & ->)%init_Ok2
    (x2 & y2 & u0' & e' & u1' & Hx2 & Hy2 & _ & Hu0' & He' & Hu1' & ->)%init_Ok2.
  assert (x1 = x) as -> by congruence. assert (x2 = x) as -> by congruence.
  assert (y1 = y) as -> by congruence. assert (y2 = y) as -> by congruence.
  apply (bound_standing_Ok2 n m _ _ Hr) in Hu0 as (Hn & Hm & ->).
  apply (bound_standing_Ok2 n m _ _ Hr') in Hu0' as (_ & _ & ->).
  pose proof (rect_pin2 _ _ _ Hr) as Hp. pose proof (rect_pin2 _ _ _ Hr') as Hp'.
  pose proof (first_time_rect _ _ _ _ _ _ _ Hp He) as Hre.
  pose proof (first_time_rect _ _ _ _ _ _ _ Hp' He') as Hre'.
  apply (bound_standing_Ok2 n m _ _ Hre) in Hu1 as (_ & _ & ->).
  apply (bound_standing_Ok2 n m _ _ Hre') in Hu1' as (_ & _ & ->).
  pose proof (pin2_agree2 _ _ _ _ _ _ _ _ Hr Hr' Hag) as Hag0.
  unfold close2; simpl. rewrite !Z.add_0_r, !Z.sub_0_r.
  split_and!; [done|done|done|by apply rect_pin2..|done|].
  exact (first_time_agree2 n m lo hi lo' hi' _ _ _ _ _ _ _ _ Hn Hm Hp Hp' Hag0
           Hagv He He').
Qed.
End sheet.

(** X22.  Numerical domain of dependence of the 2-D scheme.  Two 2-D
    steppers built with the same [Lx], [Ly], [dt], [dxy], [c] from
    initial positions and velocities of one shape that agree in the
    rows [lo..hi] and columns [lo'..hi'] hold, [k] sub-steps later,
    current fields that agree in the rows [lo+1+k..hi-1-k] and columns
    [lo'+1+k..hi'-1-k]: a change of the initial data travels one sample
    per sub-step along either axis, in any arithmetic. *)
Theorem finite_propagation_2d (T : Type) (Sc : Scalar T) :
  ∀ u_xy0 u_xy0' ut_xy0 ut_xy0' (Lx Ly dt dxy c : T) (w0 w0' : Wave2D.t T)
    x y (n m : nat) (lo hi lo' hi' : Z),
    np.arange 0%sc (Lx + dxy)%sc dxy = Ok x →
    np.arange 0%sc (Ly + dxy)%sc dxy = Ok y →
    rect n m (u_xy0 x y Lx Ly) → rect n m (u_xy0' x y Lx Ly) →
    agree2 lo hi lo' hi' (u_xy0 x y Lx Ly) (u_xy0' x y Lx Ly) →
    agree2 lo hi lo' hi' (ut_xy0 x y) (ut_xy0' x y) →
    Wave2D.init u_xy0 ut_xy0 Lx Ly dt dxy c = Ok w0 →
    Wave2D.init u_xy0' ut_xy0' Lx Ly dt dxy c = Ok w0' →
    ∀ (k : nat) w w',
      for_range k Wave2D.sub_step w0 = Ok w →
      for_range k Wave2D.sub_step w0' = Ok w' →
      agree2 (lo + 1 + Z.of_nat k) (hi - 1 - Z.of_nat k)
        (lo' + 1 + Z.of_nat k) (hi' - 1 - Z.of_nat k)
        (Wave2D.u_ti w) (Wave2D.u_ti w').
Proof.
  intros u_xy0 u_xy0' ut_xy0 ut_xy0' Lx Ly dt dxy c w0 w0' x y n m
    lo hi lo' hi' Hx Hy Hr Hr' Hag Hagv Hw0 Hw0' k w w' Hw Hw'.
  pose proof (init_close2 _ _ _ _ _ _ _ _ _ _ _ _ _ _ _ _ _ _ _
                Hx Hy Hr Hr' Hag Hagv Hw0 Hw0') as H0.
  by destruct (for_range_close2 _ _ _ _ _ _ _ _ _ _ _ H0 Hw Hw')
    as (_ & _ & _ & _ & _ & _ & ?).
Qed.

Section levels2.
Context {T : Type} `{Scalar T}.
Implicit Types w v : Wave2D.t T.


End levels2.

Section reversal2.
Implicit Types u v e r : list (list Qc).
Implicit Types w : Wave2D.t Qc.

End reversal2.


Section superposition2.
Implicit Types u v e r : list (list Qc).
Implicit Types w : Wave2D.t Qc.










End superposition2.


Section axes.
Implicit Types u v e r : list (list Qc).
Implicit Types w : Wave2D.t Qc.






End axes.


(** In binary64 the four neighbours are added in the order of the
    source, rows first, and the sum of the exchanged data is rounded
    differently: on the 11 by 11 grid the sample [1, 2] of the first
    level computed from [wave_polynomial2d] is not the sample [2, 1]
    computed from the same polynomial with rows and columns exchanged. *)
Example axes_differ_binary64 :
  ∃ wf wg : Wave2D.t float,
    Wave2D.init wave_polynomial2d init_vel2d 1%float 1%float 0.05%float
      0.1%float 1%float = Ok wf ∧
    Wave2D.init
      (λ y x Ly Lx, (λ yj, (λ xi, 4 * (xi * xi) * yj * (1 - xi)
                                   * (1 - yj))%sc <$> x) <$> y)
      init_vel2d 1%float 1%float 0.05%float 0.1%float 1%float = Ok wg ∧
    item2 (Wave2D.u_ti wf) 1 2 = 0.0067900000000000018%float ∧
    item2 (Wave2D.u_ti wg) 2 1 = 0.0067900000000000026%float.
Proof.
  eexists _, _. split; [vm_compute; reflexivity|].
  split; [vm_compute; reflexivity|]. split; vm_compute; reflexivity.
Qed.

Lemma finite_propagation_2d_witness :
  ∃ (w0 w0' : Wave2D.t float) x y,
    np.arange 0%sc (1 + 0.125)%float 0.125%float = Ok x ∧
    np.arange 0%sc (1 + 0.125)%float 0.125%float = Ok y ∧
    rect 9 9 (wave_polynomial2d x y 1%float 1%float) ∧
    rect 9 9 (<[1 := np.zeros 9]> (wave_polynomial2d x y 1%float 1%float)) ∧
    agree2 2 8 0 8 (wave_polynomial2d x y 1%float 1%float)
      (<[1 := np.zeros 9]> (wave_polynomial2d x y 1%float 1%float)) ∧
    agree2 2 8 0 8 (init_vel2d x y) (init_vel2d x y) ∧
    Wave2D.init wave_polynomial2d init_vel2d 1%float 1%float 0.0625%float
      0.125%float 1%float = Ok w0 ∧
    Wave2D.init
      (λ x y Lx Ly, <[1 := np.zeros 9]> (wave_polynomial2d x y Lx Ly))
      init_vel2d 1%float 1%float 0.0625%float 0.125%float 1%float = Ok w0' ∧
    ∀ (k : nat) w w',
      for_range k Wave2D.sub_step w0 = Ok w →
      for_range k Wave2D.sub_step w0' = Ok w' →
      agree2 (2 + 1 + Z.of_nat k) (8 - 1 - Z.of_nat k)
        (0 + 1 + Z.of_nat k) (8 - 1 - Z.of_nat k)
        (Wave2D.u_ti w) (Wave2D.u_ti w').
Proof.
  assert (∀ u : list (list float), agree2 2 8 0 8 u (<[1 := np.zeros 9]> u))
    as Hag.
  { intros u i j Hi Hj. rewrite list_lookup_insert_ne by lia. done. }
  eexists _, _, _, _. split; [vm_compute; reflexivity|].
  split; [vm_compute; reflexivity|].
  split; [split; [vm_compute; reflexivity|repeat constructor]|].
  split; [split; [vm_compute; reflexivity|repeat constructor]|].
  split; [apply Hag|]. split; [intros i j _ _; reflexivity|].
  split; [vm_compute; reflexivity|]. split; [vm_compute; reflexivity|].
  eapply (finite_propagation_2d float float_scalar wave_polynomial2d
            (λ x y Lx Ly, <[1 := np.zeros 9]> (wave_polynomial2d x y Lx Ly))
            init_vel2d init_vel2d 1%float 1%float 0.0625%float 0.125%float
            1%float _ _ _ _ 9 9);
    [vm_compute; reflexivity|vm_compute; reflexivity
    |split; [vm_compute; reflexivity|repeat constructor]
    |split; [vm_compute; reflexivity|repeat constructor]
    |apply Hag|intros i j _ _; reflexivity
    |vm_compute; reflexivity|vm_compute; reflexivity].
Defined.




(** ** The energy of the string, in exact arithmetic *)

Section energy.
Implicit Types f g a p q w : nat → Qc.
Implicit Types u e r : list Qc.









End energy.



Section energy2.
Implicit Types f g : nat → Qc.
Implicit Types F G a p q : nat → nat → Qc.







End energy2.


